(** * tinylazyseq: lazy sequences, their traversal and their size hint

    A shallow embedding of [src/Sequence.ts] (the synchronous pipeline) and of
    the terminal operations of [AsyncSequence] that the specification talks
    about, followed by the properties of the specification and of the
    operations it leaves aside.

    How the TypeScript is read.

    - Every class of [Sequence.ts] is a constructor of [Sequence]; the cached
      [_size] is a field of every node and is computed by the [new_*]
      functions exactly as the class constructors compute it.
    - A generator method [*[Symbol.iterator]] whose body is a [for ... of]
      loop with [yield] inside is read as internal iteration: [foreach s body]
      runs the generator of [s] and hands every yielded value to [body], the
      code of the consumer up to its next pull.  The consumer answers with a
      [Ctl]: [Next] asks for the following value, [Stop] is a [break] or
      [return] in the consuming [for ... of] (JavaScript then calls
      [return()] on the generator, which runs its [finally] blocks and closes
      the generators it is itself consuming).
    - Everything observable from outside is logged as an [Event]: a value
      handed out by an underlying array iterator or one-shot cursor, and every
      invocation of a caller-supplied callback.
    - The only mutable state is the [iterated] flag of the constrained
      sequences and the position of the one-shot cursors they wrap; both live
      in the [Store]. *)

From Stdlib Require Import String Ascii ZArith Bool Lia List.
From Stdlib Require Import DecimalString.
Import ListNotations.
Local Open Scope Z_scope.

Set Implicit Arguments.

(** ** Values, callbacks and events *)

(** [Utils.IllegalStateError]; [Diverged] is not a JavaScript error: it is the
    answer of the model when the fuel given to an unbounded generator ran out. *)
Inductive Error : Type :=
| IllegalStateError
| Diverged.

(** What the consumer of a yielded value answers. [Halt] only arises inside a
    constrained sequence: the generator it wraps is left suspended for good
    (nobody calls [return()] on it, so no [finally] of it runs). *)
Inductive Ctl : Type :=
| Next
| Stop
| Halt
| Fail (e : Error).

(** The completion of a terminal operation: a returned value or a thrown
    error. *)
Inductive Completion (A : Type) : Type :=
| Return (a : A)
| Throw (e : Error).
Arguments Return {A} a.
Arguments Throw {A} e.

Section Model.

(** The element type [T] of the sequences. *)
Variable V : Type.

(** A caller-supplied function [(item, index) => R]. The name stands for the
    identity of the function object, so that its invocations can be counted. *)
Record Callback (R : Type) : Type := mkCallback {
  cb_name : nat;
  cb_fun : V -> Z -> R
}.

Inductive Event : Type :=
| EPull (v : V)                           (* an array iterator or a cursor handed out [v] *)
| ECall (name : nat) (item : V) (index : Z)  (* a callback was invoked *)
| EGen (current : V).                     (* [nextValue(current)] of [generate] was invoked *)

(** ** The pipeline nodes *)

(** The [iterator] of a [ConstrainedSequence]: an external one-shot cursor
    (named by its address in the store), or the generator obtained from
    [this[Symbol.iterator]()] in [constrainOnce]. *)
Inductive Sequence : Type :=
| BaseSequence (_values : list V) (_size : Z)
| GeneratorSequence (initial : V) (nextValue : V -> option V)
| ConcatSequence (sequence other : Sequence) (_size : Z)
| ConstrainedSequence (self : nat) (iterator : IteratorRef) (_size : Z)
| DropSequence (sequence : Sequence) (n : Z) (_size : Z)
| DropWhileSequence (sequence : Sequence) (predicate : Callback bool)
| FilteringSequence (sequence : Sequence) (predicate : Callback bool)
| MapSequence (sequence : Sequence) (transform : Callback V) (_size : Z)
| TakeSequence (sequence : Sequence) (n : Z) (_size : Z)
| TakeWhileSequence (sequence : Sequence) (predicate : Callback bool)
with IteratorRef : Type :=
| Cursor (address : nat)
| GeneratorOf (s : Sequence).

(** [size()]: the cached hint; the classes that call [super(..., -1)] have no
    field of their own. *)
Definition size (s : Sequence) : Z :=
  match s with
  | BaseSequence _ sz => sz
  | GeneratorSequence _ _ => -1
  | ConcatSequence _ _ sz => sz
  | ConstrainedSequence _ _ sz => sz
  | DropSequence _ _ sz => sz
  | DropWhileSequence _ _ => -1
  | FilteringSequence _ _ => -1
  | MapSequence _ _ sz => sz
  | TakeSequence _ _ sz => sz
  | TakeWhileSequence _ _ => -1
  end.

(** The class constructors. *)
Definition new_ConcatSequence (sequence other : Sequence) : Sequence :=
  if (size sequence <? 0) || (size other <? 0)
  then ConcatSequence sequence other (-1)
  else ConcatSequence sequence other (size sequence + size other).

Definition new_DropSequence (sequence : Sequence) (n : Z) : Sequence :=
  if size sequence <? 0
  then DropSequence sequence n (-1)
  else DropSequence sequence n
         (if size sequence - n <? 0 then 0 else size sequence - n).

Definition new_MapSequence (sequence : Sequence) (transform : Callback V) : Sequence :=
  MapSequence sequence transform (size sequence).

Definition new_TakeSequence (sequence : Sequence) (n : Z) : Sequence :=
  TakeSequence sequence n
    (if size sequence <? 0 then -1
     else if n >? size sequence then size sequence
     else n).

(** ** The store *)

Record Store : Type := mkStore {
  iterated : list nat;        (* the constrained sequences whose flag is set *)
  cursors : nat -> list V;    (* what every one-shot cursor has still to hand out *)
  fresh : nat                 (* the next unused object identity *)
}.

Definition is_iterated (self : nat) (st : Store) : bool :=
  existsb (Nat.eqb self) (iterated st).

Definition set_iterated (self : nat) (st : Store) : Store :=
  mkStore (self :: iterated st) (cursors st) (fresh st).

Definition set_cursor (address : nat) (rest : list V) (st : Store) : Store :=
  mkStore (iterated st)
          (fun a => if Nat.eqb a address then rest else cursors st a)
          (fresh st).

(** ** Factories and intermediate operations *)

Definition of_ (args : list V) : Sequence :=
  BaseSequence args (Z.of_nat (length args)).

Definition empty : Sequence := BaseSequence [] 0.

(** [from] on an array-like iterable ([length] is probed first). *)
Definition from_iterable (source : list V) : Sequence :=
  BaseSequence source (Z.of_nat (length source)).

(** [from] on an iterable with neither [length] nor [size]. *)
Definition from_unsized (source : list V) : Sequence :=
  BaseSequence source (-1).

(** [from] on an iterator: a new constrained sequence around the cursor. *)
Definition from_iterator (address : nat) (st : Store) : Sequence * Store :=
  (ConstrainedSequence (fresh st) (Cursor address) (-1),
   mkStore (iterated st) (cursors st) (S (fresh st))).

Definition generate (initial : V) (nextValue : V -> option V) : Sequence :=
  GeneratorSequence initial nextValue.

Definition concat (this other : Sequence) : Sequence := new_ConcatSequence this other.
Definition drop (this : Sequence) (n : Z) : Sequence := new_DropSequence this n.
Definition dropWhile (this : Sequence) (p : Callback bool) : Sequence := DropWhileSequence this p.
Definition filter (this : Sequence) (p : Callback bool) : Sequence := FilteringSequence this p.
Definition map (this : Sequence) (f : Callback V) : Sequence := new_MapSequence this f.
Definition take (this : Sequence) (n : Z) : Sequence := new_TakeSequence this n.
Definition takeWhile (this : Sequence) (p : Callback bool) : Sequence := TakeWhileSequence this p.

(** [constrainOnce]: [this[Symbol.iterator]()] creates the generator without
    running any of its body. *)
Definition constrainOnce (this : Sequence) (st : Store) : Sequence * Store :=
  (ConstrainedSequence (fresh st) (GeneratorOf this) (size this),
   mkStore (iterated st) (cursors st) (S (fresh st))).

(** ** Traversal *)

(** The consumer of a traversal: the code that runs between two pulls, with
    its local variables in [L]. It answers with what it wants next, its new
    local variables and the events it caused. *)
Definition Body (L : Type) : Type := V -> L -> Ctl * L * list Event.

(** [for (const value of array) ...]: the array iterator hands out the values
    one at a time; a [break] leaves the rest untouched. *)
Fixpoint each {L : Type} (values : list V) (body : Body L) (l : L)
  : Ctl * L * list Event :=
  match values with
  | [] => (Next, l, [])
  | value :: rest =>
      let '(c, l1, es1) := body value l in
      match c with
      | Next =>
          let '(c2, l2, es2) := each rest body l1 in
          (c2, l2, EPull value :: es1 ++ es2)
      | _ => (c, l1, EPull value :: es1)
      end
  end.

(** [GeneratorSequence]: the [while (current !== null)] loop after
    [yield this.initial]. *)
Fixpoint generator_loop {L : Type} (fuel : nat) (nextValue : V -> option V)
    (current : V) (body : Body L) (l : L) : Ctl * L * list Event :=
  match fuel with
  | O => (Fail Diverged, l, [])
  | S fuel' =>
      match nextValue current with
      | None => (Next, l, [EGen current])
      | Some v =>
          let '(c, l1, es1) := body v l in
          match c with
          | Next =>
              let '(c2, l2, es2) := generator_loop fuel' nextValue v body l1 in
              (c2, l2, EGen current :: es1 ++ es2)
          | _ => (c, l1, EGen current :: es1)
          end
      end
  end.

(** [ConstrainedSequence] over a one-shot cursor: [next] has been pulled
    before the [yield]; after the [yield] the [finally] pulls the following
    one, also when the consumer stopped (only a generator left suspended pulls
    nothing more). The third component is what the cursor still holds. *)
Fixpoint drain {L : Type} (rest : list V) (body : Body L) (l : L)
  : Ctl * L * list V * list Event :=
  match rest with
  | [] => (Next, l, [], [])
  | value :: rest' =>
      let '(c, l1, es1) := body value l in
      match c with
      | Next =>
          let '(c2, l2, r2, es2) := drain rest' body l1 in
          (c2, l2, r2, EPull value :: es1 ++ es2)
      | Halt => (Halt, l1, rest', EPull value :: es1)
      | _ => (c, l1, tl rest',
              EPull value :: es1 ++ List.map EPull (firstn 1 rest'))
      end
  end.

(** [ConstrainedSequence] over a generator: the same loop, where
    [this.iterator.next()] resumes the wrapped generator. Once the consumer
    has stopped, the [finally] resumes it one last time ([Closing]); the value
    it then yields is dropped and the generator stays suspended. *)
Inductive Phase : Type :=
| Live
| Closing (c : Ctl).

Definition closing_body {L : Type} (body : Body L) : Body (Phase * L) :=
  fun value '(ph, l) =>
    match ph with
    | Live =>
        let '(c, l1, es1) := body value l in
        match c with
        | Next => (Next, (Live, l1), es1)
        | Halt => (Halt, (Live, l1), es1)
        | _ => (Next, (Closing c, l1), es1)
        end
    | Closing _ => (Halt, (ph, l), [])
    end.

Definition settle (ph : Phase) (c : Ctl) : Ctl :=
  match ph with
  | Live => c
  | Closing c0 => match c with Fail e => Fail e | _ => c0 end
  end.

(** The loop bodies of the derived classes, each around the consumer of what
    the class yields. The local variables of the loop come first. *)
Definition drop_body {L : Type} (n : Z) (body : Body L) : Body (Z * L) :=
  fun value '(dropped, l) =>
    if dropped >=? n
    then let '(c, l1, es1) := body value l in (c, (dropped + 1, l1), es1)
    else (Next, (dropped + 1, l), []).

Definition dropWhile_body {L : Type} (predicate : Callback bool) (body : Body L)
  : Body (bool * Z * L) :=
  fun value '(yielding, index, l) =>
    let call := ECall (cb_name predicate) value index in
    let yielding := if negb (cb_fun predicate value index) then true else yielding in
    if yielding
    then let '(c, l1, es1) := body value l in
         (c, (yielding, index + 1, l1), call :: es1)
    else (Next, (yielding, index + 1, l), [call]).

Definition filter_body {L : Type} (predicate : Callback bool) (body : Body L)
  : Body (Z * L) :=
  fun value '(index, l) =>
    let call := ECall (cb_name predicate) value index in
    if cb_fun predicate value index
    then let '(c, l1, es1) := body value l in (c, (index + 1, l1), call :: es1)
    else (Next, (index + 1, l), [call]).

Definition map_body {L : Type} (transform : Callback V) (body : Body L)
  : Body (Z * L) :=
  fun value '(index, l) =>
    let call := ECall (cb_name transform) value index in
    let '(c, l1, es1) := body (cb_fun transform value index) l in
    (c, (index + 1, l1), call :: es1).

(** [TakeSequence] and [TakeWhileSequence] leave their loop with [break]:
    the flag records that the [Stop] is their own, so that their generator
    then simply ends. *)
Definition take_body {L : Type} (n : Z) (body : Body L) : Body (Z * bool * L) :=
  fun value '(taken, broke, l) =>
    if taken <? n
    then let '(c, l1, es1) := body value l in (c, (taken + 1, broke, l1), es1)
    else (Stop, (taken + 1, true, l), []).

Definition takeWhile_body {L : Type} (predicate : Callback bool) (body : Body L)
  : Body (Z * bool * L) :=
  fun value '(index, broke, l) =>
    let call := ECall (cb_name predicate) value index in
    let yielding := if negb (cb_fun predicate value index) then false else true in
    if negb yielding
    then (Stop, (index + 1, true, l), [call])
    else let '(c, l1, es1) := body value l in
         (c, (index + 1, broke, l1), call :: es1).

Definition leave (broke : bool) (c : Ctl) : Ctl :=
  match c with
  | Stop => if broke then Next else Stop
  | _ => c
  end.

(** [s[Symbol.iterator]()] driven to its end or to the consumer's [Stop]. In
    [ConcatSequence], the second [yield*] iterates [this.other["_values"]]:
    the field of the other node, not the other node. *)
Fixpoint foreach (fuel : nat) (s : Sequence) {L : Type} (body : Body L) (l : L)
    (st : Store) {struct s} : Ctl * L * Store * list Event :=
  match s with
  | BaseSequence values _ =>
      let '(c, l1, es1) := each values body l in (c, l1, st, es1)
  | GeneratorSequence initial nextValue =>
      let '(c, l1, es1) := body initial l in
      match c with
      | Next =>
          let '(c2, l2, es2) := generator_loop fuel nextValue initial body l1 in
          (c2, l2, st, es1 ++ es2)
      | _ => (c, l1, st, es1)
      end
  | ConcatSequence sequence other _ =>
      let '(c, l1, st1, es1) := foreach fuel sequence body l st in
      match c with
      | Next =>
          let '(c2, l2, st2, es2) :=
            match other with
            | BaseSequence values _ =>
                let '(c2, l2, es2) := each values body l1 in (c2, l2, st1, es2)
            | GeneratorSequence _ _ => (Next, l1, st1, [])
            | ConstrainedSequence _ _ _ => (Next, l1, st1, [])
            | ConcatSequence s' _ _ => foreach fuel s' body l1 st1
            | DropSequence s' _ _ => foreach fuel s' body l1 st1
            | DropWhileSequence s' _ => foreach fuel s' body l1 st1
            | FilteringSequence s' _ => foreach fuel s' body l1 st1
            | MapSequence s' _ _ => foreach fuel s' body l1 st1
            | TakeSequence s' _ _ => foreach fuel s' body l1 st1
            | TakeWhileSequence s' _ => foreach fuel s' body l1 st1
            end in
          (c2, l2, st2, es1 ++ es2)
      | _ => (c, l1, st1, es1)
      end
  | ConstrainedSequence self iterator _ =>
      if is_iterated self st
      then (Fail IllegalStateError, l, st, [])
      else
        let st0 := set_iterated self st in
        match iterator with
        | Cursor address =>
            let '(c, l1, rest, es1) := drain (cursors st0 address) body l in
            (c, l1, set_cursor address rest st0, es1)
        | GeneratorOf s' =>
            let '(c, (ph, l1), st1, es1) :=
              foreach fuel s' (closing_body body) (Live, l) st0 in
            (settle ph c, l1, st1, es1)
        end
  | DropSequence sequence n _ =>
      let '(c, (_, l1), st1, es1) :=
        foreach fuel sequence (drop_body n body) (0, l) st in
      (c, l1, st1, es1)
  | DropWhileSequence sequence predicate =>
      let '(c, (_, _, l1), st1, es1) :=
        foreach fuel sequence (dropWhile_body predicate body) (false, 0, l) st in
      (c, l1, st1, es1)
  | FilteringSequence sequence predicate =>
      let '(c, (_, l1), st1, es1) :=
        foreach fuel sequence (filter_body predicate body) (0, l) st in
      (c, l1, st1, es1)
  | MapSequence sequence transform _ =>
      let '(c, (_, l1), st1, es1) :=
        foreach fuel sequence (map_body transform body) (0, l) st in
      (c, l1, st1, es1)
  | TakeSequence sequence n _ =>
      let '(c, (_, broke, l1), st1, es1) :=
        foreach fuel sequence (take_body n body) (0, false, l) st in
      (leave broke c, l1, st1, es1)
  | TakeWhileSequence sequence predicate =>
      let '(c, (_, broke, l1), st1, es1) :=
        foreach fuel sequence (takeWhile_body predicate body) (0, false, l) st in
      (leave broke c, l1, st1, es1)
  end.

(** ** Terminal operations *)

(** What a terminal operation gives back: its completion, the store it leaves
    and the events of its traversals, in order. *)
Definition Outcome (A : Type) : Type := Completion A * Store * list Event.

(** The end of the [for ... of] loop of a terminal operation: an error thrown
    by the traversal propagates, anything else returns what the local
    variables say. *)
Definition complete {L A : Type} (result : L -> A)
    (r : Ctl * L * Store * list Event) : Outcome A :=
  let '(c, l, st, es) := r in
  match c with
  | Fail e => (Throw e, st, es)
  | _ => (Return (result l), st, es)
  end.

(** The accumulating function of [fold] and [reduce]; a closure of the library
    itself (the one of [toArray]) has no name and is not logged. *)
Record Operation (R : Type) : Type := mkOperation {
  op_name : option nat;
  op_fun : R -> V -> Z -> R
}.

Definition op_event {R : Type} (operation : Operation R) (item : V) (index : Z)
  : list Event :=
  match op_name operation with
  | Some name => [ECall name item index]
  | None => []
  end.

Definition first_body : Body (option V) :=
  fun item _ => (Stop, Some item, []).

Definition first (fuel : nat) (this : Sequence) (st : Store) : Outcome (option V) :=
  complete (fun l => l) (foreach fuel this first_body None st).

Definition isEmpty_body : Body bool :=
  fun _ _ => (Stop, false, []).

Definition isEmpty (fuel : nat) (this : Sequence) (st : Store) : Outcome bool :=
  complete (fun l => l) (foreach fuel this isEmpty_body true st).

Definition find_body (predicate : Callback bool) : Body (Z * option V) :=
  fun item '(index, result) =>
    let call := ECall (cb_name predicate) item index in
    if cb_fun predicate item index
    then (Stop, (index + 1, Some item), [call])
    else (Next, (index + 1, result), [call]).

Definition find (fuel : nat) (this : Sequence) (predicate : Callback bool)
    (st : Store) : Outcome (option V) :=
  complete snd (foreach fuel this (find_body predicate) (0, None) st).

(** [findIndex] calls [predicate(item)] without an index (the event records
    the position all the same); [index] is only incremented when the predicate
    fails. *)
Definition findIndex_body (name : nat) (predicate : V -> bool) : Body (Z * Z) :=
  fun item '(index, result) =>
    let call := ECall name item index in
    if predicate item
    then (Stop, (index, index), [call])
    else (Next, (index + 1, result), [call]).

Definition findIndex (fuel : nat) (this : Sequence) (name : nat)
    (predicate : V -> bool) (st : Store) : Outcome Z :=
  complete snd (foreach fuel this (findIndex_body name predicate) (0, -1) st).

Definition fold_body {R : Type} (operation : Operation R) : Body (Z * R) :=
  fun item '(index, result) =>
    (Next, (index + 1, op_fun operation result item index),
     op_event operation item index).

Definition fold {R : Type} (fuel : nat) (this : Sequence) (initial : R)
    (operation : Operation R) (st : Store) : Outcome R :=
  complete snd (foreach fuel this (fold_body operation) (0, initial) st).

Definition forEach (fuel : nat) (this : Sequence) (action : Callback unit)
    (st : Store) : Outcome unit :=
  complete (fun _ => tt)
    (foreach fuel this
       (fun item index => (Next, index + 1, [ECall (cb_name action) item index]))
       0 st).

(** [toArray]: a fold with [(acc, curr) => { acc.push(curr); return acc; }]. *)
Definition push_operation : Operation (list V) :=
  mkOperation None (fun acc curr _ => acc ++ [curr]).

Definition toArray (fuel : nat) (this : Sequence) (st : Store) : Outcome (list V) :=
  fold fuel this [] push_operation st.

(** [reduce]: [isEmpty()], then [first()], then a loop over [drop(1)], each of
    them a traversal of its own. [None] is [null]. The operation is typed on
    the elements ([R extends T]); were [first()] to give [undefined], the
    accumulator stays undefined, which the result shows as [None]. *)
Definition reduce_operation (operation : Operation V) : Operation (option V) :=
  mkOperation (op_name operation)
    (fun acc item index =>
       match acc with
       | Some a => Some (op_fun operation a item index)
       | None => None
       end).

Definition reduce (fuel : nat) (this : Sequence) (operation : Operation V)
    (st : Store) : Outcome (option V) :=
  match isEmpty fuel this st with
  | (Throw e, st1, es1) => (Throw e, st1, es1)
  | (Return true, st1, es1) => (Return None, st1, es1)
  | (Return false, st1, es1) =>
      match first fuel this st1 with
      | (Throw e, st2, es2) => (Throw e, st2, es1 ++ es2)
      | (Return result, st2, es2) =>
          let '(r, st3, es3) :=
            fold fuel (drop this 1) result (reduce_operation operation) st2 in
          (r, st3, es1 ++ es2 ++ es3)
      end
  end.

(** [contains] and [containsAll]; [same] is [===] on the elements. Every
    [this.contains(value)] is a traversal of its own. *)
Variable same : V -> V -> bool.

Definition contains_body (value : V) : Body bool :=
  fun item found => if same item value then (Stop, true, []) else (Next, found, []).

Definition contains (fuel : nat) (this : Sequence) (value : V) (st : Store)
  : Outcome bool :=
  complete (fun l => l) (foreach fuel this (contains_body value) false st).

Fixpoint containsAll (fuel : nat) (this : Sequence) (values : list V) (st : Store)
  : Outcome bool :=
  match values with
  | [] => (Return true, st, [])
  | value :: rest =>
      match contains fuel this value st with
      | (Throw e, st1, es1) => (Throw e, st1, es1)
      | (Return false, st1, es1) => (Return false, st1, es1)
      | (Return true, st1, es1) =>
          let '(r, st2, es2) := containsAll fuel this rest st1 in
          (r, st2, es1 ++ es2)
      end
  end.

(** [Number.prototype.toString] on an integer. *)
Definition number_toString (n : Z) : string :=
  NilZero.string_of_int (Z.to_int n).

Definition toString (fuel : nat) (this : Sequence) (st : Store) : Outcome string :=
  match isEmpty fuel this st with
  | (Throw e, st1, es1) => (Throw e, st1, es1)
  | (Return true, st1, es1) => (Return "Sequence (empty)"%string, st1, es1)
  | (Return false, st1, es1) =>
      let sizeString :=
        if size this <? 0 then "unknown"%string else number_toString (size this) in
      (Return ("Sequence (" ++ sizeString ++ ")")%string, st1, es1)
  end.

(** ** The remaining terminal operations *)

(** A predicate left out by the caller is the library's own [_ => true]: it
    is no callback of the caller and is not logged. *)
Definition default_true (predicate : option (Callback bool)) (item : V)
    (index : Z) : bool :=
  match predicate with
  | Some p => cb_fun p item index
  | None => true
  end.

Definition predicate_event (predicate : option (Callback bool)) (item : V)
    (index : Z) : list Event :=
  match predicate with
  | Some p => [ECall (cb_name p) item index]
  | None => []
  end.

Definition count_body (predicate : option (Callback bool)) : Body (Z * Z) :=
  fun item '(index, count) =>
    (Next,
     (index + 1, if default_true predicate item index then count + 1 else count),
     predicate_event predicate item index).

Definition count (fuel : nat) (this : Sequence)
    (predicate : option (Callback bool)) (st : Store) : Outcome Z :=
  complete snd (foreach fuel this (count_body predicate) (0, 0) st).

(** [elementAt]: [None] is [undefined]. A negative index returns before the
    loop is entered. *)
Definition elementAt_body (index : Z) : Body (Z * option V) :=
  fun item '(count, result) =>
    if index =? count
    then (Stop, (count + 1, Some item), [])
    else (Next, (count + 1, result), []).

Definition elementAt (fuel : nat) (this : Sequence) (index : Z) (st : Store)
  : Outcome (option V) :=
  if index <? 0 then (Return None, st, [])
  else complete snd (foreach fuel this (elementAt_body index) (0, None) st).

Definition every_body (predicate : Callback bool) : Body (Z * bool) :=
  fun item '(index, result) =>
    let call := ECall (cb_name predicate) item index in
    if negb (cb_fun predicate item index)
    then (Stop, (index + 1, false), [call])
    else (Next, (index + 1, result), [call]).

Definition every (fuel : nat) (this : Sequence) (predicate : Callback bool)
    (st : Store) : Outcome bool :=
  complete snd (foreach fuel this (every_body predicate) (0, true) st).

Definition some_body (predicate : option (Callback bool)) : Body (Z * bool) :=
  fun item '(index, result) =>
    if default_true predicate item index
    then (Stop, (index + 1, true), predicate_event predicate item index)
    else (Next, (index + 1, result), predicate_event predicate item index).

Definition some (fuel : nat) (this : Sequence)
    (predicate : option (Callback bool)) (st : Store) : Outcome bool :=
  complete snd (foreach fuel this (some_body predicate) (0, false) st).

Definition findLast_body (predicate : Callback bool) : Body (Z * option V) :=
  fun item '(index, result) =>
    (Next,
     (index + 1, if cb_fun predicate item index then Some item else result),
     [ECall (cb_name predicate) item index]).

Definition findLast (fuel : nat) (this : Sequence) (predicate : Callback bool)
    (st : Store) : Outcome (option V) :=
  complete snd (foreach fuel this (findLast_body predicate) (0, None) st).

(** [findLastIndex] calls [predicate(item)] without an index, as [findIndex]
    does. *)
Definition findLastIndex_body (name : nat) (predicate : V -> bool)
  : Body (Z * Z) :=
  fun item '(result, current) =>
    (Next, (if predicate item then current else result, current + 1),
     [ECall name item current]).

Definition findLastIndex (fuel : nat) (this : Sequence) (name : nat)
    (predicate : V -> bool) (st : Store) : Outcome Z :=
  complete fst (foreach fuel this (findLastIndex_body name predicate) (-1, 0) st).

Definition indexOf_body (value : V) : Body (Z * Z) :=
  fun item '(index, result) =>
    if same item value
    then (Stop, (index, index), [])
    else (Next, (index + 1, result), []).

Definition indexOf (fuel : nat) (this : Sequence) (value : V) (st : Store)
  : Outcome Z :=
  complete snd (foreach fuel this (indexOf_body value) (0, -1) st).

Definition lastIndexOf_body (value : V) : Body (Z * Z) :=
  fun item '(result, index) =>
    (Next, (if same item value then index else result, index + 1), []).

Definition lastIndexOf (fuel : nat) (this : Sequence) (value : V) (st : Store)
  : Outcome Z :=
  complete fst (foreach fuel this (lastIndexOf_body value) (-1, 0) st).

Definition last_body : Body (option V) :=
  fun item _ => (Next, Some item, []).

Definition last (fuel : nat) (this : Sequence) (st : Store) : Outcome (option V) :=
  complete (fun l => l) (foreach fuel this last_body None st).

(** [join]. A field the caller leaves out is [None]; [join()] without options
    is [join] on the record of six [None]. [show] is [item.toString()]. The
    transform is called on the item alone; its event records the position. *)
Record JoinOptions : Type := mkJoinOptions {
  join_separator : option string;
  join_prefix : option string;
  join_postfix : option string;
  join_limit : option Z;
  join_truncated : option string;
  join_transform : option (nat * (V -> string))
}.

Definition or_else {A : Type} (o : option A) (default : A) : A :=
  match o with
  | Some a => a
  | None => default
  end.

Variable show : V -> string.

Definition join_body (separator : string) (limit : Z)
    (transform : option (nat * (V -> string))) : Body (string * Z) :=
  fun item '(base, count) =>
    let count := count + 1 in
    let base := if count >? 1 then (base ++ separator)%string else base in
    if (limit <? 0) || (count <=? limit)
    then
      match transform with
      | Some (name, f) =>
          (Next, ((base ++ f item)%string, count), [ECall name item (count - 1)])
      | None => (Next, ((base ++ show item)%string, count), [])
      end
    else (Stop, (base, count), []).

Definition join (fuel : nat) (this : Sequence) (options : JoinOptions)
    (st : Store) : Outcome string :=
  let separator := or_else (join_separator options) ", "%string in
  let prefix := or_else (join_prefix options) EmptyString in
  let postfix := or_else (join_postfix options) EmptyString in
  let limit := or_else (join_limit options) (-1) in
  let truncated := or_else (join_truncated options) "..."%string in
  complete
    (fun '(base, count) =>
       let base :=
         if (limit >=? 0) && (count >? limit)
         then (base ++ truncated)%string else base in
       (base ++ postfix)%string)
    (foreach fuel this (join_body separator limit (join_transform options))
       (prefix, 0) st).

End Model.

Arguments EPull {V} v.
Arguments ECall {V} name item index.
Arguments EGen {V} current.
Arguments empty {V}.
Arguments push_operation {V}.
Arguments Cursor {V} address.

(** ** AsyncSequence: the terminal operations *)

Module Async.

(** A value of type [A | Promise<A>]: [Pending a] is a promise that resolves
    to [a]. [await] gives [a] in both cases; used as a condition without
    [await], a promise is an object, hence true. *)
Inductive Awaitable (A : Type) : Type :=
| Direct (a : A)
| Pending (a : A).
Arguments Direct {A} a.
Arguments Pending {A} a.

Definition await {A : Type} (x : Awaitable A) : A :=
  match x with
  | Direct a => a
  | Pending a => a
  end.

Definition truthy (x : Awaitable bool) : bool :=
  match x with
  | Direct b => b
  | Pending _ => true
  end.

Section AsyncModel.

Variable V : Type.
Variable same : V -> V -> bool.

(** An [AsyncSequence] over an array of promises: [_values] lists what the
    promises resolve to, in order; [for await] hands them out one by one. *)
Record AsyncSequence : Type := mkAsyncSequence {
  _values : list V;
  _size : Z
}.

Definition of_ (args : list V) : AsyncSequence :=
  mkAsyncSequence args (Z.of_nat (List.length args)).

Definition size (this : AsyncSequence) : Z := _size this.

(** An [async] method returns a promise of its result. *)
Fixpoint contains_loop (items : list V) (value : V) : bool :=
  match items with
  | [] => false
  | item :: rest => if same item value then true else contains_loop rest value
  end.

Definition contains (this : AsyncSequence) (value : V) : Awaitable bool :=
  Pending (contains_loop (_values this) value).

(** [if (!this.contains(value)) return false;] *)
Fixpoint containsAll_loop (this : AsyncSequence) (values : list V) : bool :=
  match values with
  | [] => true
  | value :: rest =>
      if negb (truthy (contains this value)) then false
      else containsAll_loop this rest
  end.

Definition containsAll (this : AsyncSequence) (values : list V) : Awaitable bool :=
  Pending (containsAll_loop this values).

(** [if (await predicate(item, index++)) return item;] *)
Fixpoint find_loop (predicate : V -> Z -> Awaitable bool) (items : list V)
    (index : Z) : option V :=
  match items with
  | [] => None
  | item :: rest =>
      if await (predicate item index) then Some item
      else find_loop predicate rest (index + 1)
  end.

Definition find (this : AsyncSequence) (predicate : V -> Z -> Awaitable bool)
  : Awaitable (option V) :=
  Pending (find_loop predicate (_values this) 0).

(** [if (predicate(item)) return index; index++;] *)
Fixpoint findIndex_loop (predicate : V -> Awaitable bool) (items : list V)
    (index : Z) : Z :=
  match items with
  | [] => -1
  | item :: rest =>
      if truthy (predicate item) then index
      else findIndex_loop predicate rest (index + 1)
  end.

Definition findIndex (this : AsyncSequence) (predicate : V -> Awaitable bool)
  : Awaitable Z :=
  Pending (findIndex_loop predicate (_values this) 0).

(** [toString] reads the cached size only. *)
Definition toString (this : AsyncSequence) : string :=
  if _size this =? 0 then "AsyncSequence (empty)"%string
  else
    let sizeString :=
      if size this <? 0 then "unknown"%string
      else NilZero.string_of_int (Z.to_int (size this)) in
    ("AsyncSquence (" ++ sizeString ++ ")")%string.

End AsyncModel.

End Async.

(** ** Two consumers on the same sequence *)

(** The traversal through [other["_values"]] in [ConcatSequence], on its own. *)
Definition foreach_field {V L : Type} (fuel : nat) (other : Sequence V)
    (body : Body V L) (l : L) (st : Store V)
  : Ctl * L * Store V * list (Event V) :=
  match other with
  | BaseSequence values _ =>
      let '(c2, l2, es2) := each values body l in (c2, l2, st, es2)
  | GeneratorSequence _ _ => (Next, l, st, [])
  | ConstrainedSequence _ _ _ => (Next, l, st, [])
  | ConcatSequence s' _ _ => foreach fuel s' body l st
  | DropSequence s' _ _ => foreach fuel s' body l st
  | DropWhileSequence s' _ => foreach fuel s' body l st
  | FilteringSequence s' _ => foreach fuel s' body l st
  | MapSequence s' _ _ => foreach fuel s' body l st
  | TakeSequence s' _ _ => foreach fuel s' body l st
  | TakeWhileSequence s' _ => foreach fuel s' body l st
  end.

(** Two stores agree on the identities in [I]: the same cursors, and the same
    flag for every constrained sequence in [I]. *)
Definition store_agree {V : Type} (I : nat -> Prop) (st1 st2 : Store V) : Prop :=
  (forall a, cursors st1 a = cursors st2 a) /\
  (forall id, I id -> is_iterated id st1 = is_iterated id st2).

(** Every constrained sequence inside [s] has its identity in [I]. *)
Fixpoint all_self {V : Type} (I : nat -> Prop) (s : Sequence V) : Prop :=
  match s with
  | BaseSequence _ _ => True
  | GeneratorSequence _ _ => True
  | ConcatSequence a b _ => all_self I a /\ all_self I b
  | ConstrainedSequence self it _ =>
      I self /\
      match it with
      | Cursor _ => True
      | GeneratorOf s' => all_self I s'
      end
  | DropSequence s' _ _ => all_self I s'
  | DropWhileSequence s' _ => all_self I s'
  | FilteringSequence s' _ => all_self I s'
  | MapSequence s' _ _ => all_self I s'
  | TakeSequence s' _ _ => all_self I s'
  | TakeWhileSequence s' _ => all_self I s'
  end.

(** Two consumers are in step when, from related local variables, they give
    the same answer, and end in [R] when they go on and in [T] when they
    stop. *)
Definition body_sim {V L1 L2 : Type} (R : L1 -> L2 -> Prop)
    (T : Ctl -> L1 -> L2 -> Prop) (b1 : Body V L1) (b2 : Body V L2) : Prop :=
  forall v l1 l2, R l1 l2 ->
    fst (fst (b1 v l1)) = fst (fst (b2 v l2)) /\
    match fst (fst (b1 v l1)) with
    | Next => R (snd (fst (b1 v l1))) (snd (fst (b2 v l2)))
    | c => T c (snd (fst (b1 v l1))) (snd (fst (b2 v l2)))
    end.

Definition post_sim {L1 L2 : Type} (R : L1 -> L2 -> Prop)
    (T : Ctl -> L1 -> L2 -> Prop) (c : Ctl) (l1 : L1) (l2 : L2) : Prop :=
  match c with
  | Next => R l1 l2
  | Fail _ => R l1 l2 \/ exists c', T c' l1 l2
  | _ => T c l1 l2
  end.

Definition loop_sim {V L1 L2 : Type} (R : L1 -> L2 -> Prop)
    (T : Ctl -> L1 -> L2 -> Prop)
    (r1 : Ctl * L1 * list (Event V)) (r2 : Ctl * L2 * list (Event V)) : Prop :=
  fst (fst r1) = fst (fst r2) /\
  post_sim R T (fst (fst r1)) (snd (fst r1)) (snd (fst r2)).

Definition run_sim {V L1 L2 : Type} (I : nat -> Prop) (R : L1 -> L2 -> Prop)
    (T : Ctl -> L1 -> L2 -> Prop)
    (r1 : Ctl * L1 * Store V * list (Event V))
    (r2 : Ctl * L2 * Store V * list (Event V)) : Prop :=
  fst (fst (fst r1)) = fst (fst (fst r2)) /\
  store_agree I (snd (fst r1)) (snd (fst r2)) /\
  post_sim R T (fst (fst (fst r1))) (snd (fst (fst r1))) (snd (fst (fst r2))).


(** ** What a trace tells *)

Section Observations.

Variable V : Type.

Definition is_pull (e : Event V) : bool :=
  match e with
  | EPull _ => true
  | _ => false
  end.

(** How many values the underlying arrays and cursors handed out. *)
Definition pulls (es : list (Event V)) : nat :=
  List.length (List.filter is_pull es).

Definition is_call (name : nat) (e : Event V) : bool :=
  match e with
  | ECall n _ _ => Nat.eqb n name
  | _ => false
  end.

(** How many times the callback [name] was invoked. *)
Definition calls_of (name : nat) (es : list (Event V)) : nat :=
  List.length (List.filter (is_call name) es).

(** A store with no cursor and no constrained sequence yet. *)
Definition initial_store : Store V := mkStore [] (fun _ => []) 0.

Definition result_of {A : Type} (o : Outcome V A) : Completion A := fst (fst o).
Definition store_of {A : Type} (o : Outcome V A) : Store V := snd (fst o).
Definition events_of {A : Type} (o : Outcome V A) : list (Event V) := snd o.

(** The specification's words for [dropWhile] and [takeWhile], on the list of
    the values of the upstream sequence: the values from the first one that
    fails the predicate on, and the values before it. *)
Fixpoint dropWhile_spec (p : V -> Z -> bool) (index : Z) (xs : list V) : list V :=
  match xs with
  | [] => []
  | x :: rest => if p x index then dropWhile_spec p (index + 1) rest else x :: rest
  end.

Fixpoint takeWhile_spec (p : V -> Z -> bool) (index : Z) (xs : list V) : list V :=
  match xs with
  | [] => []
  | x :: rest => if p x index then x :: takeWhile_spec p (index + 1) rest else []
  end.

(** A chain of intermediate operations, as it is written after a source. *)
Inductive Op : Type :=
| OpMap (transform : Callback V V)
| OpFilter (predicate : Callback V bool)
| OpTake (n : Z)
| OpDrop (n : Z)
| OpDropWhile (predicate : Callback V bool)
| OpTakeWhile (predicate : Callback V bool).

(** Calling one intermediate operation: a new node, and the events of the
    call. None of the methods runs anything but a class constructor. *)
Definition apply_op (this : Sequence V) (op : Op) : Sequence V * list (Event V) :=
  match op with
  | OpMap transform => (map this transform, [])
  | OpFilter predicate => (filter this predicate, [])
  | OpTake n => (take this n, [])
  | OpDrop n => (drop this n, [])
  | OpDropWhile predicate => (dropWhile this predicate, [])
  | OpTakeWhile predicate => (takeWhile this predicate, [])
  end.

Fixpoint build (source : Sequence V) (ops : list Op) : Sequence V * list (Event V) :=
  match ops with
  | [] => (source, [])
  | op :: rest =>
      let '(s1, es1) := apply_op source op in
      let '(s2, es2) := build s1 rest in
      (s2, es1 ++ es2)
  end.

Definition chain (source : Sequence V) (ops : list Op) : Sequence V :=
  fst (build source ops).

(** The names of the callbacks of a chain that ends in [find(predicate)]. *)
Definition op_names (op : Op) : list nat :=
  match op with
  | OpMap transform => [cb_name transform]
  | OpFilter predicate => [cb_name predicate]
  | OpTake _ => []
  | OpDrop _ => []
  | OpDropWhile predicate => [cb_name predicate]
  | OpTakeWhile predicate => [cb_name predicate]
  end.

Definition chain_names (ops : list Op) (predicate : Callback V bool) : list nat :=
  flat_map op_names ops ++ [cb_name predicate].

(** The indexes that the invocations of the callback [name] were given, in
    the order of the trace. *)
Definition call_index (e : Event V) : Z :=
  match e with
  | ECall _ _ index => index
  | _ => 0
  end.

Definition indices_of (name : nat) (es : list (Event V)) : list Z :=
  List.map call_index (List.filter (is_call name) es).

(** [start], [start + 1], ..., [m] of them. *)
Definition zseq (start : Z) (m : nat) : list Z :=
  List.map (fun i => start + Z.of_nat i) (seq 0 m).

(** A consumer counts its invocations of [name] in [k]: every step either
    does not invoke it, or invokes it once, with the count as index, and adds
    one to the count. A consumer is silent when it never invokes it. *)
Definition counts {L : Type} (name : nat) (k : L -> Z) (b : Body V L) : Prop :=
  forall v l,
    (indices_of name (snd (b v l)) = [] /\ k (snd (fst (b v l))) = k l) \/
    (indices_of name (snd (b v l)) = [k l] /\ k (snd (fst (b v l))) = k l + 1).

Definition silent {L : Type} (name : nat) (b : Body V L) : Prop :=
  forall v l, indices_of name (snd (b v l)) = [].

(** The invocations of [name] in a trace carry the indexes [start],
    [start + 1], ...: one invocation per value that reached the callback; they
    are no more than the values pulled, which are no more than [len]. *)
Definition counted (name : nat) (start : Z) (es : list (Event V)) (len : nat)
  : Prop :=
  indices_of name es = zseq start (calls_of name es) /\
  (calls_of name es <= pulls es)%nat /\
  (pulls es <= len)%nat.

(** The values of a traversal with the positions a consumer counts for them. *)
Fixpoint indexed_from (start : Z) (xs : list V) : list (V * Z) :=
  match xs with
  | [] => []
  | x :: rest => (x, start) :: indexed_from (start + 1) rest
  end.

Definition indexed (xs : list V) : list (V * Z) := indexed_from 0 xs.

Definition at_index {R : Type} (f : V -> Z -> R) : V * Z -> R :=
  fun '(v, i) => f v i.

(** The first [k] values of the orbit of [v] under [g]. *)
Fixpoint iterate (g : V -> V) (k : nat) (v : V) : list V :=
  match k with
  | O => []
  | S k' => v :: iterate g k' (g v)
  end.

(** The arguments of the invocations of the callback [name], in the order of
    the trace. *)
Definition calls_on (name : nat) (es : list (Event V)) : list (V * Z) :=
  flat_map (fun e =>
              match e with
              | ECall n item index =>
                  if Nat.eqb n name then [(item, index)] else []
              | _ => []
              end) es.

(** What one intermediate operation yields over the values it receives, and
    what a chain of them hands to its consumer. *)
Definition stage_values (op : Op) (vs : list V) : list V :=
  match op with
  | OpMap transform => List.map (at_index (cb_fun transform)) (indexed vs)
  | OpFilter predicate =>
      List.map fst (List.filter (at_index (cb_fun predicate)) (indexed vs))
  | OpTake n => firstn (Z.to_nat n) vs
  | OpDrop n => skipn (Z.to_nat n) vs
  | OpDropWhile predicate => dropWhile_spec (cb_fun predicate) 0 vs
  | OpTakeWhile predicate => takeWhile_spec (cb_fun predicate) 0 vs
  end.

Definition reaching (ops : list Op) (vs : list V) : list V :=
  fold_left (fun acc op => stage_values op acc) ops vs.

(** One turn of the loop of an intermediate operation on a value it
    receives: it keeps the value back, hands a value to its consumer, or
    breaks. The events are those of its own callback. *)
Inductive Turn (S : Type) : Type :=
| Keep (s : S) (es : list (Event V))
| Hand (w : V) (s : S) (es : list (Event V))
| Break (s : S) (es : list (Event V)).

Definition turn_state {S : Type} (t : Turn S) : S :=
  match t with
  | Keep s _ => s
  | Hand _ s _ => s
  | Break s _ => s
  end.

Definition turn_events {S : Type} (t : Turn S) : list (Event V) :=
  match t with
  | Keep _ es => es
  | Hand _ _ es => es
  | Break _ es => es
  end.

Definition turn_body {S L : Type} (turn : V -> S -> Turn S) (body : Body V L)
  : Body V (S * L) :=
  fun value '(s, l) =>
    match turn value s with
    | Keep s' es => (Next, (s', l), es)
    | Hand w s' es => let '(c, l1, es1) := body w l in (c, (s', l1), es ++ es1)
    | Break s' es => (Stop, (s', l), es)
    end.

(** The values that the turns hand on, up to the first break. *)
Fixpoint handed {S : Type} (turn : V -> S -> Turn S) (s : S) (ins : list V)
  : list V :=
  match ins with
  | [] => []
  | v :: rest =>
      match turn v s with
      | Keep s' _ => handed turn s' rest
      | Hand w s' _ => w :: handed turn s' rest
      | Break _ _ => []
      end
  end.

(** The turns of the six loops of [Sequence.ts], read off [map_body],
    [filter_body], [take_body], [drop_body], [dropWhile_body] and
    [takeWhile_body]. *)
Definition map_turn (transform : Callback V V) : V -> Z -> Turn Z :=
  fun value index =>
    Hand (cb_fun transform value index) (index + 1)
         [ECall (cb_name transform) value index].

Definition filter_turn (predicate : Callback V bool) : V -> Z -> Turn Z :=
  fun value index =>
    if cb_fun predicate value index
    then Hand value (index + 1) [ECall (cb_name predicate) value index]
    else Keep (index + 1) [ECall (cb_name predicate) value index].

Definition take_turn (n : Z) : V -> Z * bool -> Turn (Z * bool) :=
  fun value '(taken, broke) =>
    if taken <? n
    then Hand value (taken + 1, broke) []
    else Break (taken + 1, true) [].

Definition drop_turn (n : Z) : V -> Z -> Turn Z :=
  fun value dropped =>
    if dropped >=? n
    then Hand value (dropped + 1) []
    else Keep (dropped + 1) [].

Definition dropWhile_turn (predicate : Callback V bool)
  : V -> bool * Z -> Turn (bool * Z) :=
  fun value '(yielding, index) =>
    let yielding :=
      if negb (cb_fun predicate value index) then true else yielding in
    if yielding
    then Hand value (yielding, index + 1) [ECall (cb_name predicate) value index]
    else Keep (yielding, index + 1) [ECall (cb_name predicate) value index].

Definition takeWhile_turn (predicate : Callback V bool)
  : V -> Z * bool -> Turn (Z * bool) :=
  fun value '(index, broke) =>
    if cb_fun predicate value index
    then Hand value (index + 1, broke) [ECall (cb_name predicate) value index]
    else Break (index + 1, true) [ECall (cb_name predicate) value index].

(** A consumer is quiet when it pulls nothing itself, mute on a name when it
    never invokes it, and asks a name when every step invokes it exactly
    once, on the value it receives and with its count [k] as index. *)
Definition quiet {L : Type} (b : Body V L) : Prop :=
  forall v l, pulls (snd (b v l)) = 0%nat.

Definition mute {L : Type} (name : nat) (b : Body V L) : Prop :=
  forall v l, calls_on name (snd (b v l)) = [].

Definition asks {L : Type} (name : nat) (k : L -> Z) (b : Body V L) : Prop :=
  forall v l,
    calls_on name (snd (b v l)) = [(v, k l)] /\
    k (snd (fst (b v l))) = k l + 1.

(** The turn [turn], started in [s0], is the loop of [op]: it pulls nothing,
    hands on what [op] yields, invokes no other callback than the one of
    [op], and invokes that one exactly once per turn, with the count [k]. *)
Definition implements {S : Type} (op : Op) (turn : V -> S -> Turn S) (s0 : S)
    (k : S -> Z) : Prop :=
  (forall v s, pulls (turn_events (turn v s)) = 0%nat) /\
  (forall ins, handed turn s0 ins = stage_values op ins) /\
  (forall name, ~ In name (op_names op) ->
     forall v s, calls_on name (turn_events (turn v s)) = []) /\
  (forall name, In name (op_names op) ->
     k s0 = 0 /\
     forall v s, calls_on name (turn_events (turn v s)) = [(v, k s)] /\
                 k (turn_state (turn v s)) = k s + 1).

(** What the trace [es] of a traversal of the chain [ops] over the array [xs]
    says, when the consumer [b] started from [l] and ended with [lend]. The
    values pulled are the first [pulls es] of [xs]; the consumer received
    what the chain yields over them, all of it; a callback that is not of
    the chain was invoked as the consumer invokes it over these values; the
    callback of a stage was invoked exactly once on each value that reached
    the stage, with its position; and when the consumer stopped, its last
    value came with the last value pulled. *)
Definition traced {L : Type} (xs : list V) (ops : list Op) (b : Body V L)
    (l lend : L) (es : list (Event V)) : Prop :=
  let pre := firstn (pulls es) xs in
  let outs := reaching ops pre in
  pulls (snd (each outs b l)) = List.length outs /\
  lend = snd (fst (each outs b l)) /\
  (forall name, ~ In name (flat_map op_names ops) ->
     calls_on name es = calls_on name (snd (each outs b l))) /\
  (NoDup (flat_map op_names ops) ->
   forall i op name,
     nth_error ops i = Some op -> In name (op_names op) -> mute name b ->
     calls_on name es = indexed (reaching (firstn i ops) pre)) /\
  (fst (fst (each outs b l)) <> Next ->
   reaching ops (removelast pre) = removelast outs).

End Observations.

Arguments initial_store {V}.

(** The relations between the local variables of two copies of a loop of a
    derived class, around consumers related by [R] and [T]. *)
Definition lift_R {K L1 L2 : Type} (R : L1 -> L2 -> Prop)
  : K * L1 -> K * L2 -> Prop :=
  fun x y => fst x = fst y /\ R (snd x) (snd y).

Definition lift_T {K L1 L2 : Type} (T : Ctl -> L1 -> L2 -> Prop)
  : Ctl -> K * L1 -> K * L2 -> Prop :=
  fun c x y => T c (snd x) (snd y).

Definition break_R {K L1 L2 : Type} (R : L1 -> L2 -> Prop)
  : K * bool * L1 -> K * bool * L2 -> Prop :=
  fun x y =>
    fst (fst x) = fst (fst y) /\ snd (fst x) = false /\ snd (fst y) = false /\
    R (snd x) (snd y).

Definition break_T {K L1 L2 : Type} (R : L1 -> L2 -> Prop)
    (T : Ctl -> L1 -> L2 -> Prop)
  : Ctl -> K * bool * L1 -> K * bool * L2 -> Prop :=
  fun c x y =>
    (c = Stop /\ snd (fst x) = true /\ snd (fst y) = true /\ R (snd x) (snd y)) \/
    (snd (fst x) = false /\ snd (fst y) = false /\ T c (snd x) (snd y)).

Definition closing_inv {L1 L2 : Type} (R : L1 -> L2 -> Prop)
    (T : Ctl -> L1 -> L2 -> Prop) (ph : Phase) (l1 : L1) (l2 : L2) : Prop :=
  match ph with
  | Live => R l1 l2
  | Closing c => c <> Next /\ c <> Halt /\ T c l1 l2
  end.

Definition closing_R {L1 L2 : Type} (R : L1 -> L2 -> Prop)
    (T : Ctl -> L1 -> L2 -> Prop) : Phase * L1 -> Phase * L2 -> Prop :=
  fun x y => fst x = fst y /\ closing_inv R T (fst x) (snd x) (snd y).

Definition closing_T {L1 L2 : Type} (T : Ctl -> L1 -> L2 -> Prop)
  : Ctl -> Phase * L1 -> Phase * L2 -> Prop :=
  fun c x y =>
    c = Halt /\ fst x = fst y /\
    match fst x with
    | Live => T Halt (snd x) (snd y)
    | Closing c0 => c0 <> Next /\ c0 <> Halt /\ T c0 (snd x) (snd y)
    end.

(** ** A consumer that stops ahead of another *)

(** [bA] and [bB] are in step ([R]) until [bA] stops: either [bB] stops with
    it ([T]), or [bB] goes on alone, and then [D] holds and keeps holding
    whatever [bB] does next. *)
Definition body_ahead {V LA LB : Type} (R : LA -> LB -> Prop)
    (T : Ctl -> LA -> LB -> Prop) (D : LA -> LB -> Prop)
    (bA : Body V LA) (bB : Body V LB) : Prop :=
  forall v lA lB, R lA lB ->
    match fst (fst (bA v lA)) with
    | Next =>
        fst (fst (bB v lB)) = Next /\
        R (snd (fst (bA v lA))) (snd (fst (bB v lB)))
    | Stop =>
        (fst (fst (bB v lB)) = Stop /\
         T Stop (snd (fst (bA v lA))) (snd (fst (bB v lB)))) \/
        (fst (fst (bB v lB)) = Next /\
         D (snd (fst (bA v lA))) (snd (fst (bB v lB))))
    | Halt =>
        (fst (fst (bB v lB)) = Halt /\
         T Halt (snd (fst (bA v lA))) (snd (fst (bB v lB)))) \/
        D (snd (fst (bA v lA))) (snd (fst (bB v lB)))
    | Fail _ => False
    end.

Definition stable {V LA LB : Type} (D : LA -> LB -> Prop) (bB : Body V LB) : Prop :=
  forall v lA lB, D lA lB -> D lA (snd (fst (bB v lB))).

(** What holds at the end of the two loops; [same] says that they left the
    same thing behind them. *)
Definition post_ahead {LA LB : Type} (R : LA -> LB -> Prop)
    (T : Ctl -> LA -> LB -> Prop) (D : LA -> LB -> Prop) (same : Prop)
    (cA cB : Ctl) (lA : LA) (lB : LB) : Prop :=
  match cA with
  | Next => cB = Next /\ R lA lB /\ same
  | Stop => (cB = Stop /\ T Stop lA lB /\ same) \/ D lA lB
  | Halt => (cB = Halt /\ T Halt lA lB /\ same) \/ D lA lB
  | Fail e => cB = Fail e
  end.

Definition run_ahead {V LA LB : Type} (I : nat -> Prop) (R : LA -> LB -> Prop)
    (T : Ctl -> LA -> LB -> Prop) (D : LA -> LB -> Prop)
    (rA : Ctl * LA * Store V * list (Event V))
    (rB : Ctl * LB * Store V * list (Event V)) : Prop :=
  post_ahead R T D (store_agree I (snd (fst rA)) (snd (fst rB)))
    (fst (fst (fst rA))) (fst (fst (fst rB)))
    (snd (fst (fst rA))) (snd (fst (fst rB))).

Definition lift_D {KA KB LA LB : Type} (D : LA -> LB -> Prop)
  : KA * LA -> KB * LB -> Prop :=
  fun x y => D (snd x) (snd y).

Definition break_D {KA KB LA LB : Type} (D : LA -> LB -> Prop)
  : KA * bool * LA -> KB * LB -> Prop :=
  fun x y => snd (fst x) = false /\ D (snd x) (snd y).

Definition closing_RA {LA LB : Type} (R : LA -> LB -> Prop)
    (T : Ctl -> LA -> LB -> Prop) (D : LA -> LB -> Prop)
  : Phase * LA -> Phase * LB -> Prop :=
  fun x y =>
    match fst x, fst y with
    | Live, Live => R (snd x) (snd y)
    | Closing c, Live => c = Stop /\ D (snd x) (snd y)
    | Closing c, Closing c' => c = Stop /\ c' = Stop /\ T Stop (snd x) (snd y)
    | Live, Closing _ => False
    end.

Definition closing_TA {LA LB : Type} (T : Ctl -> LA -> LB -> Prop)
  : Ctl -> Phase * LA -> Phase * LB -> Prop :=
  fun c x y =>
    c = Halt /\
    match fst x, fst y with
    | Live, Live => T Halt (snd x) (snd y)
    | Closing c1, Closing c2 => c1 = Stop /\ c2 = Stop /\ T Stop (snd x) (snd y)
    | _, _ => False
    end.

Definition closing_D {KB LA LB : Type} (D : LA -> LB -> Prop)
  : Phase * LA -> KB * LB -> Prop :=
  fun x y =>
    D (snd x) (snd y) /\
    match fst x with
    | Live => True
    | Closing c => c = Stop
    end.

Scheme Sequence_ind2 := Induction for Sequence Sort Prop
  with IteratorRef_ind2 := Induction for IteratorRef Sort Prop.

(** * Properties *)

(** ** Consumers in step stay in step *)

Section Simulation.

Variable V : Type.

Lemma each_sim (L1 L2 : Type) (R : L1 -> L2 -> Prop) (T : Ctl -> L1 -> L2 -> Prop)
    (b1 : Body V L1) (b2 : Body V L2) :
  body_sim R T b1 b2 ->
  forall xs l1 l2, R l1 l2 -> loop_sim R T (each xs b1 l1) (each xs b2 l2).
Proof.
  intros Hb xs; induction xs as [|x xs IH]; intros l1 l2 HR; simpl.
  - split; [reflexivity | exact HR].
  - pose proof (Hb x l1 l2 HR) as Hx.
    destruct (b1 x l1) as [[c1 m1] e1], (b2 x l2) as [[c2 m2] e2]; simpl in Hx.
    destruct Hx as [-> Hx].
    destruct c2; try solve [split; [reflexivity | simpl; eauto]].
    specialize (IH m1 m2 Hx).
    destruct (each xs b1 m1) as [[c3 m3] e3], (each xs b2 m2) as [[c4 m4] e4].
    exact IH.
Qed.

Lemma generator_loop_sim (L1 L2 : Type) (R : L1 -> L2 -> Prop)
    (T : Ctl -> L1 -> L2 -> Prop) (b1 : Body V L1) (b2 : Body V L2) nextValue :
  body_sim R T b1 b2 ->
  forall fuel current l1 l2, R l1 l2 ->
    loop_sim R T (generator_loop fuel nextValue current b1 l1)
                 (generator_loop fuel nextValue current b2 l2).
Proof.
  intros Hb fuel; induction fuel as [|fuel IH]; intros current l1 l2 HR; simpl.
  - split; [reflexivity | simpl; auto].
  - destruct (nextValue current) as [v|].
    + pose proof (Hb v l1 l2 HR) as Hx.
      destruct (b1 v l1) as [[c1 m1] e1], (b2 v l2) as [[c2 m2] e2]; simpl in Hx.
      destruct Hx as [-> Hx].
      destruct c2; try solve [split; [reflexivity | simpl; eauto]].
      specialize (IH v m1 m2 Hx).
      destruct (generator_loop fuel nextValue v b1 m1) as [[c3 m3] e3],
               (generator_loop fuel nextValue v b2 m2) as [[c4 m4] e4].
      exact IH.
    + split; [reflexivity | exact HR].
Qed.

Lemma drain_sim (L1 L2 : Type) (R : L1 -> L2 -> Prop) (T : Ctl -> L1 -> L2 -> Prop)
    (b1 : Body V L1) (b2 : Body V L2) :
  body_sim R T b1 b2 ->
  forall xs l1 l2, R l1 l2 ->
    fst (fst (fst (drain xs b1 l1))) = fst (fst (fst (drain xs b2 l2))) /\
    snd (fst (drain xs b1 l1)) = snd (fst (drain xs b2 l2)) /\
    post_sim R T (fst (fst (fst (drain xs b1 l1))))
      (snd (fst (fst (drain xs b1 l1)))) (snd (fst (fst (drain xs b2 l2)))).
Proof.
  intros Hb xs; induction xs as [|x xs IH]; intros l1 l2 HR; simpl.
  - repeat split; exact HR.
  - pose proof (Hb x l1 l2 HR) as Hx.
    destruct (b1 x l1) as [[c1 m1] e1], (b2 x l2) as [[c2 m2] e2]; simpl in Hx.
    destruct Hx as [-> Hx].
    destruct c2; try solve [repeat split; simpl; eauto].
    specialize (IH m1 m2 Hx).
    destruct (drain xs b1 m1) as [[[c3 m3] r3] e3],
             (drain xs b2 m2) as [[[c4 m4] r4] e4].
    exact IH.
Qed.

Lemma drop_body_sim (L1 L2 : Type) (R : L1 -> L2 -> Prop)
    (T : Ctl -> L1 -> L2 -> Prop) (b1 : Body V L1) (b2 : Body V L2) n :
  body_sim R T b1 b2 ->
  body_sim (lift_R R) (lift_T T) (drop_body n b1) (drop_body n b2).
Proof.
  intros Hb v [d1 l1] [d2 l2] [Hd HR]; simpl in Hd, HR; subst d2.
  unfold drop_body. destruct (d1 >=? n).
  - pose proof (Hb v l1 l2 HR) as Hx.
    destruct (b1 v l1) as [[c1 m1] e1], (b2 v l2) as [[c2 m2] e2]; simpl in *.
    destruct Hx as [-> Hx]. split; [reflexivity|].
    destruct c2; unfold lift_R, lift_T; simpl; auto.
  - simpl. split; [reflexivity|]. split; auto.
Qed.

Lemma dropWhile_body_sim (L1 L2 : Type) (R : L1 -> L2 -> Prop)
    (T : Ctl -> L1 -> L2 -> Prop) (b1 : Body V L1) (b2 : Body V L2) p :
  body_sim R T b1 b2 ->
  body_sim (lift_R R) (lift_T T) (dropWhile_body p b1) (dropWhile_body p b2).
Proof.
  intros Hb v [[y1 i1] l1] [[y2 i2] l2] [Hd HR]; simpl in Hd, HR.
  inversion Hd; subst y2 i2; clear Hd.
  unfold dropWhile_body.
  destruct (if negb (cb_fun p v i1) then true else y1).
  - pose proof (Hb v l1 l2 HR) as Hx.
    destruct (b1 v l1) as [[c1 m1] e1], (b2 v l2) as [[c2 m2] e2]; simpl in *.
    destruct Hx as [-> Hx]. split; [reflexivity|].
    destruct c2; unfold lift_R, lift_T; simpl; auto.
  - simpl. split; [reflexivity|]. split; auto.
Qed.

Lemma filter_body_sim (L1 L2 : Type) (R : L1 -> L2 -> Prop)
    (T : Ctl -> L1 -> L2 -> Prop) (b1 : Body V L1) (b2 : Body V L2) p :
  body_sim R T b1 b2 ->
  body_sim (lift_R R) (lift_T T) (filter_body p b1) (filter_body p b2).
Proof.
  intros Hb v [d1 l1] [d2 l2] [Hd HR]; simpl in Hd, HR; subst d2.
  unfold filter_body. destruct (cb_fun p v d1).
  - pose proof (Hb v l1 l2 HR) as Hx.
    destruct (b1 v l1) as [[c1 m1] e1], (b2 v l2) as [[c2 m2] e2]; simpl in *.
    destruct Hx as [-> Hx]. split; [reflexivity|].
    destruct c2; unfold lift_R, lift_T; simpl; auto.
  - simpl. split; [reflexivity|]. split; auto.
Qed.

Lemma map_body_sim (L1 L2 : Type) (R : L1 -> L2 -> Prop)
    (T : Ctl -> L1 -> L2 -> Prop) (b1 : Body V L1) (b2 : Body V L2) f :
  body_sim R T b1 b2 ->
  body_sim (lift_R R) (lift_T T) (map_body f b1) (map_body f b2).
Proof.
  intros Hb v [d1 l1] [d2 l2] [Hd HR]; simpl in Hd, HR; subst d2.
  unfold map_body.
  pose proof (Hb (cb_fun f v d1) l1 l2 HR) as Hx.
  destruct (b1 (cb_fun f v d1) l1) as [[c1 m1] e1],
           (b2 (cb_fun f v d1) l2) as [[c2 m2] e2]; simpl in *.
  destruct Hx as [-> Hx]. split; [reflexivity|].
  destruct c2; unfold lift_R, lift_T; simpl; auto.
Qed.

Lemma take_body_sim (L1 L2 : Type) (R : L1 -> L2 -> Prop)
    (T : Ctl -> L1 -> L2 -> Prop) (b1 : Body V L1) (b2 : Body V L2) n :
  body_sim R T b1 b2 ->
  body_sim (break_R R) (break_T R T) (take_body n b1) (take_body n b2).
Proof.
  intros Hb v [[t1 k1] l1] [[t2 k2] l2] (Hd & Hk1 & Hk2 & HR); simpl in *.
  subst t2 k1 k2. unfold take_body. destruct (t1 <? n).
  - pose proof (Hb v l1 l2 HR) as Hx.
    destruct (b1 v l1) as [[c1 m1] e1], (b2 v l2) as [[c2 m2] e2]; simpl in *.
    destruct Hx as [-> Hx]. split; [reflexivity|].
    destruct c2; unfold break_R, break_T; simpl; auto.
  - simpl. split; [reflexivity|]. left. auto.
Qed.

Lemma takeWhile_body_sim (L1 L2 : Type) (R : L1 -> L2 -> Prop)
    (T : Ctl -> L1 -> L2 -> Prop) (b1 : Body V L1) (b2 : Body V L2) p :
  body_sim R T b1 b2 ->
  body_sim (break_R R) (break_T R T) (takeWhile_body p b1) (takeWhile_body p b2).
Proof.
  intros Hb v [[t1 k1] l1] [[t2 k2] l2] (Hd & Hk1 & Hk2 & HR); simpl in *.
  subst t2 k1 k2. unfold takeWhile_body. destruct (cb_fun p v t1); simpl.
  - pose proof (Hb v l1 l2 HR) as Hx.
    destruct (b1 v l1) as [[c1 m1] e1], (b2 v l2) as [[c2 m2] e2]; simpl in *.
    destruct Hx as [-> Hx]. split; [reflexivity|].
    destruct c2; unfold break_R, break_T; simpl; auto.
  - split; [reflexivity|]. left. auto.
Qed.

Lemma closing_body_sim (L1 L2 : Type) (R : L1 -> L2 -> Prop)
    (T : Ctl -> L1 -> L2 -> Prop) (b1 : Body V L1) (b2 : Body V L2) :
  body_sim R T b1 b2 ->
  body_sim (closing_R R T) (closing_T T) (closing_body b1) (closing_body b2).
Proof.
  intros Hb v [ph1 l1] [ph2 l2] [Hd HR]; simpl in Hd, HR; subst ph2.
  unfold closing_body. destruct ph1 as [|c0]; simpl in HR.
  - pose proof (Hb v l1 l2 HR) as Hx.
    destruct (b1 v l1) as [[c1 m1] e1], (b2 v l2) as [[c2 m2] e2]; simpl in *.
    destruct Hx as [-> Hx].
    destruct c2; simpl; (split; [reflexivity|]);
      unfold closing_R, closing_T; simpl; repeat split; auto; discriminate.
  - simpl. split; [reflexivity|]. unfold closing_T; simpl. auto.
Qed.

Lemma closing_post (L1 L2 : Type) (R : L1 -> L2 -> Prop)
    (T : Ctl -> L1 -> L2 -> Prop) c ph1 ph2 (m1 : L1) (m2 : L2) :
  post_sim (closing_R R T) (closing_T T) c (ph1, m1) (ph2, m2) ->
  ph1 = ph2 /\ post_sim R T (settle ph1 c) m1 m2.
Proof.
  unfold post_sim, closing_R, closing_T, closing_inv; simpl.
  destruct c; intros H.
  - destruct H as [-> H]. split; [reflexivity|].
    destruct ph2 as [|c0]; simpl; [exact H|].
    destruct H as (Hn & Hh & HT).
    destruct c0; try congruence; eauto.
  - destruct H as (H & _); discriminate.
  - destruct H as (_ & -> & H). split; [reflexivity|].
    destruct ph2 as [|c0]; simpl; [exact H|].
    destruct H as (Hn & Hh & HT).
    destruct c0; try congruence; eauto.
  - destruct H as [[-> H]|[c' (_ & -> & H)]]; (split; [reflexivity|]).
    + destruct ph2 as [|c0]; simpl; [left; exact H|].
      right. exists c0. apply H.
    + destruct ph2 as [|c0]; simpl; right; eauto.
      exists c0. apply H.
Qed.

Lemma lift_post (K L1 L2 : Type) (R : L1 -> L2 -> Prop)
    (T : Ctl -> L1 -> L2 -> Prop) c (k1 k2 : K) (m1 : L1) (m2 : L2) :
  post_sim (lift_R R) (lift_T T) c (k1, m1) (k2, m2) -> post_sim R T c m1 m2.
Proof.
  unfold post_sim, lift_R, lift_T; simpl.
  destruct c; intros H; [tauto | exact H | exact H |].
  destruct H as [[_ H]|[c' H]]; [left; exact H | right; exists c'; exact H].
Qed.

Lemma break_post (K L1 L2 : Type) (R : L1 -> L2 -> Prop)
    (T : Ctl -> L1 -> L2 -> Prop) c (k1 k2 : K) (x1 x2 : bool) (m1 : L1) (m2 : L2) :
  post_sim (break_R R) (break_T R T) c (k1, x1, m1) (k2, x2, m2) ->
  x1 = x2 /\ post_sim R T (leave x1 c) m1 m2.
Proof.
  unfold post_sim, break_R, break_T; simpl.
  destruct c; intros H.
  - destruct H as (_ & -> & -> & H); auto.
  - destruct H as [(_ & -> & -> & H)|(-> & -> & H)]; auto.
  - destruct H as [(H & _)|(-> & -> & H)]; [discriminate|auto].
  - destruct H as [(_ & -> & -> & H)|[c' [(_ & -> & -> & H)|(-> & -> & H)]]];
      simpl; eauto.
Qed.

Lemma store_agree_set_iterated (I : nat -> Prop) (st1 st2 : Store V) self :
  store_agree I st1 st2 ->
  store_agree I (set_iterated self st1) (set_iterated self st2).
Proof.
  intros [Hc Hi]; split; [exact Hc|].
  intros id Hid; unfold is_iterated, set_iterated; simpl.
  specialize (Hi id Hid); unfold is_iterated in Hi. now rewrite Hi.
Qed.

Lemma store_agree_set_cursor (I : nat -> Prop) (st1 st2 : Store V) a rest :
  store_agree I st1 st2 ->
  store_agree I (set_cursor a rest st1) (set_cursor a rest st2).
Proof.
  intros [Hc Hi]; split.
  - intros b; simpl. destruct (Nat.eqb b a); auto.
  - intros id Hid; exact (Hi id Hid).
Qed.

Ltac sim_intro :=
  intros L1 L2 I R T b1 b2 l1 l2 st1 st2 Hall Hb HR Hst.

Ltac sim_done :=
  unfold run_sim, loop_sim, post_sim in *; simpl in *; intuition eauto.

(** The central fact: two consumers in step, run on the same sequence from
    stores that agree, see the same traversal. *)
Lemma foreach_sim_both (fuel : nat) (s : Sequence V) :
  forall (L1 L2 : Type) (I : nat -> Prop) (R : L1 -> L2 -> Prop)
         (T : Ctl -> L1 -> L2 -> Prop) (b1 : Body V L1) (b2 : Body V L2)
         l1 l2 st1 st2,
    all_self I s -> body_sim R T b1 b2 -> R l1 l2 -> store_agree I st1 st2 ->
    run_sim I R T (foreach fuel s b1 l1 st1) (foreach fuel s b2 l2 st2) /\
    run_sim I R T (foreach_field fuel s b1 l1 st1) (foreach_field fuel s b2 l2 st2).
Proof.
  induction s using Sequence_ind2 with
    (P0 := fun it =>
       match it with
       | Cursor _ => True
       | GeneratorOf s' =>
           forall (L1 L2 : Type) (I : nat -> Prop) (R : L1 -> L2 -> Prop)
                  (T : Ctl -> L1 -> L2 -> Prop) (b1 : Body V L1) (b2 : Body V L2)
                  l1 l2 st1 st2,
             all_self I s' -> body_sim R T b1 b2 -> R l1 l2 ->
             store_agree I st1 st2 ->
             run_sim I R T (foreach fuel s' b1 l1 st1) (foreach fuel s' b2 l2 st2) /\
             run_sim I R T (foreach_field fuel s' b1 l1 st1)
                           (foreach_field fuel s' b2 l2 st2)
       end);
    [sim_intro | sim_intro | sim_intro | sim_intro | sim_intro | sim_intro
    | sim_intro | sim_intro | sim_intro | sim_intro | exact I | exact IHs].
  - (* BaseSequence *)
    assert (H : run_sim I R T (foreach fuel (BaseSequence _values _size) b1 l1 st1)
                              (foreach fuel (BaseSequence _values _size) b2 l2 st2)).
    { simpl. pose proof (each_sim Hb _values l1 l2 HR) as H.
      destruct (each _values b1 l1) as [[c1 m1] e1],
               (each _values b2 l2) as [[c2 m2] e2].
      sim_done. }
    split; exact H.
  - (* GeneratorSequence *)
    split; [|sim_done].
    simpl. pose proof (Hb initial l1 l2 HR) as Hx.
    destruct (b1 initial l1) as [[c1 m1] e1], (b2 initial l2) as [[c2 m2] e2].
    simpl in Hx. destruct Hx as [-> Hx].
    destruct c2; try solve [sim_done].
    pose proof (generator_loop_sim nextValue Hb fuel initial m1 m2 Hx) as H.
    destruct (generator_loop fuel nextValue initial b1 m1) as [[c3 m3] e3],
             (generator_loop fuel nextValue initial b2 m2) as [[c4 m4] e4].
    sim_done.
  - (* ConcatSequence *)
    simpl in Hall. destruct Hall as [Ha Ho].
    split; [|exact (proj1 (IHs1 _ _ I R T b1 b2 l1 l2 st1 st2 Ha Hb HR Hst))].
    pose proof (proj1 (IHs1 _ _ I R T b1 b2 l1 l2 st1 st2 Ha Hb HR Hst)) as H1.
    change (run_sim I R T
      (let '(c, m, st, es) := foreach fuel s1 b1 l1 st1 in
       match c with
       | Next => let '(c2, m2, st', es2) := foreach_field fuel s2 b1 m st in
                 (c2, m2, st', es ++ es2)
       | _ => (c, m, st, es)
       end)
      (let '(c, m, st, es) := foreach fuel s1 b2 l2 st2 in
       match c with
       | Next => let '(c2, m2, st', es2) := foreach_field fuel s2 b2 m st in
                 (c2, m2, st', es ++ es2)
       | _ => (c, m, st, es)
       end)).
    destruct (foreach fuel s1 b1 l1 st1) as [[[c1 m1] t1] e1],
             (foreach fuel s1 b2 l2 st2) as [[[c2 m2] t2] e2].
    destruct H1 as (Hc & Ht & Hp); simpl in Hc, Ht, Hp. subst c2.
    destruct c1; try solve [sim_done].
    pose proof (proj2 (IHs2 _ _ I R T b1 b2 m1 m2 t1 t2 Ho Hb Hp Ht)) as H2.
    destruct (foreach_field fuel s2 b1 m1 t1) as [[[c3 m3] t3] e3],
             (foreach_field fuel s2 b2 m2 t2) as [[[c4 m4] t4] e4].
    exact H2.
  - (* ConstrainedSequence *)
    simpl in Hall. destruct Hall as [Hself Hit].
    split; [|sim_done].
    simpl. rewrite (proj2 Hst self Hself).
    destruct (is_iterated self st2); [sim_done|].
    pose proof (store_agree_set_iterated self Hst) as Hst0.
    destruct iterator as [address|s'].
    + simpl. rewrite (proj1 Hst address).
      pose proof (drain_sim Hb (cursors st2 address) l1 l2 HR) as H.
      destruct (drain (cursors st2 address) b1 l1) as [[[c1 m1] r1] e1],
               (drain (cursors st2 address) b2 l2) as [[[c2 m2] r2] e2].
      simpl in H. destruct H as (-> & -> & Hp).
      unfold run_sim; simpl. split; [reflexivity|]. split; [|exact Hp].
      apply store_agree_set_cursor; exact Hst0.
    + pose proof (proj1 (IHs _ _ I _ _ _ _ (Live, l1) (Live, l2) _ _ Hit
                    (closing_body_sim Hb) (conj eq_refl HR) Hst0)) as H.
      destruct (foreach fuel s' (closing_body b1) (Live, l1) (set_iterated self st1))
        as [[[c1 [ph1 m1]] t1] e1],
        (foreach fuel s' (closing_body b2) (Live, l2) (set_iterated self st2))
        as [[[c2 [ph2 m2]] t2] e2].
      unfold run_sim in *; simpl in *. destruct H as (-> & Ht & Hp).
      apply closing_post in Hp. destruct Hp as [-> Hq].
      split; [reflexivity|]. split; [exact Ht | exact Hq].
  - (* DropSequence *)
    simpl in Hall.
    split; [|exact (proj1 (IHs _ _ I R T b1 b2 l1 l2 st1 st2 Hall Hb HR Hst))].
    simpl.
    pose proof (proj1 (IHs _ _ I _ _ _ _ (0, l1) (0, l2) st1 st2 Hall
                  (drop_body_sim n Hb) (conj eq_refl HR) Hst)) as H.
    destruct (foreach fuel s (drop_body n b1) (0, l1) st1) as [[[c1 [k1 m1]] t1] e1],
             (foreach fuel s (drop_body n b2) (0, l2) st2) as [[[c2 [k2 m2]] t2] e2].
    unfold run_sim in *; simpl in *. destruct H as (-> & Ht & Hp).
    apply lift_post in Hp. auto.
  - (* DropWhileSequence *)
    simpl in Hall.
    split; [|exact (proj1 (IHs _ _ I R T b1 b2 l1 l2 st1 st2 Hall Hb HR Hst))].
    simpl.
    pose proof (proj1 (IHs _ _ I _ _ _ _ (false, 0, l1) (false, 0, l2) st1 st2 Hall
                  (dropWhile_body_sim predicate Hb) (conj eq_refl HR) Hst)) as H.
    destruct (foreach fuel s (dropWhile_body predicate b1) (false, 0, l1) st1)
      as [[[c1 [[y1 k1] m1]] t1] e1],
      (foreach fuel s (dropWhile_body predicate b2) (false, 0, l2) st2)
      as [[[c2 [[y2 k2] m2]] t2] e2].
    unfold run_sim in *; simpl in *. destruct H as (-> & Ht & Hp).
    apply lift_post in Hp. auto.
  - (* FilteringSequence *)
    simpl in Hall.
    split; [|exact (proj1 (IHs _ _ I R T b1 b2 l1 l2 st1 st2 Hall Hb HR Hst))].
    simpl.
    pose proof (proj1 (IHs _ _ I _ _ _ _ (0, l1) (0, l2) st1 st2 Hall
                  (filter_body_sim predicate Hb) (conj eq_refl HR) Hst)) as H.
    destruct (foreach fuel s (filter_body predicate b1) (0, l1) st1)
      as [[[c1 [k1 m1]] t1] e1],
      (foreach fuel s (filter_body predicate b2) (0, l2) st2)
      as [[[c2 [k2 m2]] t2] e2].
    unfold run_sim in *; simpl in *. destruct H as (-> & Ht & Hp).
    apply lift_post in Hp. auto.
  - (* MapSequence *)
    simpl in Hall.
    split; [|exact (proj1 (IHs _ _ I R T b1 b2 l1 l2 st1 st2 Hall Hb HR Hst))].
    simpl.
    pose proof (proj1 (IHs _ _ I _ _ _ _ (0, l1) (0, l2) st1 st2 Hall
                  (map_body_sim transform Hb) (conj eq_refl HR) Hst)) as H.
    destruct (foreach fuel s (map_body transform b1) (0, l1) st1)
      as [[[c1 [k1 m1]] t1] e1],
      (foreach fuel s (map_body transform b2) (0, l2) st2)
      as [[[c2 [k2 m2]] t2] e2].
    unfold run_sim in *; simpl in *. destruct H as (-> & Ht & Hp).
    apply lift_post in Hp. auto.
  - (* TakeSequence *)
    simpl in Hall.
    split; [|exact (proj1 (IHs _ _ I R T b1 b2 l1 l2 st1 st2 Hall Hb HR Hst))].
    simpl.
    pose proof (proj1 (IHs _ _ I _ _ _ _ (0, false, l1) (0, false, l2) st1 st2 Hall
                  (take_body_sim n Hb)
                  (conj eq_refl (conj eq_refl (conj eq_refl HR))) Hst)) as H.
    destruct (foreach fuel s (take_body n b1) (0, false, l1) st1)
      as [[[c1 [[k1 x1] m1]] t1] e1],
      (foreach fuel s (take_body n b2) (0, false, l2) st2)
      as [[[c2 [[k2 x2] m2]] t2] e2].
    unfold run_sim in *; simpl in *. destruct H as (-> & Ht & Hp).
    apply break_post in Hp. destruct Hp as [-> Hp]. auto.
  - (* TakeWhileSequence *)
    simpl in Hall.
    split; [|exact (proj1 (IHs _ _ I R T b1 b2 l1 l2 st1 st2 Hall Hb HR Hst))].
    simpl.
    pose proof (proj1 (IHs _ _ I _ _ _ _ (0, false, l1) (0, false, l2) st1 st2 Hall
                  (takeWhile_body_sim predicate Hb)
                  (conj eq_refl (conj eq_refl (conj eq_refl HR))) Hst)) as H.
    destruct (foreach fuel s (takeWhile_body predicate b1) (0, false, l1) st1)
      as [[[c1 [[k1 x1] m1]] t1] e1],
      (foreach fuel s (takeWhile_body predicate b2) (0, false, l2) st2)
      as [[[c2 [[k2 x2] m2]] t2] e2].
    unfold run_sim in *; simpl in *. destruct H as (-> & Ht & Hp).
    apply break_post in Hp. destruct Hp as [-> Hp]. auto.
Qed.

Lemma all_self_True (s : Sequence V) : all_self (fun _ => True) s.
Proof.
  induction s using Sequence_ind2 with
    (P0 := fun it => match it with
                     | Cursor _ => True
                     | GeneratorOf s' => all_self (fun _ => True) s'
                     end); simpl; auto.
Qed.

Lemma store_agree_refl (I : nat -> Prop) (st : Store V) : store_agree I st st.
Proof. split; auto. Qed.

Lemma foreach_sim (fuel : nat) (s : Sequence V) (L1 L2 : Type) (I : nat -> Prop)
    (R : L1 -> L2 -> Prop) (T : Ctl -> L1 -> L2 -> Prop)
    (b1 : Body V L1) (b2 : Body V L2) l1 l2 st1 st2 :
  all_self I s -> body_sim R T b1 b2 -> R l1 l2 -> store_agree I st1 st2 ->
  run_sim I R T (foreach fuel s b1 l1 st1) (foreach fuel s b2 l2 st2).
Proof.
  intros Ha Hb HR Hst. eapply proj1, foreach_sim_both; eassumption.
Qed.

(** A consumer that never stops sees the traversal end by itself or fail. *)
Lemma foreach_unstopped (fuel : nat) (s : Sequence V) (L : Type) (b : Body V L)
    l st :
  (forall v m, fst (fst (b v m)) = Next) ->
  fst (fst (fst (foreach fuel s b l st))) = Next \/
  exists e, fst (fst (fst (foreach fuel s b l st))) = Fail e.
Proof.
  intros Hn.
  assert (Hb : body_sim (fun _ _ : L => True) (fun _ _ _ => False) b b).
  { intros v m1 m2 _. split.
    - now rewrite !Hn.
    - rewrite Hn. exact I. }
  assert (H : run_sim (fun _ => True) (fun _ _ : L => True) (fun _ _ _ => False)
                (foreach fuel s b l st) (foreach fuel s b l st)).
  { apply foreach_sim; auto using all_self_True, store_agree_refl. }
  destruct H as (_ & _ & H).
  destruct (fst (fst (fst (foreach fuel s b l st)))); simpl in H; eauto;
    contradiction.
Qed.

End Simulation.

(** ** The size hint *)

(** C5. For a sequence whose cached size is a known count and every [n >= 0]:
    [take(n).size()] is [min(n, count)], [drop(n).size()] is
    [max(0, count - n)], [map(f).size()] is [count]; and [filter(p).size()] is
    negative for every sequence, whatever [p] accepts. *)
Theorem size_hint_composition (V : Type) (s : Sequence V) (n count : Z) :
  size s = count -> 0 <= count -> 0 <= n ->
  size (take s n) = Z.min n count /\
  size (drop s n) = Z.max 0 (count - n) /\
  (forall f, size (map s f) = count) /\
  (forall (s' : Sequence V) p, size (filter s' p) < 0).
Proof.
  intros Hs Hc Hn. split; [|split; [|split]].
  - unfold take, new_TakeSequence; simpl. rewrite Hs.
    destruct (Z.ltb_spec count 0); [lia|].
    rewrite Z.gtb_ltb. destruct (Z.ltb_spec count n); lia.
  - unfold drop, new_DropSequence. rewrite Hs.
    destruct (Z.ltb_spec count 0); [lia|]. simpl.
    destruct (Z.ltb_spec (count - n) 0); lia.
  - intros f. unfold map, new_MapSequence; simpl. exact Hs.
  - intros s' p. simpl. lia.
Qed.

Lemma size_hint_composition_witness :
  size (of_ [10; 20; 30]) = 3 /\ 0 <= 3 /\ 0 <= 2 /\
  size (take (of_ [10; 20; 30]) 2) = Z.min 2 3 /\
  size (drop (of_ [10; 20; 30]) 2) = Z.max 0 (3 - 2) /\
  (forall f, size (map (of_ [10; 20; 30]) f) = 3) /\
  (forall (s' : Sequence Z) p, size (filter s' p) < 0).
Proof.
  split; [reflexivity|]. split; [lia|]. split; [lia|].
  apply (@size_hint_composition Z (of_ [10; 20; 30]) 2 3); first [reflexivity | lia].
Defined.

(** ** Concatenation *)

(** When the other sequence is a plain one, over an array, [concat] yields
    the values of this sequence and then the values of the array. *)
Lemma each_push (V : Type) (xs : list V) (index : Z) (acc : list V) :
  each xs (fold_body (@push_operation V)) (index, acc) =
  (Next, (index + Z.of_nat (List.length xs), acc ++ xs), List.map EPull xs).
Proof.
  revert index acc; induction xs as [|x xs IH]; intros index acc.
  - simpl. now rewrite Z.add_0_r, app_nil_r.
  - cbn [each fold_body op_fun op_event op_name push_operation].
    rewrite IH. cbn [List.length List.map app].
    rewrite <- app_assoc. cbn [app].
    replace (index + 1 + Z.of_nat (List.length xs))
      with (index + Z.of_nat (S (List.length xs))) by lia.
    reflexivity.
Qed.

Lemma concat_plain_values (V : Type) (fuel : nat) (a : Sequence V) (ys : list V)
    (sz : Z) (st st1 : Store V) (va : list V) (es1 : list (Event V)) :
  toArray fuel a st = (Return va, st1, es1) ->
  toArray fuel (concat a (BaseSequence ys sz)) st =
  (Return (va ++ ys), st1, es1 ++ List.map EPull ys).
Proof.
  unfold toArray, fold, concat, new_ConcatSequence. cbn [size].
  set (push := fold_body (@push_operation V)).
  intros H.
  assert (Hn : forall v m, fst (fst (push v m)) = Next) by (intros v [i m]; reflexivity).
  pose proof (foreach_unstopped fuel a push (0, []) st Hn) as Hc.
  assert (Hgoal : forall sz',
    complete snd (foreach fuel (ConcatSequence a (BaseSequence ys sz) sz') push (0, []) st) =
    (Return (va ++ ys), st1, es1 ++ List.map EPull ys)).
  { intros sz'. cbn [foreach].
    destruct (foreach fuel a push (0, []) st) as [[[c [i acc]] t] e].
    simpl in Hc, H.
    destruct Hc as [-> | [err ->]]; [|discriminate].
    inversion H; subst. unfold push. rewrite each_push. reflexivity. }
  destruct ((size a <? 0) || (sz <? 0)); apply Hgoal.
Qed.

(** C1. [concat] on a mapped, taken or generated other sequence does not yield
    the values of that sequence: [of(1, 2).concat(of(5, 6).map(x => x + 1))]
    yields 1, 2, 5, 6 where the other sequence yields 6, 7; after
    [of(1, 2)], [of(5, 6, 7).take(1)] contributes 5, 6, 7 and
    [generate(4, x => null)] contributes nothing. *)
Theorem concat_reads_the_field_of_other :
  let inc := mkCallback 1%nat (fun (x : Z) (_ : Z) => x + 1) in
  let st := @initial_store Z in
  result_of (toArray 8 (map (of_ [5; 6]) inc) st) = Return [6; 7] /\
  toArray 8 (concat (of_ [1; 2]) (map (of_ [5; 6]) inc)) st =
    (Return [1; 2; 5; 6], st, [EPull 1; EPull 2; EPull 5; EPull 6]) /\
  result_of (toArray 8 (take (of_ [5; 6; 7]) 1) st) = Return [5] /\
  result_of (toArray 8 (concat (of_ [1; 2]) (take (of_ [5; 6; 7]) 1)) st) =
    Return [1; 2; 5; 6; 7] /\
  result_of (toArray 8 (generate 4 (fun _ => None)) st) = Return [4] /\
  result_of (toArray 8 (concat (of_ [1; 2]) (generate 4 (fun _ => None))) st) =
    Return [1; 2].
Proof. repeat split. Qed.

(** ** Pulling from the source *)

(** What [take(n)] over an array does to it: once [n] values are yielded and
    the consumer asks again, the loop pulls the following value before it
    looks at [taken]. *)
Lemma each_take_push (V : Type) (n : Z) (xs : list V) (taken index : Z)
    (acc : list V) :
  0 <= taken <= n -> n - taken < Z.of_nat (List.length xs) ->
  each xs (take_body n (fold_body (@push_operation V)))
       (taken, false, (index, acc)) =
  (Stop, (n + 1, true, (index + (n - taken), acc ++ firstn (Z.to_nat (n - taken)) xs)),
   List.map EPull (firstn (S (Z.to_nat (n - taken))) xs)).
Proof.
  revert taken index acc; induction xs as [|x xs IH]; intros taken index acc Ht Hlen.
  - simpl in Hlen. lia.
  - cbn [each take_body]. destruct (Z.ltb_spec taken n) as [Hlt|Hge].
    + cbn [fold_body op_fun op_event op_name push_operation app].
      rewrite IH by (cbn [List.length] in Hlen; lia).
      replace (n - taken) with (Z.succ (n - (taken + 1))) by lia.
      rewrite Z2Nat.inj_succ by lia. cbn [firstn List.map].
      rewrite <- app_assoc. cbn [app].
      replace (index + 1 + (n - (taken + 1)))
        with (index + Z.succ (n - (taken + 1))) by lia.
      reflexivity.
    + assert (taken = n) by lia. subst taken.
      replace (n - n) with 0 by lia. cbn [Z.to_nat firstn List.map].
      rewrite app_nil_r, Z.add_0_r. reflexivity.
Qed.

Lemma take_over_pulls (V : Type) (fuel : nat) (xs : list V) (n : Z) (st : Store V) :
  0 <= n < Z.of_nat (List.length xs) ->
  toArray fuel (take (of_ xs) n) st =
  (Return (firstn (Z.to_nat n) xs), st, List.map EPull (firstn (S (Z.to_nat n)) xs)).
Proof.
  intros Hn. unfold toArray, fold, take, new_TakeSequence, of_. cbn [foreach].
  rewrite each_take_push by lia.
  rewrite Z.sub_0_r. reflexivity.
Qed.

(** C2. Draining [take(n)] over a source that holds more than [n] values
    pulls [n + 1] values from it: [of(10, 20, 30).take(1)] yields 10 and pulls
    10 and 20, [take(0)] yields nothing and pulls 10, and [take(1)] over a
    one-shot cursor on 10, 20, 30, 40 leaves it with 40 only. *)
Theorem take_pulls_one_value_too_many :
  let st := @initial_store Z in
  toArray 8 (take (of_ [10; 20; 30]) 1) st = (Return [10], st, [EPull 10; EPull 20]) /\
  pulls (events_of (toArray 8 (take (of_ [10; 20; 30]) 1) st)) = 2%nat /\
  toArray 8 (take (of_ [10; 20; 30]) 0) st = (Return [], st, [EPull 10]) /\
  (let st7 := set_cursor 7 [10; 20; 30; 40] st in
   let '(s, st') := from_iterator 7 st7 in
   result_of (toArray 8 (take s 1) st') = Return [10] /\
   cursors (store_of (toArray 8 (take s 1) st')) 7%nat = [40]).
Proof. repeat split. Qed.

(** ** AsyncSequence against Sequence *)

(** C3. With a predicate that returns a promise, [AsyncSequence.findIndex]
    resolves to 0 on [of(1, 2, 3)] where the item that satisfies it is at
    index 2, which is what [Sequence.findIndex] and [AsyncSequence.find]
    report; [AsyncSequence.containsAll] resolves to true for a value that the
    sequence does not contain, where [Sequence.containsAll] returns false. *)
Theorem async_findIndex_containsAll_do_not_await :
  let is3 := fun x : Z => x =? 3 in
  let st := @initial_store Z in
  Async.await (Async.findIndex (Async.of_ [1; 2; 3]) (fun x => Async.Pending (is3 x))) = 0 /\
  Async.await (Async.find (Async.of_ [1; 2; 3]) (fun x _ => Async.Pending (is3 x))) = Some 3 /\
  result_of (findIndex 8 (of_ [1; 2; 3]) 1%nat is3 st) = Return 2 /\
  Async.await (Async.containsAll Z.eqb (Async.of_ [1; 2]) [5]) = true /\
  Async.await (Async.contains Z.eqb (Async.of_ [1; 2]) 5) = false /\
  result_of (containsAll Z.eqb 8 (of_ [1; 2]) [5] st) = Return false.
Proof. repeat split. Qed.

(** Whatever the predicate promises, [findIndex] stops at the first item, and
    [containsAll] never reports a missing value. *)
Lemma async_findIndex_first_item (V : Type) (item : V) (rest : list V)
    (promised : V -> bool) :
  Async.await
    (Async.findIndex (Async.mkAsyncSequence (item :: rest) (-1))
       (fun x => Async.Pending (promised x))) = 0.
Proof. reflexivity. Qed.

Lemma async_containsAll_always_true (V : Type) (same : V -> V -> bool)
    (this : Async.AsyncSequence V) (values : list V) :
  Async.containsAll same this values = Async.Pending true.
Proof.
  unfold Async.containsAll. f_equal.
  induction values as [|v values IH]; [reflexivity|]. exact IH.
Qed.

(** ** A consumer that stops ahead of another: the traversal *)

Section Ahead.

Variable V : Type.

Lemma each_inv (L : Type) (P : L -> Prop) (b : Body V L) :
  (forall v l, P l -> P (snd (fst (b v l)))) ->
  forall xs l, P l -> P (snd (fst (each xs b l))).
Proof.
  intros Hb xs; induction xs as [|x xs IH]; intros l Hl; simpl; [exact Hl|].
  pose proof (Hb x l Hl) as Hx.
  destruct (b x l) as [[c m] e]; simpl in Hx.
  destruct c; simpl; auto.
  specialize (IH m Hx). destruct (each xs b m) as [[c2 m2] e2]. exact IH.
Qed.

Lemma generator_loop_inv (L : Type) (P : L -> Prop) (b : Body V L) nextValue :
  (forall v l, P l -> P (snd (fst (b v l)))) ->
  forall fuel current l, P l ->
    P (snd (fst (generator_loop fuel nextValue current b l))).
Proof.
  intros Hb fuel; induction fuel as [|fuel IH]; intros current l Hl; simpl;
    [exact Hl|].
  destruct (nextValue current) as [v|]; simpl; [|exact Hl].
  pose proof (Hb v l Hl) as Hx.
  destruct (b v l) as [[c m] e]; simpl in Hx.
  destruct c; simpl; auto.
  specialize (IH v m Hx).
  destruct (generator_loop fuel nextValue v b m) as [[c2 m2] e2]. exact IH.
Qed.

Lemma drain_inv (L : Type) (P : L -> Prop) (b : Body V L) :
  (forall v l, P l -> P (snd (fst (b v l)))) ->
  forall xs l, P l -> P (snd (fst (fst (drain xs b l)))).
Proof.
  intros Hb xs; induction xs as [|x xs IH]; intros l Hl; simpl; [exact Hl|].
  pose proof (Hb x l Hl) as Hx.
  destruct (b x l) as [[c m] e]; simpl in Hx.
  destruct c; simpl; auto.
  specialize (IH m Hx). destruct (drain xs b m) as [[[c2 m2] r2] e2]. exact IH.
Qed.

(** Whatever a consumer keeps true, a traversal keeps true. *)
Lemma foreach_inv (fuel : nat) (s : Sequence V) (L : Type) (P : L -> Prop)
    (b : Body V L) l st :
  (forall v m, P m -> P (snd (fst (b v m)))) -> P l ->
  P (snd (fst (fst (foreach fuel s b l st)))) /\
  P (snd (fst (fst (foreach_field fuel s b l st)))).
Proof.
  intros Hb Hl.
  assert (Hs : body_sim (fun m1 m2 : L => m1 = m2 /\ P m1)
                        (fun _ m1 _ => P m1) b b).
  { intros v m1 m2 [<- Hm]. split; [reflexivity|].
    specialize (Hb v m1 Hm). destruct (b v m1) as [[c m] e]; simpl in *.
    destruct c; auto. }
  destruct (@foreach_sim_both V fuel s L L (fun _ => True) _ _ b b l l st st
              (all_self_True s) Hs (conj eq_refl Hl) (store_agree_refl _ st))
    as [H1 H2].
  destruct H1 as (_ & _ & H1), H2 as (_ & _ & H2).
  split.
  - destruct (fst (fst (fst (foreach fuel s b l st)))); simpl in H1;
      try tauto. destruct H1 as [[_ H]|[c' H]]; auto.
  - destruct (fst (fst (fst (foreach_field fuel s b l st)))); simpl in H2;
      try tauto. destruct H2 as [[_ H]|[c' H]]; auto.
Qed.

Lemma each_ahead (LA LB : Type) (R : LA -> LB -> Prop)
    (T : Ctl -> LA -> LB -> Prop) (D : LA -> LB -> Prop)
    (bA : Body V LA) (bB : Body V LB) :
  body_ahead R T D bA bB -> stable D bB ->
  forall xs lA lB, R lA lB ->
    post_ahead R T D True
      (fst (fst (each xs bA lA))) (fst (fst (each xs bB lB)))
      (snd (fst (each xs bA lA))) (snd (fst (each xs bB lB))).
Proof.
  intros Hb Hs xs; induction xs as [|x xs IH]; intros lA lB HR; simpl; [auto|].
  pose proof (Hb x lA lB HR) as Hx.
  pose proof (fun m (H : D m (snd (fst (bB x lB)))) =>
                each_inv (D m) bB (fun v l Hl => Hs v m l Hl) xs _ H) as Hrest.
  destruct (bA x lA) as [[cA mA] eA], (bB x lB) as [[cB mB] eB]; simpl in Hx, Hrest.
  destruct cA; simpl.
  - destruct Hx as [-> Hx]. specialize (IH mA mB Hx).
    destruct (each xs bA mA) as [[c3 m3] e3], (each xs bB mB) as [[c4 m4] e4].
    exact IH.
  - destruct Hx as [[-> Hx]|[-> Hx]]; simpl; [auto|].
    right. specialize (Hrest mA Hx).
    destruct (each xs bB mB) as [[c4 m4] e4]. exact Hrest.
  - destruct Hx as [[-> Hx]|Hx]; simpl; [auto|].
    right. specialize (Hrest mA Hx).
    destruct cB; simpl; auto.
    destruct (each xs bB mB) as [[c4 m4] e4]. exact Hrest.
  - contradiction.
Qed.

Lemma generator_loop_ahead (LA LB : Type) (R : LA -> LB -> Prop)
    (T : Ctl -> LA -> LB -> Prop) (D : LA -> LB -> Prop)
    (bA : Body V LA) (bB : Body V LB) nextValue :
  body_ahead R T D bA bB -> stable D bB ->
  forall fuel current lA lB, R lA lB ->
    post_ahead R T D True
      (fst (fst (generator_loop fuel nextValue current bA lA)))
      (fst (fst (generator_loop fuel nextValue current bB lB)))
      (snd (fst (generator_loop fuel nextValue current bA lA)))
      (snd (fst (generator_loop fuel nextValue current bB lB))).
Proof.
  intros Hb Hs fuel; induction fuel as [|fuel IH]; intros current lA lB HR;
    simpl; [reflexivity|].
  destruct (nextValue current) as [v|]; simpl; [|auto].
  pose proof (Hb v lA lB HR) as Hx.
  pose proof (fun m (H : D m (snd (fst (bB v lB)))) =>
                generator_loop_inv (D m) bB nextValue
                  (fun v l Hl => Hs v m l Hl) fuel v _ H) as Hrest.
  destruct (bA v lA) as [[cA mA] eA], (bB v lB) as [[cB mB] eB]; simpl in Hx, Hrest.
  destruct cA; simpl.
  - destruct Hx as [-> Hx]. specialize (IH v mA mB Hx).
    destruct (generator_loop fuel nextValue v bA mA) as [[c3 m3] e3],
             (generator_loop fuel nextValue v bB mB) as [[c4 m4] e4].
    exact IH.
  - destruct Hx as [[-> Hx]|[-> Hx]]; simpl; [auto|].
    right. specialize (Hrest mA Hx).
    destruct (generator_loop fuel nextValue v bB mB) as [[c4 m4] e4]. exact Hrest.
  - destruct Hx as [[-> Hx]|Hx]; simpl; [auto|].
    right. specialize (Hrest mA Hx).
    destruct cB; simpl; auto.
    destruct (generator_loop fuel nextValue v bB mB) as [[c4 m4] e4]. exact Hrest.
  - contradiction.
Qed.

Lemma drain_ahead (LA LB : Type) (R : LA -> LB -> Prop)
    (T : Ctl -> LA -> LB -> Prop) (D : LA -> LB -> Prop)
    (bA : Body V LA) (bB : Body V LB) :
  body_ahead R T D bA bB -> stable D bB ->
  forall xs lA lB, R lA lB ->
    post_ahead R T D
      (snd (fst (drain xs bA lA)) = snd (fst (drain xs bB lB)))
      (fst (fst (fst (drain xs bA lA)))) (fst (fst (fst (drain xs bB lB))))
      (snd (fst (fst (drain xs bA lA)))) (snd (fst (fst (drain xs bB lB)))).
Proof.
  intros Hb Hs xs; induction xs as [|x xs IH]; intros lA lB HR; simpl; [auto|].
  pose proof (Hb x lA lB HR) as Hx.
  pose proof (fun m (H : D m (snd (fst (bB x lB)))) =>
                drain_inv (D m) bB (fun v l Hl => Hs v m l Hl) xs _ H) as Hrest.
  destruct (bA x lA) as [[cA mA] eA], (bB x lB) as [[cB mB] eB]; simpl in Hx, Hrest.
  destruct cA; simpl.
  - destruct Hx as [-> Hx]. specialize (IH mA mB Hx).
    destruct (drain xs bA mA) as [[[c3 m3] r3] e3],
             (drain xs bB mB) as [[[c4 m4] r4] e4].
    exact IH.
  - destruct Hx as [[-> Hx]|[-> Hx]]; simpl; [auto|].
    right. specialize (Hrest mA Hx).
    destruct (drain xs bB mB) as [[[c4 m4] r4] e4]. exact Hrest.
  - destruct Hx as [[-> Hx]|Hx]; simpl; [auto|].
    right. specialize (Hrest mA Hx).
    destruct cB; simpl; auto.
    destruct (drain xs bB mB) as [[[c4 m4] r4] e4]. exact Hrest.
  - contradiction.
Qed.

Ltac ahead_cases Hx :=
  match type of Hx with
  | match ?c with _ => _ end =>
      destruct c; simpl;
      [ destruct Hx as [-> Hx]; split; [reflexivity|]
      | destruct Hx as [[-> Hx]|[-> Hx]]; [left; split; [reflexivity|] | right; split; [reflexivity|]]
      | destruct Hx as [[-> Hx]|Hx]; [left; split; [reflexivity|] | right]
      | contradiction ]
  end.

Lemma drop_body_ahead (LA LB : Type) (R : LA -> LB -> Prop)
    (T : Ctl -> LA -> LB -> Prop) (D : LA -> LB -> Prop)
    (bA : Body V LA) (bB : Body V LB) n :
  body_ahead R T D bA bB ->
  body_ahead (lift_R R) (lift_T T) (lift_D D) (drop_body n bA) (drop_body n bB).
Proof.
  intros Hb v [d1 lA] [d2 lB] [Hd HR]; simpl in Hd, HR; subst d2.
  unfold drop_body. destruct (d1 >=? n); [|simpl; repeat split; auto].
  pose proof (Hb v lA lB HR) as Hx.
  destruct (bA v lA) as [[cA mA] eA], (bB v lB) as [[cB mB] eB]; simpl in Hx |- *.
  ahead_cases Hx; unfold lift_R, lift_T, lift_D; simpl; auto.
Qed.

Lemma dropWhile_body_ahead (LA LB : Type) (R : LA -> LB -> Prop)
    (T : Ctl -> LA -> LB -> Prop) (D : LA -> LB -> Prop)
    (bA : Body V LA) (bB : Body V LB) p :
  body_ahead R T D bA bB ->
  body_ahead (lift_R R) (lift_T T) (lift_D D)
    (dropWhile_body p bA) (dropWhile_body p bB).
Proof.
  intros Hb v [[y1 i1] lA] [[y2 i2] lB] [Hd HR]; simpl in Hd, HR.
  inversion Hd; subst y2 i2; clear Hd.
  unfold dropWhile_body.
  destruct (if negb (cb_fun p v i1) then true else y1);
    [|simpl; repeat split; auto].
  pose proof (Hb v lA lB HR) as Hx.
  destruct (bA v lA) as [[cA mA] eA], (bB v lB) as [[cB mB] eB]; simpl in Hx |- *.
  ahead_cases Hx; unfold lift_R, lift_T, lift_D; simpl; auto.
Qed.

Lemma filter_body_ahead (LA LB : Type) (R : LA -> LB -> Prop)
    (T : Ctl -> LA -> LB -> Prop) (D : LA -> LB -> Prop)
    (bA : Body V LA) (bB : Body V LB) p :
  body_ahead R T D bA bB ->
  body_ahead (lift_R R) (lift_T T) (lift_D D) (filter_body p bA) (filter_body p bB).
Proof.
  intros Hb v [d1 lA] [d2 lB] [Hd HR]; simpl in Hd, HR; subst d2.
  unfold filter_body. destruct (cb_fun p v d1); [|simpl; repeat split; auto].
  pose proof (Hb v lA lB HR) as Hx.
  destruct (bA v lA) as [[cA mA] eA], (bB v lB) as [[cB mB] eB]; simpl in Hx |- *.
  ahead_cases Hx; unfold lift_R, lift_T, lift_D; simpl; auto.
Qed.

Lemma map_body_ahead (LA LB : Type) (R : LA -> LB -> Prop)
    (T : Ctl -> LA -> LB -> Prop) (D : LA -> LB -> Prop)
    (bA : Body V LA) (bB : Body V LB) f :
  body_ahead R T D bA bB ->
  body_ahead (lift_R R) (lift_T T) (lift_D D) (map_body f bA) (map_body f bB).
Proof.
  intros Hb v [d1 lA] [d2 lB] [Hd HR]; simpl in Hd, HR; subst d2.
  unfold map_body.
  pose proof (Hb (cb_fun f v d1) lA lB HR) as Hx.
  destruct (bA (cb_fun f v d1) lA) as [[cA mA] eA],
           (bB (cb_fun f v d1) lB) as [[cB mB] eB]; simpl in Hx |- *.
  ahead_cases Hx; unfold lift_R, lift_T, lift_D; simpl; auto.
Qed.

Lemma take_body_ahead (LA LB : Type) (R : LA -> LB -> Prop)
    (T : Ctl -> LA -> LB -> Prop) (D : LA -> LB -> Prop)
    (bA : Body V LA) (bB : Body V LB) n :
  body_ahead R T D bA bB ->
  body_ahead (break_R R) (break_T R T) (break_D D) (take_body n bA) (take_body n bB).
Proof.
  intros Hb v [[t1 k1] lA] [[t2 k2] lB] (Hd & Hk1 & Hk2 & HR); simpl in *.
  subst t2 k1 k2. unfold take_body.
  destruct (t1 <? n); [|simpl; left; split; [reflexivity|]; left; auto].
  pose proof (Hb v lA lB HR) as Hx.
  destruct (bA v lA) as [[cA mA] eA], (bB v lB) as [[cB mB] eB]; simpl in Hx |- *.
  ahead_cases Hx; unfold break_R, break_T, break_D; simpl; auto.
Qed.

Lemma takeWhile_body_ahead (LA LB : Type) (R : LA -> LB -> Prop)
    (T : Ctl -> LA -> LB -> Prop) (D : LA -> LB -> Prop)
    (bA : Body V LA) (bB : Body V LB) p :
  body_ahead R T D bA bB ->
  body_ahead (break_R R) (break_T R T) (break_D D)
    (takeWhile_body p bA) (takeWhile_body p bB).
Proof.
  intros Hb v [[t1 k1] lA] [[t2 k2] lB] (Hd & Hk1 & Hk2 & HR); simpl in *.
  subst t2 k1 k2. unfold takeWhile_body.
  destruct (cb_fun p v t1); simpl;
    [|left; split; [reflexivity|]; left; auto].
  pose proof (Hb v lA lB HR) as Hx.
  destruct (bA v lA) as [[cA mA] eA], (bB v lB) as [[cB mB] eB]; simpl in Hx |- *.
  ahead_cases Hx; unfold break_R, break_T, break_D; simpl; auto.
Qed.

Lemma closing_body_ahead (LA LB : Type) (R : LA -> LB -> Prop)
    (T : Ctl -> LA -> LB -> Prop) (D : LA -> LB -> Prop)
    (bA : Body V LA) (bB : Body V LB) :
  body_ahead R T D bA bB -> stable D bB ->
  body_ahead (closing_RA R T D) (closing_TA T) (closing_D D)
    (closing_body bA) (closing_body bB).
Proof.
  intros Hb Hs v [phA lA] [phB lB] HR.
  unfold closing_RA in HR; simpl in HR. unfold closing_body.
  destruct phA as [|cA0], phB as [|cB0]; try contradiction.
  - pose proof (Hb v lA lB HR) as Hx.
    destruct (bA v lA) as [[cA mA] eA], (bB v lB) as [[cB mB] eB]; simpl in Hx |- *.
    destruct cA; simpl.
    + destruct Hx as [-> Hx]. simpl. split; [reflexivity|exact Hx].
    + destruct Hx as [[-> Hx]|[-> Hx]]; simpl; (split; [reflexivity|]);
        unfold closing_RA; simpl; auto.
    + destruct Hx as [[-> Hx]|Hx]; simpl.
      * left. split; [reflexivity|]. unfold closing_TA; simpl; auto.
      * right. unfold closing_D; simpl. split; [|exact I].
        destruct cB; simpl; exact Hx.
    + contradiction.
  - destruct HR as [-> HD]. simpl. right. unfold closing_D; simpl.
    split; [|reflexivity].
    pose proof (Hs v lA lB HD) as Hx.
    destruct (bB v lB) as [[cB mB] eB]; simpl in Hx |- *.
    destruct cB; simpl; exact Hx.
  - destruct HR as (-> & -> & HT). simpl. left. split; [reflexivity|].
    unfold closing_TA; simpl; auto.
Qed.

Lemma lift_stable (KA KB LA LB : Type) (D : LA -> LB -> Prop)
    (bB : Body V LB) (wB : Body V (KB * LB)) :
  stable D bB ->
  (forall v k l, snd (snd (fst (wB v (k, l)))) = l \/
                 exists v', snd (snd (fst (wB v (k, l)))) = snd (fst (bB v' l))) ->
  stable (@lift_D KA KB LA LB D) wB.
Proof.
  intros Hs Hw v [kA lA] [kB lB] HD. unfold lift_D in *; simpl in *.
  destruct (Hw v kB lB) as [->|[v' ->]]; [exact HD|]. apply Hs; exact HD.
Qed.

Lemma break_stable (KA KB LA LB : Type) (D : LA -> LB -> Prop)
    (bB : Body V LB) (wB : Body V (KB * LB)) :
  stable D bB ->
  (forall v k l, snd (snd (fst (wB v (k, l)))) = l \/
                 exists v', snd (snd (fst (wB v (k, l)))) = snd (fst (bB v' l))) ->
  stable (@break_D KA KB LA LB D) wB.
Proof.
  intros Hs Hw v [[kA xA] lA] [kB lB] [Hx HD]. unfold break_D in *; simpl in *.
  split; [exact Hx|].
  destruct (Hw v kB lB) as [->|[v' ->]]; [exact HD|]. apply Hs; exact HD.
Qed.

Lemma closing_stable (KB LA LB : Type) (D : LA -> LB -> Prop)
    (bB : Body V LB) (wB : Body V (KB * LB)) :
  stable D bB ->
  (forall v k l, snd (snd (fst (wB v (k, l)))) = l \/
                 exists v', snd (snd (fst (wB v (k, l)))) = snd (fst (bB v' l))) ->
  stable (@closing_D KB LA LB D) wB.
Proof.
  intros Hs Hw v [phA lA] [kB lB] [HD Hx]. unfold closing_D in *; simpl in *.
  split; [|exact Hx].
  destruct (Hw v kB lB) as [->|[v' ->]]; [exact HD|]. apply Hs; exact HD.
Qed.

Ltac keeps b :=
  intros v k l; repeat match goal with k : (_ * _)%type |- _ => destruct k end;
  cbv beta delta [drop_body dropWhile_body filter_body map_body take_body
                  takeWhile_body closing_body] iota;
  repeat match goal with
         | |- context [if ?c then _ else _] => destruct c
         | |- context [match ?p with Live => _ | Closing _ => _ end] => destruct p
         end;
  simpl; auto;
  match goal with
  | |- context [b ?x l] =>
      right; exists x; destruct (b x l) as [[c m] e]; destruct c; reflexivity
  end.

Lemma drop_body_keeps (L : Type) (b : Body V L) n v k l :
  snd (snd (fst (drop_body n b v (k, l)))) = l \/
  exists v', snd (snd (fst (drop_body n b v (k, l)))) = snd (fst (b v' l)).
Proof. revert v k l. keeps b. Qed.

Lemma dropWhile_body_keeps (L : Type) (b : Body V L) p v k l :
  snd (snd (fst (dropWhile_body p b v (k, l)))) = l \/
  exists v', snd (snd (fst (dropWhile_body p b v (k, l)))) = snd (fst (b v' l)).
Proof.
  destruct k as [y i]. unfold dropWhile_body.
  destruct (cb_fun p v i), y; simpl; auto;
    right; exists v; destruct (b v l) as [[c m] e]; reflexivity.
Qed.

Lemma filter_body_keeps (L : Type) (b : Body V L) p v k l :
  snd (snd (fst (filter_body p b v (k, l)))) = l \/
  exists v', snd (snd (fst (filter_body p b v (k, l)))) = snd (fst (b v' l)).
Proof. revert v k l. keeps b. Qed.

Lemma map_body_keeps (L : Type) (b : Body V L) f v k l :
  snd (snd (fst (map_body f b v (k, l)))) = l \/
  exists v', snd (snd (fst (map_body f b v (k, l)))) = snd (fst (b v' l)).
Proof. revert v k l. keeps b. Qed.

Lemma take_body_keeps (L : Type) (b : Body V L) n v k l :
  snd (snd (fst (take_body n b v (k, l)))) = l \/
  exists v', snd (snd (fst (take_body n b v (k, l)))) = snd (fst (b v' l)).
Proof. revert v k l. keeps b. Qed.

Lemma takeWhile_body_keeps (L : Type) (b : Body V L) p v k l :
  snd (snd (fst (takeWhile_body p b v (k, l)))) = l \/
  exists v', snd (snd (fst (takeWhile_body p b v (k, l)))) = snd (fst (b v' l)).
Proof. revert v k l. keeps b. Qed.

Lemma closing_body_keeps (L : Type) (b : Body V L) v k l :
  snd (snd (fst (closing_body b v (k, l)))) = l \/
  exists v', snd (snd (fst (closing_body b v (k, l)))) = snd (fst (b v' l)).
Proof. revert v k l. keeps b. Qed.

Lemma lift_post_ahead (KA LA LB : Type) (R : LA -> LB -> Prop)
    (T : Ctl -> LA -> LB -> Prop) (D : LA -> LB -> Prop) (same : Prop)
    cA cB (kA : KA) (kB : KA) (mA : LA) (mB : LB) :
  post_ahead (lift_R R) (lift_T T) (@lift_D KA KA LA LB D) same cA cB (kA, mA) (kB, mB) ->
  post_ahead R T D same cA cB mA mB.
Proof.
  unfold post_ahead, lift_R, lift_T, lift_D; simpl.
  destruct cA; intros H; intuition.
Qed.

Lemma break_post_ahead (K LA LB : Type) (R : LA -> LB -> Prop)
    (T : Ctl -> LA -> LB -> Prop) (D : LA -> LB -> Prop) (same : Prop)
    cA cB (kA kB : K) (xA xB : bool) (mA : LA) (mB : LB) :
  post_ahead (break_R R) (break_T R T) (@break_D K (K * bool) LA LB D) same
    cA cB (kA, xA, mA) (kB, xB, mB) ->
  post_ahead R T D same (leave xA cA) (leave xB cB) mA mB.
Proof.
  unfold post_ahead, break_R, break_T, break_D; simpl.
  destruct cA; intros H.
  - destruct H as (-> & (_ & -> & -> & H) & Hs); simpl; auto.
  - destruct H as [(-> & [(_ & -> & -> & H)|(-> & -> & H)] & Hs)|(-> & H)];
      simpl; auto.
  - destruct H as [(-> & [(H & _)|(-> & -> & H)] & Hs)|(-> & H)];
      simpl; auto; discriminate.
  - subst cB. simpl. reflexivity.
Qed.

Lemma closing_post_ahead (LA LB : Type) (R : LA -> LB -> Prop)
    (T : Ctl -> LA -> LB -> Prop) (D : LA -> LB -> Prop) (same : Prop)
    cA cB phA phB (mA : LA) (mB : LB) :
  post_ahead (closing_RA R T D) (closing_TA T) (@closing_D Phase LA LB D) same
    cA cB (phA, mA) (phB, mB) ->
  post_ahead R T D same (settle phA cA) (settle phB cB) mA mB.
Proof.
  unfold post_ahead, closing_RA, closing_TA, closing_D; simpl.
  destruct cA; intros H.
  - destruct H as (-> & H & Hs).
    destruct phA as [|a], phB as [|b]; simpl; try contradiction; auto.
    + destruct H as [-> H]. simpl. auto.
    + destruct H as (-> & -> & H). simpl. auto.
  - destruct H as [(_ & (H & _) & _)|[H Hp]]; [discriminate|].
    destruct phA as [|a]; simpl; auto. subst a. simpl. auto.
  - destruct H as [(-> & (_ & H) & Hs)|[H Hp]].
    + destruct phA as [|a], phB as [|b]; simpl; try contradiction; auto.
      destruct H as (-> & -> & H). simpl. auto.
    + destruct phA as [|a]; simpl; auto. subst a. simpl. auto.
  - subst cB. destruct phA, phB; reflexivity.
Qed.

Lemma post_ahead_mono (LA LB : Type) (R : LA -> LB -> Prop)
    (T : Ctl -> LA -> LB -> Prop) (D : LA -> LB -> Prop) (same same' : Prop)
    cA cB (mA : LA) (mB : LB) :
  (same -> same') ->
  post_ahead R T D same cA cB mA mB -> post_ahead R T D same' cA cB mA mB.
Proof.
  unfold post_ahead. intros Hs. destruct cA; intuition.
Qed.

Ltac ahead_intro :=
  intros LA LB I R T D bA bB lA lB stA stB Hall Hb Hs HR Hst.

(** The traversal under a consumer that stops ahead of another. *)
Lemma foreach_ahead_both (fuel : nat) (s : Sequence V) :
  forall (LA LB : Type) (I : nat -> Prop) (R : LA -> LB -> Prop)
         (T : Ctl -> LA -> LB -> Prop) (D : LA -> LB -> Prop)
         (bA : Body V LA) (bB : Body V LB) lA lB stA stB,
    all_self I s -> body_ahead R T D bA bB -> stable D bB -> R lA lB ->
    store_agree I stA stB ->
    run_ahead I R T D (foreach fuel s bA lA stA) (foreach fuel s bB lB stB) /\
    run_ahead I R T D (foreach_field fuel s bA lA stA)
                      (foreach_field fuel s bB lB stB).
Proof.
  induction s using Sequence_ind2 with
    (P0 := fun it =>
       match it with
       | Cursor _ => True
       | GeneratorOf s' =>
           forall (LA LB : Type) (I : nat -> Prop) (R : LA -> LB -> Prop)
                  (T : Ctl -> LA -> LB -> Prop) (D : LA -> LB -> Prop)
                  (bA : Body V LA) (bB : Body V LB) lA lB stA stB,
             all_self I s' -> body_ahead R T D bA bB -> stable D bB -> R lA lB ->
             store_agree I stA stB ->
             run_ahead I R T D (foreach fuel s' bA lA stA)
                               (foreach fuel s' bB lB stB) /\
             run_ahead I R T D (foreach_field fuel s' bA lA stA)
                               (foreach_field fuel s' bB lB stB)
       end);
    [ahead_intro | ahead_intro | ahead_intro | ahead_intro | ahead_intro
    | ahead_intro | ahead_intro | ahead_intro | ahead_intro | ahead_intro
    | exact I | exact IHs].
  - (* BaseSequence *)
    assert (H : run_ahead I R T D
                  (foreach fuel (BaseSequence _values _size) bA lA stA)
                  (foreach fuel (BaseSequence _values _size) bB lB stB)).
    { simpl. pose proof (each_ahead Hb Hs _values lA lB HR) as H.
      destruct (each _values bA lA) as [[c1 m1] e1],
               (each _values bB lB) as [[c2 m2] e2].
      unfold run_ahead; simpl in *.
      eapply post_ahead_mono; [|exact H]. intros _; exact Hst. }
    split; exact H.
  - (* GeneratorSequence *)
    split; [|unfold run_ahead; simpl; auto].
    simpl. pose proof (Hb initial lA lB HR) as Hx.
    pose proof (fun m (H : D m (snd (fst (bB initial lB)))) =>
                  generator_loop_inv (D m) bB nextValue
                    (fun v l Hl => Hs v m l Hl) fuel initial _ H) as Hrest.
    destruct (bA initial lA) as [[cA mA] eA], (bB initial lB) as [[cB mB] eB];
      simpl in Hx, Hrest.
    destruct cA; unfold run_ahead; simpl.
    + destruct Hx as [-> Hx].
      pose proof (generator_loop_ahead nextValue Hb Hs fuel initial mA mB Hx) as H.
      destruct (generator_loop fuel nextValue initial bA mA) as [[c3 m3] e3],
               (generator_loop fuel nextValue initial bB mB) as [[c4 m4] e4].
      simpl in *. eapply post_ahead_mono; [|exact H]. intros _; exact Hst.
    + destruct Hx as [[-> Hx]|[-> Hx]]; simpl; [auto|].
      right. specialize (Hrest mA Hx).
      destruct (generator_loop fuel nextValue initial bB mB) as [[c4 m4] e4].
      exact Hrest.
    + destruct Hx as [[-> Hx]|Hx]; simpl; [auto|].
      right. specialize (Hrest mA Hx).
      destruct cB; simpl; auto.
      destruct (generator_loop fuel nextValue initial bB mB) as [[c4 m4] e4].
      exact Hrest.
    + contradiction.
  - (* ConcatSequence *)
    simpl in Hall. destruct Hall as [Ha Ho].
    split; [|exact (proj1 (IHs1 _ _ I R T D bA bB lA lB stA stB Ha Hb Hs HR Hst))].
    pose proof (proj1 (IHs1 _ _ I R T D bA bB lA lB stA stB Ha Hb Hs HR Hst)) as H1.
    change (run_ahead I R T D
      (let '(c, m, st, es) := foreach fuel s1 bA lA stA in
       match c with
       | Next => let '(c2, m2, st', es2) := foreach_field fuel s2 bA m st in
                 (c2, m2, st', es ++ es2)
       | _ => (c, m, st, es)
       end)
      (let '(c, m, st, es) := foreach fuel s1 bB lB stB in
       match c with
       | Next => let '(c2, m2, st', es2) := foreach_field fuel s2 bB m st in
                 (c2, m2, st', es ++ es2)
       | _ => (c, m, st, es)
       end)).
    destruct (foreach fuel s1 bA lA stA) as [[[cA mA] tA] eA],
             (foreach fuel s1 bB lB stB) as [[[cB mB] tB] eB].
    unfold run_ahead in H1; simpl in H1.
    pose proof (fun (H : D mA mB) =>
                  proj2 (foreach_inv fuel s2 (D mA) bB mB tB
                           (fun v l Hl => Hs v mA l Hl) H)) as Hrest.
    destruct cA; unfold post_ahead in H1.
    + destruct H1 as (-> & HR1 & Hst1).
      pose proof (proj2 (IHs2 _ _ I R T D bA bB mA mB tA tB Ho Hb Hs HR1 Hst1)) as H2.
      destruct (foreach_field fuel s2 bA mA tA) as [[[c3 m3] t3] e3],
               (foreach_field fuel s2 bB mB tB) as [[[c4 m4] t4] e4].
      exact H2.
    + destruct H1 as [(-> & H1)|H1]; unfold run_ahead; simpl; [auto|].
      right. destruct cB; simpl; auto. specialize (Hrest H1).
      destruct (foreach_field fuel s2 bB mB tB) as [[[c4 m4] t4] e4]. exact Hrest.
    + destruct H1 as [(-> & H1)|H1]; unfold run_ahead; simpl; [auto|].
      right. destruct cB; simpl; auto. specialize (Hrest H1).
      destruct (foreach_field fuel s2 bB mB tB) as [[[c4 m4] t4] e4]. exact Hrest.
    + subst cB. unfold run_ahead; simpl. reflexivity.
  - (* ConstrainedSequence *)
    simpl in Hall. destruct Hall as [Hself Hit].
    split; [|unfold run_ahead; simpl; auto].
    simpl. rewrite (proj2 Hst self Hself).
    destruct (is_iterated self stB); [unfold run_ahead; simpl; reflexivity|].
    pose proof (store_agree_set_iterated self Hst) as Hst0.
    destruct iterator as [address|s'].
    + simpl. rewrite (proj1 Hst address).
      pose proof (drain_ahead Hb Hs (cursors stB address) lA lB HR) as H.
      destruct (drain (cursors stB address) bA lA) as [[[c1 m1] r1] e1],
               (drain (cursors stB address) bB lB) as [[[c2 m2] r2] e2].
      unfold run_ahead; simpl in *.
      eapply post_ahead_mono; [|exact H].
      intros ->. apply store_agree_set_cursor; exact Hst0.
    + assert (HR0 : closing_RA R T D (Live, lA) (Live, lB)) by exact HR.
      pose proof (proj1 (IHs _ _ I _ _ _ _ _ (Live, lA) (Live, lB) _ _ Hit
                    (closing_body_ahead Hb Hs)
                    (closing_stable (closing_body bB) Hs (closing_body_keeps bB))
                    HR0 Hst0)) as H.
      destruct (foreach fuel s' (closing_body bA) (Live, lA) (set_iterated self stA))
        as [[[c1 [ph1 m1]] t1] e1],
        (foreach fuel s' (closing_body bB) (Live, lB) (set_iterated self stB))
        as [[[c2 [ph2 m2]] t2] e2].
      unfold run_ahead in *; simpl in *.
      apply closing_post_ahead in H. exact H.
  - (* DropSequence *)
    simpl in Hall.
    split; [|exact (proj1 (IHs _ _ I R T D bA bB lA lB stA stB Hall Hb Hs HR Hst))].
    simpl.
    pose proof (proj1 (IHs _ _ I _ _ _ _ _ (0, lA) (0, lB) stA stB Hall
                  (drop_body_ahead n Hb)
                  (lift_stable (drop_body n bB) Hs (drop_body_keeps bB n))
                  (conj eq_refl HR) Hst)) as H.
    destruct (foreach fuel s (drop_body n bA) (0, lA) stA)
      as [[[c1 [k1 m1]] t1] e1],
      (foreach fuel s (drop_body n bB) (0, lB) stB)
      as [[[c2 [k2 m2]] t2] e2].
    unfold run_ahead in *; simpl in *.
    apply lift_post_ahead in H. exact H.
  - (* DropWhileSequence *)
    simpl in Hall.
    split; [|exact (proj1 (IHs _ _ I R T D bA bB lA lB stA stB Hall Hb Hs HR Hst))].
    simpl.
    pose proof (proj1 (IHs _ _ I _ _ _ _ _ (false, 0, lA) (false, 0, lB) stA stB Hall
                  (dropWhile_body_ahead predicate Hb)
                  (lift_stable (dropWhile_body predicate bB) Hs (dropWhile_body_keeps bB predicate))
                  (conj eq_refl HR) Hst)) as H.
    destruct (foreach fuel s (dropWhile_body predicate bA) (false, 0, lA) stA)
      as [[[c1 [[y1 k1] m1]] t1] e1],
      (foreach fuel s (dropWhile_body predicate bB) (false, 0, lB) stB)
      as [[[c2 [[y2 k2] m2]] t2] e2].
    unfold run_ahead in *; simpl in *.
    apply lift_post_ahead in H. exact H.
  - (* FilteringSequence *)
    simpl in Hall.
    split; [|exact (proj1 (IHs _ _ I R T D bA bB lA lB stA stB Hall Hb Hs HR Hst))].
    simpl.
    pose proof (proj1 (IHs _ _ I _ _ _ _ _ (0, lA) (0, lB) stA stB Hall
                  (filter_body_ahead predicate Hb)
                  (lift_stable (filter_body predicate bB) Hs (filter_body_keeps bB predicate))
                  (conj eq_refl HR) Hst)) as H.
    destruct (foreach fuel s (filter_body predicate bA) (0, lA) stA)
      as [[[c1 [k1 m1]] t1] e1],
      (foreach fuel s (filter_body predicate bB) (0, lB) stB)
      as [[[c2 [k2 m2]] t2] e2].
    unfold run_ahead in *; simpl in *.
    apply lift_post_ahead in H. exact H.
  - (* MapSequence *)
    simpl in Hall.
    split; [|exact (proj1 (IHs _ _ I R T D bA bB lA lB stA stB Hall Hb Hs HR Hst))].
    simpl.
    pose proof (proj1 (IHs _ _ I _ _ _ _ _ (0, lA) (0, lB) stA stB Hall
                  (map_body_ahead transform Hb)
                  (lift_stable (map_body transform bB) Hs (map_body_keeps bB transform))
                  (conj eq_refl HR) Hst)) as H.
    destruct (foreach fuel s (map_body transform bA) (0, lA) stA)
      as [[[c1 [k1 m1]] t1] e1],
      (foreach fuel s (map_body transform bB) (0, lB) stB)
      as [[[c2 [k2 m2]] t2] e2].
    unfold run_ahead in *; simpl in *.
    apply lift_post_ahead in H. exact H.
  - (* TakeSequence *)
    simpl in Hall.
    split; [|exact (proj1 (IHs _ _ I R T D bA bB lA lB stA stB Hall Hb Hs HR Hst))].
    simpl.
    pose proof (proj1 (IHs _ _ I _ _ _ _ _ (0, false, lA) (0, false, lB) stA stB Hall
                  (take_body_ahead n Hb)
                  (break_stable (take_body n bB) Hs (take_body_keeps bB n))
                  (conj eq_refl (conj eq_refl (conj eq_refl HR))) Hst)) as H.
    destruct (foreach fuel s (take_body n bA) (0, false, lA) stA)
      as [[[c1 [[k1 x1] m1]] t1] e1],
      (foreach fuel s (take_body n bB) (0, false, lB) stB)
      as [[[c2 [[k2 x2] m2]] t2] e2].
    unfold run_ahead in *; simpl in *.
    apply break_post_ahead in H. exact H.
  - (* TakeWhileSequence *)
    simpl in Hall.
    split; [|exact (proj1 (IHs _ _ I R T D bA bB lA lB stA stB Hall Hb Hs HR Hst))].
    simpl.
    pose proof (proj1 (IHs _ _ I _ _ _ _ _ (0, false, lA) (0, false, lB) stA stB Hall
                  (takeWhile_body_ahead predicate Hb)
                  (break_stable (takeWhile_body predicate bB) Hs (takeWhile_body_keeps bB predicate))
                  (conj eq_refl (conj eq_refl (conj eq_refl HR))) Hst)) as H.
    destruct (foreach fuel s (takeWhile_body predicate bA) (0, false, lA) stA)
      as [[[c1 [[k1 x1] m1]] t1] e1],
      (foreach fuel s (takeWhile_body predicate bB) (0, false, lB) stB)
      as [[[c2 [[k2 x2] m2]] t2] e2].
    unfold run_ahead in *; simpl in *.
    apply break_post_ahead in H. exact H.
Qed.

End Ahead.

(** ** dropWhile and takeWhile *)

Section WhileValues.

Variable V : Type.

Local Abbreviation push := (fold_body (@push_operation V)).

Lemma toArray_run (fuel : nat) (s : Sequence V) (st st1 : Store V)
    (vs : list V) (es : list (Event V)) :
  toArray fuel s st = (Return vs, st1, es) ->
  exists k, foreach fuel s push (0, []) st = (Next, (k, vs), st1, es).
Proof.
  unfold toArray, fold. fold push. intros H.
  assert (Hn : forall v m, fst (fst (push v m)) = Next) by (intros v [i m]; reflexivity).
  pose proof (foreach_unstopped fuel s push (0, []) st Hn) as Hc.
  destruct (foreach fuel s push (0, []) st) as [[[c [k acc]] t] e].
  simpl in Hc, H. destruct Hc as [-> | [err ->]]; [|discriminate].
  inversion H; subst. eauto.
Qed.

Lemma dropWhile_values (fuel : nat) (s : Sequence V) (p : Callback V bool)
    (st st1 : Store V) (vs : list V) (es : list (Event V)) :
  toArray fuel s st = (Return vs, st1, es) ->
  result_of (toArray fuel (dropWhile s p) st) =
  Return (dropWhile_spec (cb_fun p) 0 vs).
Proof.
  intros H. destruct (toArray_run _ _ _ H) as [k Hrun].
  set (R := fun (x : bool * Z * (Z * list V)) (y : Z * list V) =>
         snd (fst x) = Z.of_nat (List.length (snd y)) /\
         snd (snd x) = dropWhile_spec (cb_fun p) 0 (snd y) /\
         (fst (fst x) = false ->
          forall rest, dropWhile_spec (cb_fun p) 0 (snd y ++ rest) =
                       dropWhile_spec (cb_fun p) (snd (fst x)) rest) /\
         (fst (fst x) = true ->
          forall rest, dropWhile_spec (cb_fun p) 0 (snd y ++ rest) =
                       dropWhile_spec (cb_fun p) 0 (snd y) ++ rest)).
  assert (Hb : body_sim R (fun _ _ _ => False) (dropWhile_body p push) push).
  { intros v [[y i] [j acc]] [k0 all] (Hi & Hacc & Hf & Ht); simpl in *.
    unfold dropWhile_body, fold_body, push_operation; simpl.
    destruct y.
    - replace (if negb (cb_fun p v i) then true else true) with true
        by (destruct (cb_fun p v i); reflexivity).
      simpl. split; [reflexivity|]. unfold R; simpl.
      rewrite length_app; simpl.
      split; [lia|]. split; [rewrite Ht by reflexivity; now rewrite Hacc|].
      split; [discriminate|]. intros _ rest.
      rewrite <- !app_assoc. rewrite !Ht by reflexivity.
      now rewrite <- app_assoc.
    - assert (Hnil : dropWhile_spec (cb_fun p) 0 all = []).
      { specialize (Hf eq_refl []). rewrite app_nil_r in Hf. exact Hf. }
      destruct (cb_fun p v i) eqn:Hp; simpl; (split; [reflexivity|]);
        unfold R; simpl; rewrite length_app; simpl.
      + split; [lia|]. split; [rewrite Hf by reflexivity; simpl; rewrite Hp;
                               now rewrite Hacc, Hnil|].
        split; [|discriminate]. intros _ rest.
        rewrite <- app_assoc. rewrite Hf by reflexivity. simpl. now rewrite Hp.
      + split; [lia|]. split; [rewrite Hf by reflexivity; simpl; rewrite Hp;
                               now rewrite Hacc, Hnil|].
        split; [discriminate|]. intros _ rest.
        rewrite <- app_assoc. rewrite !Hf by reflexivity. simpl. now rewrite Hp. }
  assert (HR : R (false, 0, (0, [])) (0, [])).
  { unfold R; simpl. repeat split; auto. discriminate. }
  assert (Hsim : run_sim (fun _ => True) R (fun _ _ _ => False)
                   (foreach fuel s (dropWhile_body p push) (false, 0, (0, [])) st)
                   (foreach fuel s push (0, []) st))
    by (apply foreach_sim; auto using all_self_True, store_agree_refl).
  unfold toArray, fold, dropWhile, result_of. fold push. cbn [foreach].
  rewrite Hrun in Hsim.
  destruct (foreach fuel s (dropWhile_body p push) (false, 0, (0, [])) st)
    as [[[c [[y i] [j acc]]] t] e].
  destruct Hsim as (Hc & _ & Hp). simpl in Hc, Hp. subst c. simpl in Hp.
  simpl. f_equal. apply Hp.
Qed.

Lemma push_stable (LA : Type) (D : LA -> Z * list V -> Prop) :
  (forall lA k all v, D lA (k, all) -> D lA (k + 1, all ++ [v])) ->
  stable D push.
Proof.
  intros H v lA [k all] HD. unfold fold_body, push_operation; simpl.
  apply H; exact HD.
Qed.

Lemma takeWhile_values (fuel : nat) (s : Sequence V) (p : Callback V bool)
    (st st1 : Store V) (vs : list V) (es : list (Event V)) :
  toArray fuel s st = (Return vs, st1, es) ->
  result_of (toArray fuel (takeWhile s p) st) =
  Return (takeWhile_spec (cb_fun p) 0 vs).
Proof.
  intros H. destruct (toArray_run _ _ _ H) as [k Hrun].
  set (R := fun (x : Z * bool * (Z * list V)) (y : Z * list V) =>
         snd (fst x) = false /\
         fst (fst x) = Z.of_nat (List.length (snd y)) /\
         snd (snd x) = snd y /\
         forall rest, takeWhile_spec (cb_fun p) 0 (snd y ++ rest) =
                      snd y ++ takeWhile_spec (cb_fun p) (fst (fst x)) rest).
  set (D := fun (x : Z * bool * (Z * list V)) (y : Z * list V) =>
         snd (fst x) = true /\
         forall rest, takeWhile_spec (cb_fun p) 0 (snd y ++ rest) = snd (snd x)).
  assert (Hb : body_ahead R (fun _ _ _ => False) D (takeWhile_body p push) push).
  { intros v [[i x] [j acc]] [k0 all] (Hx & Hi & Hacc & Hr); simpl in *.
    subst x acc. unfold takeWhile_body, fold_body, push_operation; simpl.
    destruct (cb_fun p v i) eqn:Hp; simpl.
    - split; [reflexivity|]. unfold R; simpl. rewrite length_app; simpl.
      split; [reflexivity|]. split; [lia|]. split; [reflexivity|].
      intros rest. rewrite <- !app_assoc. rewrite Hr. simpl. now rewrite Hp.
    - right. split; [reflexivity|]. unfold D; simpl. split; [reflexivity|].
      intros rest. rewrite <- app_assoc. rewrite Hr. simpl. rewrite Hp.
      apply app_nil_r. }
  assert (Hs : stable D push).
  { apply push_stable. intros [[i x] [j acc]] k0 all v [Hx Hr]; simpl in *.
    split; [exact Hx|]. simpl. intros rest. rewrite <- app_assoc. apply Hr. }
  assert (HR : R (0, false, (0, [])) (0, [])).
  { unfold R; simpl. repeat split; auto. }
  assert (Hrun2 : run_ahead (fun _ => True) R (fun _ _ _ => False) D
                   (foreach fuel s (takeWhile_body p push) (0, false, (0, [])) st)
                   (foreach fuel s push (0, []) st)).
  { eapply proj1, foreach_ahead_both; auto using all_self_True, store_agree_refl. }
  unfold toArray, fold, takeWhile, result_of. fold push. cbn [foreach].
  rewrite Hrun in Hrun2.
  destruct (foreach fuel s (takeWhile_body p push) (0, false, (0, [])) st)
    as [[[c [[i x] [j acc]]] t] e].
  unfold run_ahead, post_ahead in Hrun2; simpl in Hrun2.
  assert (Hacc : acc = takeWhile_spec (cb_fun p) 0 vs /\ c <> Fail IllegalStateError
                 /\ c <> Fail Diverged).
  { destruct c.
    - destruct Hrun2 as (_ & (Hx & Hi & Hacc & Hr) & _); simpl in *.
      specialize (Hr []). rewrite !app_nil_r in Hr.
      subst acc. repeat split; auto; discriminate.
    - destruct Hrun2 as [(_ & [] & _)|[Hx Hr]]; simpl in *.
      specialize (Hr []). rewrite app_nil_r in Hr. repeat split; auto; discriminate.
    - destruct Hrun2 as [(_ & [] & _)|[Hx Hr]]; simpl in *.
      specialize (Hr []). rewrite app_nil_r in Hr. repeat split; auto; discriminate.
    - discriminate. }
  destruct Hacc as (-> & Hn1 & Hn2).
  destruct c as [| | |[|]]; destruct x; simpl; try reflexivity; congruence.
Qed.

Lemma while_spec_boundary (p : V -> Z -> bool) (pre : list V) (x : V)
    (post : list V) (k : Z) :
  (forall i v, nth_error pre i = Some v -> p v (k + Z.of_nat i) = true) ->
  p x (k + Z.of_nat (List.length pre)) = false ->
  dropWhile_spec p k (pre ++ x :: post) = x :: post /\
  takeWhile_spec p k (pre ++ x :: post) = pre.
Proof.
  revert k; induction pre as [|a pre IH]; intros k Hpre Hx; simpl in *.
  - rewrite Z.add_0_r in Hx. now rewrite Hx.
  - pose proof (Hpre 0%nat a eq_refl) as Ha. simpl in Ha.
    rewrite Z.add_0_r in Ha. rewrite Ha.
    destruct (IH (k + 1)) as [H1 H2].
    + intros i v Hi. specialize (Hpre (S i) v Hi).
      replace (k + 1 + Z.of_nat i) with (k + Z.of_nat (S i)) by lia. exact Hpre.
    + replace (k + 1 + Z.of_nat (List.length pre))
        with (k + Z.pos (Pos.of_succ_nat (List.length pre))) by lia.
      exact Hx.
    + now rewrite H1, H2.
Qed.

(** C7. When the values of a sequence are [pre], then [x], then [post], where
    every value of [pre] satisfies [p] (at its index) and [x] is the first
    that does not, [dropWhile(p)] yields [x] and all of [post], whatever [p]
    says about the values of [post], and [takeWhile(p)] yields [pre] and
    nothing else. *)
Theorem dropWhile_takeWhile_boundary (fuel : nat) (s : Sequence V)
    (p : Callback V bool) (st st1 : Store V) (es : list (Event V))
    (pre : list V) (x : V) (post : list V) :
  toArray fuel s st = (Return (pre ++ x :: post), st1, es) ->
  (forall i v, nth_error pre i = Some v -> cb_fun p v (Z.of_nat i) = true) ->
  cb_fun p x (Z.of_nat (List.length pre)) = false ->
  result_of (toArray fuel (dropWhile s p) st) = Return (x :: post) /\
  result_of (toArray fuel (takeWhile s p) st) = Return pre.
Proof.
  intros H Hpre Hx.
  destruct (while_spec_boundary (cb_fun p) pre x post 0 Hpre Hx) as [H1 H2].
  rewrite (dropWhile_values _ _ p _ H), (takeWhile_values _ _ p _ H).
  now rewrite H1, H2.
Qed.

End WhileValues.

Lemma dropWhile_takeWhile_boundary_witness :
  let lt3 := mkCallback 3%nat (fun (v : Z) (_ : Z) => v <? 3) in
  let s := of_ [1; 2; 5; 1; 2] in
  toArray 0 s initial_store =
    (Return ([1; 2] ++ 5 :: [1; 2]), initial_store,
     [EPull 1; EPull 2; EPull 5; EPull 1; EPull 2]) /\
  (forall i v, nth_error [1; 2] i = Some v -> cb_fun lt3 v (Z.of_nat i) = true) /\
  cb_fun lt3 5 (Z.of_nat (List.length [1; 2])) = false /\
  result_of (toArray 0 (dropWhile s lt3) initial_store) = Return (5 :: [1; 2]) /\
  result_of (toArray 0 (takeWhile s lt3) initial_store) = Return [1; 2].
Proof.
  intros lt3 s.
  assert (H1 : toArray 0 s initial_store =
               (Return ([1; 2] ++ 5 :: [1; 2]), initial_store,
                [EPull 1; EPull 2; EPull 5; EPull 1; EPull 2])) by reflexivity.
  assert (H2 : forall i v, nth_error [1; 2] i = Some v ->
                           cb_fun lt3 v (Z.of_nat i) = true).
  { intros [|[|[|i]]] v Hv; simpl in Hv; inversion Hv; reflexivity. }
  assert (H3 : cb_fun lt3 5 (Z.of_nat (List.length [1; 2])) = false) by reflexivity.
  split; [exact H1|]. split; [exact H2|]. split; [exact H3|].
  exact (@dropWhile_takeWhile_boundary Z 0 s lt3 _ _ _ _ _ _ H1 H2 H3).
Defined.

(** ** The flag of a constrained sequence *)

Section Flag.

Variable V : Type.

Lemma is_iterated_set_same (self : nat) (st : Store V) :
  is_iterated self (set_iterated self st) = true.
Proof. unfold is_iterated, set_iterated; simpl. now rewrite Nat.eqb_refl. Qed.

Lemma is_iterated_set_keep (id self : nat) (st : Store V) :
  is_iterated id st = true -> is_iterated id (set_iterated self st) = true.
Proof.
  unfold is_iterated, set_iterated; simpl. intros ->. apply orb_true_r.
Qed.

Ltac keep_wrapper IHs fuel s :=
  split; [|apply IHs; assumption];
  simpl;
  match goal with
  | |- context [foreach fuel s ?b ?l ?st] =>
      let H := fresh "H" in
      pose proof (proj1 (IHs _ b l st _ ltac:(eassumption))) as H;
      destruct (foreach fuel s b l st) as [[[? ?] ?] ?];
      repeat match goal with p : (_ * _)%type |- _ => destruct p end;
      exact H
  end.

(** The flag is write-once: no traversal of any sequence clears it. *)
Lemma foreach_keeps_iterated (fuel : nat) (s : Sequence V) :
  forall (L : Type) (b : Body V L) l st id,
    is_iterated id st = true ->
    is_iterated id (snd (fst (foreach fuel s b l st))) = true /\
    is_iterated id (snd (fst (foreach_field fuel s b l st))) = true.
Proof.
  induction s using Sequence_ind2 with
    (P0 := fun it =>
       match it with
       | Cursor _ => True
       | GeneratorOf s' =>
           forall (L : Type) (b : Body V L) l st id,
             is_iterated id st = true ->
             is_iterated id (snd (fst (foreach fuel s' b l st))) = true /\
             is_iterated id (snd (fst (foreach_field fuel s' b l st))) = true
       end);
    try (intros L b l st id Hid).
  - simpl. destruct (each _values b l) as [[c m] e]. auto.
  - split; [|exact Hid]. simpl.
    destruct (b initial l) as [[c m] e]. destruct c; auto.
    destruct (generator_loop fuel nextValue initial b m) as [[c2 m2] e2]. auto.
  - split; [|apply IHs1; exact Hid].
    change (is_iterated id (snd (fst
      (let '(c, m, st', es) := foreach fuel s1 b l st in
       match c with
       | Next => let '(c2, m2, st2, es2) := foreach_field fuel s2 b m st' in
                 (c2, m2, st2, es ++ es2)
       | _ => (c, m, st', es)
       end))) = true).
    pose proof (proj1 (IHs1 _ b l st id Hid)) as H1.
    destruct (foreach fuel s1 b l st) as [[[c m] t] e]. simpl in H1.
    destruct c; auto.
    pose proof (proj2 (IHs2 _ b m t id H1)) as H2.
    destruct (foreach_field fuel s2 b m t) as [[[c2 m2] t2] e2]. exact H2.
  - split; [|exact Hid]. simpl.
    destruct (is_iterated self st) eqn:Hself; [exact Hid|].
    pose proof (@is_iterated_set_keep id self st Hid) as H0.
    destruct iterator as [address|s'].
    + simpl. destruct (drain (cursors st address) b l) as [[[c m] r] e].
      exact H0.
    + pose proof (proj1 (IHs _ (closing_body b) (Live, l) _ id H0)) as H1.
      destruct (foreach fuel s' (closing_body b) (Live, l) (set_iterated self st))
        as [[[c [ph m]] t] e]. exact H1.
  - keep_wrapper IHs fuel s.
  - keep_wrapper IHs fuel s.
  - keep_wrapper IHs fuel s.
  - keep_wrapper IHs fuel s.
  - keep_wrapper IHs fuel s.
  - keep_wrapper IHs fuel s.
  - exact I.
  - apply IHs; exact Hid.
Qed.

(** A traversal attempt on a constrained sequence leaves its flag set. *)
Lemma constrained_sets_flag (fuel : nat) (self : nat) (it : IteratorRef V) (sz : Z)
    (L : Type) (b : Body V L) l st :
  is_iterated self
    (snd (fst (foreach fuel (ConstrainedSequence self it sz) b l st))) = true.
Proof.
  simpl. destruct (is_iterated self st) eqn:Hself; [exact Hself|].
  destruct it as [address|s'].
  - simpl. destruct (drain (cursors st address) b l) as [[[c m] r] e].
    apply is_iterated_set_same.
  - pose proof (proj1 (foreach_keeps_iterated fuel s' (closing_body b) (Live, l)
                         (set_iterated self st) self (is_iterated_set_same self st)))
      as H.
    destruct (foreach fuel s' (closing_body b) (Live, l) (set_iterated self st))
      as [[[c [ph m]] t] e]. exact H.
Qed.

(** In the consumed state a traversal fails at once: the consumer sees no
    value, nothing is pulled and nothing is called. *)
Lemma constrained_consumed (fuel : nat) (self : nat) (it : IteratorRef V) (sz : Z)
    (L : Type) (b : Body V L) l st :
  is_iterated self st = true ->
  foreach fuel (ConstrainedSequence self it sz) b l st =
  (Fail IllegalStateError, l, st, []).
Proof. intros H. simpl. now rewrite H. Qed.

End Flag.

(** ** Single traversal *)

Lemma drain_push (V : Type) (xs : list V) (index : Z) (acc : list V) :
  drain xs (fold_body (@push_operation V)) (index, acc) =
  (Next, (index + Z.of_nat (List.length xs), acc ++ xs), [], List.map EPull xs).
Proof.
  revert index acc; induction xs as [|x xs IH]; intros index acc.
  - simpl. now rewrite Z.add_0_r, app_nil_r.
  - cbn [drain fold_body op_fun op_event op_name push_operation].
    rewrite IH. cbn [List.length List.map app].
    rewrite <- app_assoc. cbn [app].
    replace (index + 1 + Z.of_nat (List.length xs))
      with (index + Z.of_nat (S (List.length xs))) by lia.
    reflexivity.
Qed.

(** The first traversal of [Sequence.from(iterator)] yields what the cursor
    holds. *)
Lemma from_iterator_first (V : Type) (fuel : nat) (address : nat) (st : Store V) :
  is_iterated (fresh st) st = false ->
  result_of (toArray fuel (fst (from_iterator address st))
               (snd (from_iterator address st))) =
  Return (cursors st address).
Proof.
  intros Hf. unfold from_iterator, toArray, fold, result_of; simpl.
  unfold is_iterated in *; simpl. rewrite Hf.
  rewrite drain_push. reflexivity.
Qed.

(** The first traversal of [s.constrainOnce()] yields what a traversal of [s]
    yields. *)
Lemma constrainOnce_first (V : Type) (fuel : nat) (s : Sequence V)
    (st st' : Store V) (vs : list V) (es : list (Event V)) :
  is_iterated (fresh st) st = false ->
  all_self (fun id => id <> fresh st) s ->
  toArray fuel s st = (Return vs, st', es) ->
  result_of (toArray fuel (fst (constrainOnce s st)) (snd (constrainOnce s st))) =
  Return vs.
Proof.
  intros Hf Hall H. destruct (toArray_run _ _ _ H) as [k Hrun].
  set (push := fold_body (@push_operation V)) in *.
  set (st0 := mkStore (iterated st) (cursors st) (S (fresh st))).
  assert (Hb : body_sim (fun (x : Phase * (Z * list V)) y => fst x = Live /\ snd x = y)
                        (fun _ _ _ => False) (closing_body push) push).
  { intros v [ph [i acc]] y [Hph <-]; simpl in *. subst ph.
    unfold closing_body, push, fold_body, push_operation; simpl. auto. }
  assert (Hst : store_agree (fun id => id <> fresh st) (set_iterated (fresh st) st0) st).
  { split; [reflexivity|]. intros id Hid.
    unfold is_iterated, set_iterated, st0; simpl.
    destruct (Nat.eqb_spec id (fresh st)); [contradiction|reflexivity]. }
  assert (Hsim : run_sim (fun id => id <> fresh st)
                   (fun (x : Phase * (Z * list V)) y => fst x = Live /\ snd x = y)
                   (fun _ _ _ => False)
                   (foreach fuel s (closing_body push) (Live, (0, []))
                      (set_iterated (fresh st) st0))
                   (foreach fuel s push (0, []) st))
    by (apply foreach_sim; auto).
  unfold constrainOnce, toArray, fold, result_of. fold push. fold st0.
  cbn [fst snd foreach].
  replace (is_iterated (fresh st) st0) with false by (symmetry; exact Hf).
  rewrite Hrun in Hsim.
  destruct (foreach fuel s (closing_body push) (Live, (0, []))
              (set_iterated (fresh st) st0)) as [[[c [ph [i acc]]] t] e].
  destruct Hsim as (Hc & _ & Hp). simpl in Hc, Hp. subst c.
  destruct Hp as [Hph Hl]; simpl in Hph, Hl. subst ph. inversion Hl; subst.
  reflexivity.
Qed.

(** C4. A sequence [c] built by [Sequence.from] on a one-shot cursor, or by
    [constrainOnce] on a sequence whose traversal yields [vs], yields on its
    first traversal the values of its source; any traversal attempt on it,
    whatever the consumer, leaves it consumed, and no traversal of any
    sequence resets that; and in the consumed state every
    traversal of [c] fails with [IllegalStateError] before the consumer sees a
    value, before anything is pulled or called, which is not what a traversal
    that ends with zero values returns. *)
Theorem constrained_single_traversal (V : Type) (fuel : nat) (st st0 : Store V)
    (c : Sequence V) (vs : list V) :
  is_iterated (fresh st) st = false ->
  (exists address,
      from_iterator address st = (c, st0) /\ cursors st address = vs) \/
  (exists s st' es,
      constrainOnce s st = (c, st0) /\
      all_self (fun id => id <> fresh st) s /\
      toArray fuel s st = (Return vs, st', es)) ->
  result_of (toArray fuel c st0) = Return vs /\
  (forall (L : Type) (b : Body V L) l st1,
      is_iterated (fresh st) (snd (fst (foreach fuel c b l st1))) = true) /\
  (forall (other : Sequence V) (L : Type) (b : Body V L) l st2,
      is_iterated (fresh st) st2 = true ->
      is_iterated (fresh st) (snd (fst (foreach fuel other b l st2))) = true) /\
  (forall (L : Type) (b : Body V L) l st2,
      is_iterated (fresh st) st2 = true ->
      foreach fuel c b l st2 = (Fail IllegalStateError, l, st2, [])) /\
  (forall st2,
      is_iterated (fresh st) st2 = true ->
      toArray fuel c st2 = (Throw IllegalStateError, st2, []) /\
      result_of (toArray fuel c st2) <> Return []).
Proof.
  intros Hf Hbuilt.
  assert (Hshape : exists it sz, c = ConstrainedSequence (fresh st) it sz).
  { destruct Hbuilt as [(a & Hc & _)|(s & st' & es & Hc & _)];
      inversion Hc; eauto. }
  destruct Hshape as (it & sz & Hshape).
  assert (Hconsumed : forall (L : Type) (b : Body V L) l st2,
             is_iterated (fresh st) st2 = true ->
             foreach fuel c b l st2 = (Fail IllegalStateError, l, st2, [])).
  { intros L b l st2 H2. rewrite Hshape. now apply constrained_consumed. }
  split; [|split; [|split; [|split]]].
  - destruct Hbuilt as [(a & Hc & <-)|(s & st' & es & Hc & Hall & Hvs)].
    + pose proof (@from_iterator_first V fuel a st Hf) as H. now rewrite Hc in H.
    + pose proof (@constrainOnce_first V fuel s st st' vs es Hf Hall Hvs) as H.
      now rewrite Hc in H.
  - intros L b l st1. rewrite Hshape. apply constrained_sets_flag.
  - intros other L b l st2 H2.
    exact (proj1 (foreach_keeps_iterated fuel other b l st2 (fresh st) H2)).
  - exact Hconsumed.
  - intros st2 H2. unfold result_of, toArray, fold.
    rewrite (Hconsumed _ _ _ st2 H2). simpl. split; [reflexivity|discriminate].
Qed.

Lemma constrained_single_traversal_witness :
  let st := set_cursor 7 [10; 20; 30] (@initial_store Z) in
  let c := fst (from_iterator 7 st) in
  let st0 := snd (from_iterator 7 st) in
  is_iterated (fresh st) st = false /\
  from_iterator 7 st = (c, st0) /\ cursors st 7%nat = [10; 20; 30] /\
  result_of (toArray 0 c st0) = Return [10; 20; 30] /\
  forall st2, is_iterated (fresh st) st2 = true ->
    toArray 0 c st2 = (Throw IllegalStateError, st2, []).
Proof.
  intros st c st0.
  assert (H1 : is_iterated (fresh st) st = false) by reflexivity.
  assert (H2 : from_iterator 7 st = (c, st0)) by reflexivity.
  assert (H3 : cursors st 7%nat = [10; 20; 30]) by reflexivity.
  split; [exact H1|]. split; [exact H2|]. split; [exact H3|].
  destruct (@constrained_single_traversal Z 0 st st0 c [10; 20; 30] H1
              (or_introl (ex_intro _ 7%nat (conj H2 H3))))
    as (Hfirst & _ & _ & _ & Hlater).
  split; [exact Hfirst|]. intros st2 Hst2. exact (proj1 (Hlater st2 Hst2)).
Defined.

(** ** How often dropWhile asks its predicate *)

Lemma each_dropWhile_events (V : Type) (p : Callback V bool) (xs : list V)
    (yielding : bool) (index j : Z) (acc : list V) :
  let r := each xs (dropWhile_body p
                      (fold_body (@push_operation V)))
                (yielding, index, (j, acc)) in
  fst (fst r) = Next /\
  calls_of (cb_name p) (snd r) = List.length xs /\
  pulls (snd r) = List.length xs.
Proof.
  revert yielding index j acc; induction xs as [|x xs IH];
    intros yielding index j acc; [simpl; auto|].
  cbn [each dropWhile_body].
  destruct (if negb (cb_fun p x index) then true else yielding);
    cbn [fold_body op_fun op_event op_name push_operation];
    match goal with
    | |- context [each xs ?b ?l] =>
        match l with
        | (?y, ?i, (?k, ?a)) =>
            specialize (IH y i k a); cbv zeta in IH;
            destruct (each xs b l) as [[c m] e]
        end
    end;
    simpl in IH; destruct IH as (-> & Hcalls & Hpulls);
    unfold calls_of, pulls in *; simpl; rewrite Nat.eqb_refl; simpl;
    auto.
Qed.

Lemma toArray_of (V : Type) (fuel : nat) (xs : list V) (st : Store V) :
  toArray fuel (of_ xs) st = (Return xs, st, List.map EPull xs).
Proof.
  unfold toArray, fold, of_. cbn [foreach]. rewrite each_push. reflexivity.
Qed.

(** C10. In a full traversal of [dropWhile(p)] over an array, [p] is invoked
    once for every value of the array, also for the values after the first
    one that failed it: as many invocations as values pulled. *)
Theorem dropWhile_asks_on_every_value (V : Type) (fuel : nat) (xs : list V)
    (p : Callback V bool) (st : Store V) :
  result_of (toArray fuel (dropWhile (of_ xs) p) st) =
    Return (dropWhile_spec (cb_fun p) 0 xs) /\
  calls_of (cb_name p) (events_of (toArray fuel (dropWhile (of_ xs) p) st)) =
    List.length xs /\
  pulls (events_of (toArray fuel (dropWhile (of_ xs) p) st)) = List.length xs.
Proof.
  split; [exact (dropWhile_values _ _ p _ (toArray_of fuel xs st))|].
  unfold toArray, fold, dropWhile, of_, events_of. cbn [foreach].
  pose proof (each_dropWhile_events p xs false 0 0 []) as H. cbv zeta in H.
  destruct (each xs _ (false, 0, (0, []))) as [[c [[y i] [k acc]]] e].
  simpl in H. destruct H as (-> & Hc & Hp). simpl. auto.
Qed.

(** ** reduce *)

Section Reduce.

Variable V : Type.

Lemma calls_of_app (name : nat) (a b : list (Event V)) :
  calls_of name (a ++ b) = (calls_of name a + calls_of name b)%nat.
Proof. unfold calls_of. now rewrite filter_app, length_app. Qed.

Lemma pulls_app (a b : list (Event V)) :
  pulls (a ++ b) = (pulls a + pulls b)%nat.
Proof. unfold pulls. now rewrite filter_app, length_app. Qed.




End Reduce.


(** ** toString *)

Section ToString.

Variable V : Type.

(** [isEmpty()] says whether [first()] finds a value. *)
Lemma isEmpty_first (fuel : nat) (s : Sequence V) (st st' : Store V)
    (o : option V) (es : list (Event V)) :
  first fuel s st = (Return o, st', es) ->
  result_of (isEmpty fuel s st) =
  Return (match o with None => true | Some _ => false end).
Proof.
  intros H. unfold first in H. unfold isEmpty, result_of.
  set (R := fun (a : bool) (b : option V) => a = true /\ b = None).
  set (T := fun (_ : Ctl) (a : bool) (b : option V) => a = false /\ b <> None).
  assert (Hb : body_sim R T (@isEmpty_body V) (@first_body V)).
  { intros v a b _. simpl. split; [reflexivity|]. split; [reflexivity|discriminate]. }
  assert (Hsim : run_sim (fun _ => True) R T
                   (foreach fuel s (@isEmpty_body V) true st)
                   (foreach fuel s (@first_body V) None st)).
  { apply foreach_sim; auto using all_self_True, store_agree_refl.
    split; reflexivity. }
  destruct (foreach fuel s (@isEmpty_body V) true st) as [[[c1 a] t1] e1],
           (foreach fuel s (@first_body V) None st) as [[[c2 b] t2] e2].
  destruct Hsim as (Hc & _ & Hp); simpl in Hc, Hp, H. subst c2.
  destruct c1; simpl in *; inversion H; subst;
    unfold R, T in Hp; destruct Hp as [-> Ho]; destruct o; congruence.
Qed.

(** [first()] is the head of what a full traversal yields. *)
Lemma first_of_values (fuel : nat) (s : Sequence V) (st st' : Store V)
    (vs : list V) (es : list (Event V)) :
  toArray fuel s st = (Return vs, st', es) ->
  result_of (first fuel s st) = Return (hd_error vs).
Proof.
  intros H. destruct (toArray_run _ _ _ H) as [k Hrun]. cbv zeta in Hrun.
  set (push := fold_body (@push_operation V)) in *.
  set (R := fun (a : option V) (y : Z * list V) => a = None /\ snd y = []).
  set (D := fun (a : option V) (y : Z * list V) => a <> None /\ a = hd_error (snd y)).
  assert (Hb : body_ahead R (fun _ _ _ => False) D (@first_body V) push).
  { intros v a [i all] [-> Hall]; simpl in *. subst all.
    right. split; [reflexivity|]. split; [discriminate|reflexivity]. }
  assert (Hs : stable D push).
  { intros v a [i all] [Ha Hh]; simpl in *. split; [exact Ha|].
    destruct all; [simpl in Hh; congruence|exact Hh]. }
  assert (Hrun2 : run_ahead (fun _ => True) R (fun _ _ _ => False) D
                   (foreach fuel s (@first_body V) None st)
                   (foreach fuel s push (0, []) st)).
  { eapply proj1, foreach_ahead_both; auto using all_self_True, store_agree_refl.
    split; reflexivity. }
  unfold first, result_of. rewrite Hrun in Hrun2.
  destruct (foreach fuel s (@first_body V) None st) as [[[c a] t] e].
  unfold run_ahead, post_ahead in Hrun2; simpl in Hrun2.
  destruct c; simpl.
  - destruct Hrun2 as (_ & [-> Hvs] & _); simpl in Hvs. now subst vs.
  - destruct Hrun2 as [(_ & [] & _)|[_ ->]]; reflexivity.
  - destruct Hrun2 as [(_ & [] & _)|[_ ->]]; reflexivity.
  - discriminate.
Qed.

(** C8. [toString()] returns "Sequence (empty)" when the sequence yields no
    value ([first()] finds none), "Sequence (N)" with the cached size [N] when
    it yields one and the cached size is not negative, and
    "Sequence (unknown)" when it yields one and the cached size is negative.
    [AsyncSequence.toString] reads the cached size only: it answers with its
    "empty" form exactly when the size is 0, and two sequences of the same
    cached size have the same string whatever they hold. *)
Theorem toString_forms (fuel : nat) (s : Sequence V) (st st' : Store V)
    (o : option V) (es : list (Event V)) :
  first fuel s st = (Return o, st', es) ->
  result_of (toString fuel s st) =
    Return (match o with
            | None => "Sequence (empty)"%string
            | Some _ =>
                if size s <? 0 then "Sequence (unknown)"%string
                else ("Sequence (" ++ number_toString (size s) ++ ")")%string
            end) /\
  (forall a : Async.AsyncSequence V,
      (Async.toString a = "AsyncSequence (empty)"%string <-> Async._size a = 0) /\
      (forall a' : Async.AsyncSequence V,
          Async._size a' = Async._size a -> Async.toString a' = Async.toString a)).
Proof.
  intros H. split.
  - pose proof (isEmpty_first _ _ _ H) as He.
    unfold toString, result_of in *.
    destruct (isEmpty fuel s st) as [[r st1] es1]. simpl in He. subst r.
    destruct o; [|reflexivity]. simpl. destruct (size s <? 0); reflexivity.
  - intros a. split.
    + unfold Async.toString, Async.size.
      destruct (Z.eqb_spec (Async._size a) 0) as [Hz|Hz].
      * split; auto.
      * split; [|contradiction]. simpl. intros Habs. discriminate Habs.
    + intros a' Hsz. unfold Async.toString, Async.size. now rewrite Hsz.
Qed.

End ToString.

Lemma toString_forms_witness :
  first 0 (of_ [10; 20; 30]) initial_store =
    (Return (Some 10), initial_store, [EPull 10]) /\
  result_of (toString 0 (of_ [10; 20; 30]) initial_store) =
    Return "Sequence (3)"%string /\
  result_of (toString 0 (@empty Z) initial_store) = Return "Sequence (empty)"%string /\
  result_of (toString 2 (generate 0 (fun x => Some (x + 1))) initial_store) =
    Return "Sequence (unknown)"%string.
Proof.
  assert (H1 : first 0 (of_ [10; 20; 30]) initial_store =
               (Return (Some 10), initial_store, [EPull 10])) by reflexivity.
  assert (H2 : first 0 (@empty Z) initial_store = (Return None, initial_store, []))
    by reflexivity.
  assert (H3 : first 2 (generate 0 (fun x => Some (x + 1))) initial_store =
               (Return (Some 0), initial_store, [])) by reflexivity.
  split; [exact H1|].
  split; [exact (proj1 (toString_forms _ _ _ H1))|].
  split; [exact (proj1 (toString_forms _ _ _ H2))|].
  exact (proj1 (toString_forms _ _ _ H3)).
Defined.

(** ** Laziness *)

Section Laziness.

Variable V : Type.

Lemma build_no_events (ops : list (Op V)) (source : Sequence V) :
  snd (build source ops) = [].
Proof.
  revert source; induction ops as [|op ops IH]; intros source; [reflexivity|].
  simpl. destruct (apply_op source op) as [s1 es1] eqn:H1.
  specialize (IH s1). destruct (build s1 ops) as [s2 es2]. simpl in *.
  rewrite IH. destruct op; inversion H1; reflexivity.
Qed.

Lemma chain_snoc (ops : list (Op V)) (op : Op V) (source : Sequence V) :
  chain source (ops ++ [op]) = fst (apply_op (chain source ops) op).
Proof.
  unfold chain. revert source; induction ops as [|o ops IH]; intros source; simpl.
  - destruct (apply_op source op) as [s1 es1]. reflexivity.
  - destruct (apply_op source o) as [s1 es1]. specialize (IH s1).
    destruct (build s1 (ops ++ [op])) as [s2 es2].
    destruct (build s1 ops) as [s3 es3]. exact IH.
Qed.

(** The traversal of the node that an intermediate operation builds, in terms
    of the traversal of the sequence it was called on. *)
Lemma foreach_drop (fuel : nat) (s : Sequence V) (n : Z) (L : Type)
    (b : Body V L) l st :
  foreach fuel (drop s n) b l st =
  (let '(c, (_, l1), st1, es1) := foreach fuel s (drop_body n b) (0, l) st in
   (c, l1, st1, es1)).
Proof. unfold drop, new_DropSequence. destruct (size s <? 0); reflexivity. Qed.

Lemma each_prefix (L : Type) (b : Body V L) (xs ys : list V) l l' es :
  each xs b l = (Stop, l', es) -> each (xs ++ ys) b l = (Stop, l', es).
Proof.
  revert l es; induction xs as [|x xs IH]; intros l es H; simpl in *;
    [discriminate|].
  destruct (b x l) as [[c m] e]. destruct c; try exact H.
  destruct (each xs b m) as [[c2 m2] e2] eqn:Hrec.
  inversion H; subst. now rewrite (IH _ _ Hrec).
Qed.

(** What a chain did up to the [Stop] of its consumer does not depend on the
    values that the array holds after the ones it pulled. *)
Lemma chain_prefix (fuel : nat) (ops : list (Op V)) (xs ys : list V) (sz sz' : Z) :
  forall (L : Type) (b : Body V L) l st l' st' es,
    foreach fuel (chain (BaseSequence xs sz) ops) b l st = (Stop, l', st', es) ->
    foreach fuel (chain (BaseSequence (xs ++ ys) sz') ops) b l st =
    (Stop, l', st', es).
Proof.
  induction ops as [|op ops IH] using rev_ind; intros L b l st l' st' es H.
  - unfold chain in *; simpl in *.
    destruct (each xs b l) as [[c m] e] eqn:He. inversion H; subst.
    now rewrite (@each_prefix L b xs ys l _ _ He).
  - rewrite chain_snoc in *.
    set (s1 := chain (BaseSequence xs sz) ops) in *.
    set (s2 := chain (BaseSequence (xs ++ ys) sz') ops) in *.
    destruct op; cbn [apply_op fst] in *;
      try rewrite foreach_drop in *;
      unfold map, new_MapSequence, filter, take, new_TakeSequence,
             dropWhile, takeWhile in *;
      cbn [foreach] in *.
    + destruct (foreach fuel s1 (map_body transform b) (0, l) st)
        as [[[c [i m]] t] e] eqn:H1.
      inversion H; subst. now rewrite (IH _ _ _ _ _ _ _ H1).
    + destruct (foreach fuel s1 (filter_body predicate b) (0, l) st)
        as [[[c [i m]] t] e] eqn:H1.
      inversion H; subst. now rewrite (IH _ _ _ _ _ _ _ H1).
    + destruct (foreach fuel s1 (take_body n b) (0, false, l) st)
        as [[[c [[i x] m]] t] e] eqn:H1.
      destruct c, x; simpl in H; inversion H; subst.
      now rewrite (IH _ _ _ _ _ _ _ H1).
    + destruct (foreach fuel s1 (drop_body n b) (0, l) st)
        as [[[c [i m]] t] e] eqn:H1.
      inversion H; subst. now rewrite (IH _ _ _ _ _ _ _ H1).
    + destruct (foreach fuel s1 (dropWhile_body predicate b) (false, 0, l) st)
        as [[[c [[y i] m]] t] e] eqn:H1.
      inversion H; subst. now rewrite (IH _ _ _ _ _ _ _ H1).
    + destruct (foreach fuel s1 (takeWhile_body predicate b) (0, false, l) st)
        as [[[c [[i x] m]] t] e] eqn:H1.
      destruct c, x; simpl in H; inversion H; subst.
      now rewrite (IH _ _ _ _ _ _ _ H1).
Qed.

(** [find] returned a value: its loop was left by [return]. *)
Lemma find_matched_stops (fuel : nat) (s : Sequence V) (q : Callback V bool)
    (st st' : Store V) (v : V) (es : list (Event V)) :
  find fuel s q st = (Return (Some v), st', es) ->
  exists i, foreach fuel s (find_body q) (0, None) st = (Stop, (i, Some v), st', es).
Proof.
  unfold find. intros H.
  set (R := fun (x y : Z * option V) => x = y /\ snd x = None).
  set (T := fun (c : Ctl) (x y : Z * option V) => c = Stop).
  assert (Hb : body_sim R T (find_body q) (find_body q)).
  { intros w [i r] y [<- HR]. unfold find_body; simpl in *. subst r.
    destruct (cb_fun q w i); simpl; unfold R, T; simpl; auto. }
  assert (Hsim : run_sim (fun _ => True) R T
                   (foreach fuel s (find_body q) (0, None) st)
                   (foreach fuel s (find_body q) (0, None) st)).
  { apply foreach_sim; auto using all_self_True, store_agree_refl.
    split; reflexivity. }
  destruct (foreach fuel s (find_body q) (0, None) st) as [[[c [i r]] t] e].
  destruct Hsim as (_ & _ & Hp). simpl in Hp, H.
  destruct c; simpl in H; inversion H; subst; unfold R, T in Hp; simpl in Hp.
  - destruct Hp as [_ Hp]. discriminate.
  - eauto.
  - discriminate.
Qed.

(** *** Counting the invocations of one callback *)

Lemma indices_of_app (name : nat) (a b : list (Event V)) :
  indices_of name (a ++ b) = indices_of name a ++ indices_of name b.
Proof. unfold indices_of. now rewrite filter_app, map_app. Qed.

Lemma calls_of_indices (name : nat) (es : list (Event V)) :
  calls_of name es = List.length (indices_of name es).
Proof. unfold calls_of, indices_of. now rewrite length_map. Qed.

Lemma zseq_app (start : Z) (m1 m2 : nat) :
  zseq start (m1 + m2) = zseq start m1 ++ zseq (start + Z.of_nat m1) m2.
Proof.
  unfold zseq. rewrite seq_app, map_app. f_equal. simpl.
  replace m1 with (m1 + 0)%nat at 1 by lia. generalize 0%nat as a.
  induction m2 as [|m2 IH]; intros a; [reflexivity|].
  simpl. f_equal; [lia|].
  replace (S (m1 + a)) with (m1 + S a)%nat by lia. apply IH.
Qed.

(** The conclusion about one loop: the invocations of [name] carry the
    successive counts, there is at most one per pulled value, and no more
    values are pulled than the array holds. *)
Lemma each_counts (L : Type) (name : nat) (k : L -> Z) (b : Body V L) :
  counts name k b -> (forall v l, pulls (snd (b v l)) = 0%nat) ->
  forall xs l,
    indices_of name (snd (each xs b l)) =
      zseq (k l) (calls_of name (snd (each xs b l))) /\
    k (snd (fst (each xs b l))) = k l + Z.of_nat (calls_of name (snd (each xs b l))) /\
    (calls_of name (snd (each xs b l)) <= pulls (snd (each xs b l)))%nat /\
    (pulls (snd (each xs b l)) <= List.length xs)%nat.
Proof.
  intros Hc Hp xs; induction xs as [|x xs IH]; intros l.
  - simpl. unfold zseq; simpl. repeat split; auto; lia.
  - cbn [each]. pose proof (Hc x l) as Hx. pose proof (Hp x l) as Hpx.
    destruct (b x l) as [[c m] e]; simpl in Hx, Hpx.
    assert (Hhead : forall rest,
      indices_of name (EPull x :: e ++ rest) = indices_of name e ++ indices_of name rest /\
      calls_of name (EPull x :: e ++ rest) =
        (List.length (indices_of name e) + calls_of name rest)%nat /\
      pulls (EPull x :: e ++ rest) = S (pulls rest)).
    { intros rest. change (EPull x :: e ++ rest) with ([EPull x] ++ e ++ rest).
      rewrite !indices_of_app, !calls_of_app, !pulls_app, Hpx.
      rewrite (calls_of_indices name e). repeat split. }
    assert (Hstop : c <> Next ->
      indices_of name (EPull x :: e) = zseq (k l) (calls_of name (EPull x :: e)) /\
      k m = k l + Z.of_nat (calls_of name (EPull x :: e)) /\
      (calls_of name (EPull x :: e) <= pulls (EPull x :: e))%nat /\
      (pulls (EPull x :: e) <= S (List.length xs))%nat).
    { intros _. destruct (Hhead []) as (H1 & H2 & H3).
      rewrite !app_nil_r in *. rewrite H1, H2, H3.
      destruct Hx as [[-> ->]|[-> ->]]; unfold zseq, calls_of, pulls; simpl;
        repeat split; try lia. now rewrite Z.add_0_r. }
    destruct c; try (cbn [fst snd List.length]; apply Hstop; discriminate).
    specialize (IH m). destruct (each xs b m) as [[c2 m2] e2].
    cbn [fst snd List.length] in *.
    destruct (Hhead e2) as (H1 & H2 & H3). rewrite H1, H2, H3.
    destruct IH as (I1 & I2 & I3 & I4). rewrite I1, I2.
    destruct Hx as [[-> ->]|[-> ->]]; cbn [List.length app Nat.add].
    + repeat split; auto; lia.
    + rewrite (zseq_app (k l) 1). cbn [zseq seq List.map app].
      rewrite Z.add_0_r. repeat split; auto; lia.
Qed.

Lemma indices_of_call (name own : nat) (v : V) (i : Z) (es : list (Event V)) :
  indices_of name (ECall own v i :: es) =
  if Nat.eqb own name then i :: indices_of name es else indices_of name es.
Proof. unfold indices_of; simpl. destruct (Nat.eqb own name); reflexivity. Qed.

Lemma pulls_call (own : nat) (v : V) (i : Z) (es : list (Event V)) :
  pulls (ECall own v i :: es) = pulls es.
Proof. reflexivity. Qed.

Ltac wrapper_cases b :=
  unfold counts, silent in *;
  repeat match goal with
         | |- context [if ?c then _ else _] => destruct c eqn:?
         end;
  repeat match goal with
         | H : forall v l, _ |- context [b ?x ?l] =>
             let Hx := fresh "Hx" in
             pose proof (H x l) as Hx; clear H;
             destruct (b x l) as [[? ?] ?]
         end;
  cbn [fst snd] in *;
  rewrite ?indices_of_call, ?pulls_call;
  repeat match goal with
         | H : ?a <> ?b |- context [Nat.eqb ?b ?a] =>
             replace (Nat.eqb b a) with false
               by (symmetry; apply Nat.eqb_neq; congruence)
         end;
  rewrite ?Nat.eqb_refl;
  try solve [assumption | auto | unfold indices_of; simpl; auto
            | match goal with H : _ = [] |- _ => rewrite H; auto end].

Lemma map_body_counts (L : Type) (b : Body V L) (f : Callback V V) name k :
  name <> cb_name f -> counts name k b ->
  counts name (fun x => k (snd x)) (map_body f b).
Proof. intros Hn Hc v [i l]. unfold map_body. wrapper_cases b. Qed.

Lemma filter_body_counts (L : Type) (b : Body V L) (p : Callback V bool) name k :
  name <> cb_name p -> counts name k b ->
  counts name (fun x => k (snd x)) (filter_body p b).
Proof. intros Hn Hc v [i l]. unfold filter_body. wrapper_cases b. Qed.

Lemma dropWhile_body_counts (L : Type) (b : Body V L) (p : Callback V bool) name k :
  name <> cb_name p -> counts name k b ->
  counts name (fun x => k (snd x)) (dropWhile_body p b).
Proof.
  intros Hn Hc v [[y i] l]. unfold dropWhile_body.
  destruct (negb (cb_fun p v i)), y; wrapper_cases b.
Qed.

Lemma takeWhile_body_counts (L : Type) (b : Body V L) (p : Callback V bool) name k :
  name <> cb_name p -> counts name k b ->
  counts name (fun x => k (snd x)) (takeWhile_body p b).
Proof.
  intros Hn Hc v [[i x] l]. unfold takeWhile_body.
  destruct (cb_fun p v i); simpl negb; wrapper_cases b.
Qed.

Lemma take_body_counts (L : Type) (b : Body V L) n name k :
  counts name k b -> counts name (fun x => k (snd x)) (take_body n b).
Proof. intros Hc v [[i x] l]. unfold take_body. wrapper_cases b. Qed.

Lemma drop_body_counts (L : Type) (b : Body V L) n name k :
  counts name k b -> counts name (fun x => k (snd x)) (drop_body n b).
Proof. intros Hc v [i l]. unfold drop_body. wrapper_cases b. Qed.

Lemma map_body_own (L : Type) (b : Body V L) (f : Callback V V) :
  silent (cb_name f) b -> counts (cb_name f) fst (map_body f b).
Proof. intros Hs v [i l]. unfold map_body. right. wrapper_cases b. Qed.

Lemma filter_body_own (L : Type) (b : Body V L) (p : Callback V bool) :
  silent (cb_name p) b -> counts (cb_name p) fst (filter_body p b).
Proof. intros Hs v [i l]. unfold filter_body. right. wrapper_cases b. Qed.

Lemma dropWhile_body_own (L : Type) (b : Body V L) (p : Callback V bool) :
  silent (cb_name p) b ->
  counts (cb_name p) (fun x => snd (fst x)) (dropWhile_body p b).
Proof.
  intros Hs v [[y i] l]. unfold dropWhile_body. right.
  destruct (negb (cb_fun p v i)), y; wrapper_cases b.
Qed.

Lemma takeWhile_body_own (L : Type) (b : Body V L) (p : Callback V bool) :
  silent (cb_name p) b ->
  counts (cb_name p) (fun x => fst (fst x)) (takeWhile_body p b).
Proof.
  intros Hs v [[i x] l]. unfold takeWhile_body. right.
  destruct (cb_fun p v i); simpl negb; wrapper_cases b.
Qed.

Lemma map_body_silent (L : Type) (b : Body V L) (f : Callback V V) name :
  name <> cb_name f -> silent name b -> silent name (map_body f b).
Proof. intros Hn Hs v [i l]. unfold map_body. wrapper_cases b. Qed.

Lemma filter_body_silent (L : Type) (b : Body V L) (p : Callback V bool) name :
  name <> cb_name p -> silent name b -> silent name (filter_body p b).
Proof. intros Hn Hs v [i l]. unfold filter_body. wrapper_cases b. Qed.

Lemma dropWhile_body_silent (L : Type) (b : Body V L) (p : Callback V bool) name :
  name <> cb_name p -> silent name b -> silent name (dropWhile_body p b).
Proof.
  intros Hn Hs v [[y i] l]. unfold dropWhile_body.
  destruct (negb (cb_fun p v i)), y; wrapper_cases b.
Qed.

Lemma takeWhile_body_silent (L : Type) (b : Body V L) (p : Callback V bool) name :
  name <> cb_name p -> silent name b -> silent name (takeWhile_body p b).
Proof.
  intros Hn Hs v [[i x] l]. unfold takeWhile_body.
  destruct (cb_fun p v i); simpl negb; wrapper_cases b.
Qed.

Lemma take_body_silent (L : Type) (b : Body V L) n name :
  silent name b -> silent name (take_body n b).
Proof. intros Hs v [[i x] l]. unfold take_body. wrapper_cases b. Qed.

Lemma drop_body_silent (L : Type) (b : Body V L) n name :
  silent name b -> silent name (drop_body n b).
Proof. intros Hs v [i l]. unfold drop_body. wrapper_cases b. Qed.

(** None of the loops of the derived classes pulls by itself. *)
Lemma map_body_pulls (L : Type) (b : Body V L) (f : Callback V V) :
  (forall v l, pulls (snd (b v l)) = 0%nat) ->
  forall v l, pulls (snd (map_body f b v l)) = 0%nat.
Proof. intros Hs v [i l]. unfold map_body. wrapper_cases b. Qed.

Lemma filter_body_pulls (L : Type) (b : Body V L) (p : Callback V bool) :
  (forall v l, pulls (snd (b v l)) = 0%nat) ->
  forall v l, pulls (snd (filter_body p b v l)) = 0%nat.
Proof. intros Hs v [i l]. unfold filter_body. wrapper_cases b. Qed.

Lemma dropWhile_body_pulls (L : Type) (b : Body V L) (p : Callback V bool) :
  (forall v l, pulls (snd (b v l)) = 0%nat) ->
  forall v l, pulls (snd (dropWhile_body p b v l)) = 0%nat.
Proof.
  intros Hs v [[y i] l]. unfold dropWhile_body.
  destruct (negb (cb_fun p v i)), y; wrapper_cases b.
Qed.

Lemma takeWhile_body_pulls (L : Type) (b : Body V L) (p : Callback V bool) :
  (forall v l, pulls (snd (b v l)) = 0%nat) ->
  forall v l, pulls (snd (takeWhile_body p b v l)) = 0%nat.
Proof.
  intros Hs v [[i x] l]. unfold takeWhile_body.
  destruct (cb_fun p v i); simpl negb; wrapper_cases b.
Qed.

Lemma take_body_pulls (L : Type) (b : Body V L) n :
  (forall v l, pulls (snd (b v l)) = 0%nat) ->
  forall v l, pulls (snd (take_body n b v l)) = 0%nat.
Proof. intros Hs v [[i x] l]. unfold take_body. wrapper_cases b. Qed.

Lemma drop_body_pulls (L : Type) (b : Body V L) n :
  (forall v l, pulls (snd (b v l)) = 0%nat) ->
  forall v l, pulls (snd (drop_body n b v l)) = 0%nat.
Proof. intros Hs v [i l]. unfold drop_body. wrapper_cases b. Qed.

Ltac chain_step IH W Hc Hp Hnot :=
  match goal with
  | |- context [foreach ?fuel ?s1 (W ?b) ?l0 ?st] =>
      let H := fresh "H" in
      pose proof (IH _ (W b) _ l0 st _ Hc Hp Hnot) as H;
      destruct (foreach fuel s1 (W b) l0 st) as [[[? ?] ?] ?];
      repeat match goal with x : (_ * _)%type |- _ => destruct x end;
      cbn [fst snd] in *; exact H
  end.

(** A callback of the consumer, counted by the consumer, stays counted under
    a chain that does not use its name. *)
Lemma chain_counts (fuel : nat) (xs : list V) (sz : Z) (ops : list (Op V)) :
  forall (L : Type) (b : Body V L) (k : L -> Z) l st name,
    counts name k b -> (forall v m, pulls (snd (b v m)) = 0%nat) ->
    ~ In name (flat_map (@op_names V) ops) ->
    counted name (k l)
      (snd (foreach fuel (chain (BaseSequence xs sz) ops) b l st))
      (List.length xs) /\
    k (snd (fst (fst (foreach fuel (chain (BaseSequence xs sz) ops) b l st)))) =
    k l + Z.of_nat (calls_of name
            (snd (foreach fuel (chain (BaseSequence xs sz) ops) b l st))).
Proof.
  induction ops as [|op ops IH] using rev_ind;
    intros L b k l st name Hc Hp Hnot.
  - unfold chain; simpl.
    pose proof (each_counts Hc Hp xs l) as H.
    destruct (each xs b l) as [[c m] e]. unfold counted. cbn [fst snd] in *.
    tauto.
  - rewrite chain_snoc. rewrite flat_map_app, in_app_iff in Hnot.
    assert (Hops : ~ In name (flat_map (@op_names V) ops)) by tauto.
    assert (Hop : ~ In name (op_names op)).
    { intros Hin. apply Hnot. right. simpl. now rewrite app_nil_r. }
    set (s1 := chain (BaseSequence xs sz) ops) in *.
    destruct op; cbn [apply_op fst op_names In] in *;
      try rewrite foreach_drop;
      unfold map, new_MapSequence, filter, take, new_TakeSequence,
             dropWhile, takeWhile;
      cbn [foreach].
    + assert (Hn : name <> cb_name transform) by (intros ->; tauto).
      chain_step IH (map_body (L:=L) transform)
        (@map_body_counts L b transform name k Hn Hc)
        (@map_body_pulls L b transform Hp) Hops.
    + assert (Hn : name <> cb_name predicate) by (intros ->; tauto).
      chain_step IH (filter_body (L:=L) predicate)
        (@filter_body_counts L b predicate name k Hn Hc)
        (@filter_body_pulls L b predicate Hp) Hops.
    + chain_step IH (take_body (V:=V) (L:=L) n)
        (@take_body_counts L b n name k Hc) (@take_body_pulls L b n Hp) Hops.
    + chain_step IH (drop_body (V:=V) (L:=L) n)
        (@drop_body_counts L b n name k Hc) (@drop_body_pulls L b n Hp) Hops.
    + assert (Hn : name <> cb_name predicate) by (intros ->; tauto).
      chain_step IH (dropWhile_body (L:=L) predicate)
        (@dropWhile_body_counts L b predicate name k Hn Hc)
        (@dropWhile_body_pulls L b predicate Hp) Hops.
    + assert (Hn : name <> cb_name predicate) by (intros ->; tauto).
      chain_step IH (takeWhile_body (L:=L) predicate)
        (@takeWhile_body_counts L b predicate name k Hn Hc)
        (@takeWhile_body_pulls L b predicate Hp) Hops.
Qed.

Ltac stage_finish H fuel s1 :=
  try fold s1 in H;
  match goal with
  | |- context [foreach fuel s1 ?b ?l0 ?st] =>
      destruct (foreach fuel s1 b l0 st) as [[[? ?] ?] ?];
      repeat match goal with x : (_ * _)%type |- _ => destruct x end;
      cbn [fst snd] in *; exact H
  end.

(** A callback of the chain is counted whatever the consumer, as long as the
    names are distinct. *)
Lemma chain_stage (fuel : nat) (xs : list V) (sz : Z) (ops : list (Op V)) :
  forall (L : Type) (b : Body V L) l st name,
    In name (flat_map (@op_names V) ops) ->
    NoDup (flat_map (@op_names V) ops) ->
    silent name b -> (forall v m, pulls (snd (b v m)) = 0%nat) ->
    counted name 0
      (snd (foreach fuel (chain (BaseSequence xs sz) ops) b l st))
      (List.length xs).
Proof.
  induction ops as [|op ops IH] using rev_ind;
    intros L b l st name Hin Hnd Hs Hp; [contradiction|].
  rewrite chain_snoc. rewrite flat_map_app in Hin, Hnd.
  rewrite in_app_iff in Hin.
  set (s1 := chain (BaseSequence xs sz) ops) in *.
  destruct op; cbn [apply_op fst op_names flat_map app In] in *;
    try rewrite app_nil_r in *;
    try rewrite foreach_drop;
    unfold map, new_MapSequence, filter, take, new_TakeSequence,
           dropWhile, takeWhile;
    cbn [foreach].
  - apply NoDup_remove in Hnd. rewrite app_nil_r in Hnd. destruct Hnd as [Hnd Hni].
    destruct Hin as [Hin|[<-|[]]].
    + assert (Hn : name <> cb_name transform) by (intros ->; tauto).
      pose proof (IH _ (map_body transform b) (0, l) st name Hin Hnd
                    (@map_body_silent L b transform name Hn Hs)
                    (@map_body_pulls L b transform Hp)) as H.
      stage_finish H fuel s1.
    + pose proof (proj1 (@chain_counts fuel xs sz ops _ (map_body transform b) fst
                    (0, l) st (cb_name transform)
                    (@map_body_own L b transform Hs)
                    (@map_body_pulls L b transform Hp) Hni)) as H.
      stage_finish H fuel s1.
  - apply NoDup_remove in Hnd. rewrite app_nil_r in Hnd. destruct Hnd as [Hnd Hni].
    destruct Hin as [Hin|[<-|[]]].
    + assert (Hn : name <> cb_name predicate) by (intros ->; tauto).
      pose proof (IH _ (filter_body predicate b) (0, l) st name Hin Hnd
                    (@filter_body_silent L b predicate name Hn Hs)
                    (@filter_body_pulls L b predicate Hp)) as H.
      stage_finish H fuel s1.
    + pose proof (proj1 (@chain_counts fuel xs sz ops _ (filter_body predicate b) fst
                    (0, l) st (cb_name predicate)
                    (@filter_body_own L b predicate Hs)
                    (@filter_body_pulls L b predicate Hp) Hni)) as H.
      stage_finish H fuel s1.
  - destruct Hin as [Hin|[]].
    pose proof (IH _ (take_body n b) (0, false, l) st name Hin Hnd
                  (@take_body_silent L b n name Hs)
                  (@take_body_pulls L b n Hp)) as H.
    stage_finish H fuel s1.
  - destruct Hin as [Hin|[]].
    pose proof (IH _ (drop_body n b) (0, l) st name Hin Hnd
                  (@drop_body_silent L b n name Hs)
                  (@drop_body_pulls L b n Hp)) as H.
    stage_finish H fuel s1.
  - apply NoDup_remove in Hnd. rewrite app_nil_r in Hnd. destruct Hnd as [Hnd Hni].
    destruct Hin as [Hin|[<-|[]]].
    + assert (Hn : name <> cb_name predicate) by (intros ->; tauto).
      pose proof (IH _ (dropWhile_body predicate b) (false, 0, l) st name Hin Hnd
                    (@dropWhile_body_silent L b predicate name Hn Hs)
                    (@dropWhile_body_pulls L b predicate Hp)) as H.
      stage_finish H fuel s1.
    + pose proof (proj1 (@chain_counts fuel xs sz ops _ (dropWhile_body predicate b)
                    (fun x => snd (fst x)) (false, 0, l) st (cb_name predicate)
                    (@dropWhile_body_own L b predicate Hs)
                    (@dropWhile_body_pulls L b predicate Hp) Hni)) as H.
      stage_finish H fuel s1.
  - apply NoDup_remove in Hnd. rewrite app_nil_r in Hnd. destruct Hnd as [Hnd Hni].
    destruct Hin as [Hin|[<-|[]]].
    + assert (Hn : name <> cb_name predicate) by (intros ->; tauto).
      pose proof (IH _ (takeWhile_body predicate b) (0, false, l) st name Hin Hnd
                    (@takeWhile_body_silent L b predicate name Hn Hs)
                    (@takeWhile_body_pulls L b predicate Hp)) as H.
      stage_finish H fuel s1.
    + pose proof (proj1 (@chain_counts fuel xs sz ops _ (takeWhile_body predicate b)
                    (fun x => fst (fst x)) (0, false, l) st (cb_name predicate)
                    (@takeWhile_body_own L b predicate Hs)
                    (@takeWhile_body_pulls L b predicate Hp) Hni)) as H.
      stage_finish H fuel s1.
Qed.

Lemma find_body_counts (q : Callback V bool) :
  counts (cb_name q) fst (find_body q).
Proof.
  intros v [i r]. unfold find_body. right.
  destruct (cb_fun q v i); cbn [fst snd]; rewrite indices_of_call, Nat.eqb_refl;
    auto.
Qed.

Lemma find_body_silent (q : Callback V bool) (name : nat) :
  name <> cb_name q -> silent name (find_body q).
Proof.
  intros Hn v [i r]. unfold find_body.
  destruct (cb_fun q v i); cbn [fst snd]; rewrite indices_of_call;
    replace (Nat.eqb (cb_name q) name) with false
      by (symmetry; apply Nat.eqb_neq; congruence);
    reflexivity.
Qed.

Lemma find_body_pulls (q : Callback V bool) v l :
  pulls (snd (find_body q v l)) = 0%nat.
Proof. destruct l as [i r]. unfold find_body. destruct (cb_fun q v i); reflexivity. Qed.

(** *** The exact trace of a chain *)

Lemma calls_on_app (name : nat) (a b : list (Event V)) :
  calls_on name (a ++ b) = calls_on name a ++ calls_on name b.
Proof. unfold calls_on. apply flat_map_app. Qed.

Lemma each_ext (L : Type) (b1 b2 : Body V L) (xs : list V) (l : L) :
  (forall v m, b1 v m = b2 v m) -> each xs b1 l = each xs b2 l.
Proof.
  intros Hb. revert l; induction xs as [|x xs IH]; intros l; simpl;
    [reflexivity|].
  rewrite Hb. destruct (b2 x l) as [[c m] e]. destruct c; try reflexivity.
  now rewrite IH.
Qed.

Lemma pulls_pull (x : V) (es : list (Event V)) :
  pulls (EPull x :: es) = S (pulls es).
Proof. reflexivity. Qed.

Lemma each_pulls_le (L : Type) (b : Body V L) (xs : list V) (l : L) :
  quiet b -> (pulls (snd (each xs b l)) <= List.length xs)%nat.
Proof.
  intros Hq. revert l; induction xs as [|x xs IH]; intros l; simpl;
    [unfold pulls; simpl; lia|].
  pose proof (Hq x l) as H0. destruct (b x l) as [[c m] e]. simpl in H0.
  destruct c; try (cbn [snd]; rewrite pulls_pull, H0; lia).
  specialize (IH m). destruct (each xs b m) as [[c2 m2] e2]. cbn [snd] in *.
  rewrite pulls_pull, pulls_app, H0. lia.
Qed.

(** A traversal of an array is the traversal of the values it pulled. *)
Lemma each_consumed (L : Type) (b : Body V L) (xs : list V) (l : L) :
  quiet b -> each (firstn (pulls (snd (each xs b l))) xs) b l = each xs b l.
Proof.
  intros Hq. revert l; induction xs as [|x xs IH]; intros l; simpl;
    [reflexivity|].
  pose proof (Hq x l) as H0. destruct (b x l) as [[c m] e] eqn:Hb.
  simpl in H0.
  destruct c;
    try (cbn [snd]; rewrite pulls_pull, H0; simpl; now rewrite Hb).
  specialize (IH m). destruct (each xs b m) as [[c2 m2] e2] eqn:Hrest.
  cbn [snd] in *.
  rewrite pulls_pull, pulls_app, H0. simpl. rewrite Hb, IH. reflexivity.
Qed.

(** A consumer that asks a name has asked it once on every value it
    received. *)
Lemma each_asks (L : Type) (name : nat) (k : L -> Z) (b : Body V L) :
  asks name k b -> quiet b ->
  forall ins l,
    pulls (snd (each ins b l)) = List.length ins ->
    calls_on name (snd (each ins b l)) = indexed_from (k l) ins.
Proof.
  intros Ha Hq. induction ins as [|v ins IH]; intros l Hall; [reflexivity|].
  simpl in *. destruct (Ha v l) as [Hcall Hk]. pose proof (Hq v l) as H0.
  destruct (b v l) as [[c m] e]. cbn [fst snd] in *.
  destruct c;
    try (cbn [snd] in *; rewrite pulls_pull, H0 in Hall;
         destruct ins; [|simpl in Hall; lia];
         change (EPull v :: e) with ([EPull v] ++ e);
         rewrite calls_on_app, Hcall; reflexivity).
  specialize (IH m). destruct (each ins b m) as [[c2 m2] e2].
  cbn [snd] in *.
  rewrite pulls_pull, pulls_app, H0 in Hall.
  change (EPull v :: e ++ e2) with ([EPull v] ++ e ++ e2).
  rewrite !calls_on_app, Hcall. simpl. rewrite IH by lia. now rewrite Hk.
Qed.

Lemma calls_on_pull (name : nat) (x : V) (es : list (Event V)) :
  calls_on name (EPull x :: es) = calls_on name es.
Proof. reflexivity. Qed.

Lemma removelast_cons (A : Type) (a : A) (l : list A) :
  l <> [] -> removelast (a :: l) = a :: removelast l.
Proof. destruct l; [congruence|reflexivity]. Qed.

Lemma each_nil_next (L : Type) (b : Body V L) (outs : list V) (l : L) :
  fst (fst (each outs b l)) <> Next -> outs <> [].
Proof. destruct outs; [simpl; congruence|discriminate]. Qed.

(** What the consumer of an intermediate operation receives and does, when the
    operation received [ins] and its loop took them all. *)
Lemma each_turn (K L : Type) (turn : V -> K -> Turn V K) (b : Body V L) :
  (forall v s, pulls (turn_events (turn v s)) = 0%nat) -> quiet b ->
  forall ins s l,
    pulls (snd (each ins (turn_body turn b) (s, l))) = List.length ins ->
    pulls (snd (each (handed turn s ins) b l)) =
      List.length (handed turn s ins) /\
    snd (snd (fst (each ins (turn_body turn b) (s, l)))) =
      snd (fst (each (handed turn s ins) b l)) /\
    (forall name,
       (forall v s, calls_on name (turn_events (turn v s)) = []) ->
       calls_on name (snd (each ins (turn_body turn b) (s, l))) =
       calls_on name (snd (each (handed turn s ins) b l))) /\
    (fst (fst (each (handed turn s ins) b l)) <> Next ->
     handed turn s (removelast ins) = removelast (handed turn s ins) /\
     fst (fst (each ins (turn_body turn b) (s, l))) <> Next).
Proof.
  intros Ht Hq. induction ins as [|v ins IH]; intros s l Hall.
  - simpl. repeat split; auto; congruence.
  - cbn [each handed] in *.
    assert (Hw : turn_body turn b v (s, l) =
                 match turn v s with
                 | Keep s' es => (Next, (s', l), es)
                 | Hand w s' es =>
                     let '(c, l1, es1) := b w l in (c, (s', l1), es ++ es1)
                 | Break s' es => (Stop, (s', l), es)
                 end) by reflexivity.
    rewrite Hw in *. clear Hw.
    pose proof (Ht v s) as Hes.
    destruct (turn v s) as [s' es | w s' es | s' es] eqn:Hturn;
      cbn [turn_events] in Hes.
    + specialize (IH s' l).
      destruct (each ins (turn_body turn b) (s', l)) as [[c2 m2] e2].
      cbn [fst snd] in *. rewrite pulls_pull, pulls_app, Hes in Hall. cbn [List.length] in Hall.
      destruct (IH ltac:(lia)) as (I1 & I2 & I3 & I4).
      split; [exact I1|]. split; [exact I2|]. split.
      * intros name Hm. pose proof (Hm v s) as Hm0. rewrite Hturn in Hm0.
        cbn [turn_events] in Hm0.
        rewrite calls_on_pull, calls_on_app, Hm0. now apply I3.
      * intros Hstop. destruct (I4 Hstop) as [I5 I6]. split; [|exact I6].
        assert (Hh : forall r, handed turn s (v :: r) = handed turn s' r)
          by (intros r; cbn [handed]; now rewrite Hturn).
        destruct ins as [|v2 ins]; [simpl in Hstop; congruence|].
        rewrite removelast_cons by discriminate. now rewrite Hh.
    + pose proof (Hq w l) as Hb. destruct (b w l) as [[c l1] es1] eqn:Hbw.
      cbn [snd] in Hb. destruct c.
      * specialize (IH s' l1).
        destruct (each ins (turn_body turn b) (s', l1)) as [[c2 m2] e2].
        cbn [fst snd] in *.
        rewrite pulls_pull, !pulls_app, Hes, Hb in Hall. cbn [List.length] in Hall.
        destruct (IH ltac:(lia)) as (I1 & I2 & I3 & I4).
        cbn [each]. rewrite Hbw.
        destruct (each (handed turn s' ins) b l1) as [[c3 m3] e3] eqn:Houts.
        cbn [fst snd] in *.
        split; [rewrite pulls_pull, pulls_app, Hb, I1; reflexivity|].
        split; [exact I2|]. split.
        -- intros name Hm. pose proof (Hm v s) as Hm0. rewrite Hturn in Hm0.
           cbn [turn_events] in Hm0.
           rewrite !calls_on_pull, !calls_on_app, Hm0. simpl.
           now rewrite (I3 name Hm).
        -- intros Hstop. destruct (I4 Hstop) as [I5 I6]. split; [|exact I6].
           assert (Hne : handed turn s' ins <> []).
           { intros Hnil. rewrite Hnil in Houts. simpl in Houts.
             inversion Houts; subst. congruence. }
           assert (Hh : forall r, handed turn s (v :: r) = w :: handed turn s' r)
             by (intros r; cbn [handed]; now rewrite Hturn).
           destruct ins as [|v2 ins]; [simpl in Hne; congruence|].
           rewrite removelast_cons by discriminate.
           rewrite Hh, (removelast_cons w Hne). now rewrite I5.
      * cbn [fst snd] in *. rewrite pulls_pull, pulls_app, Hes, Hb in Hall. cbn [List.length] in Hall.
        destruct ins; [|simpl in Hall; lia]. simpl. rewrite Hbw. cbn [fst snd].
        split; [rewrite pulls_pull, Hb; reflexivity|].
        split; [reflexivity|]. split.
        -- intros name Hm. pose proof (Hm v s) as Hm0. rewrite Hturn in Hm0.
           cbn [turn_events] in Hm0.
           now rewrite !calls_on_pull, calls_on_app, Hm0.
        -- intros _. split; [reflexivity|discriminate].
      * cbn [fst snd] in *. rewrite pulls_pull, pulls_app, Hes, Hb in Hall. cbn [List.length] in Hall.
        destruct ins; [|simpl in Hall; lia]. simpl. rewrite Hbw. cbn [fst snd].
        split; [rewrite pulls_pull, Hb; reflexivity|].
        split; [reflexivity|]. split.
        -- intros name Hm. pose proof (Hm v s) as Hm0. rewrite Hturn in Hm0.
           cbn [turn_events] in Hm0.
           now rewrite !calls_on_pull, calls_on_app, Hm0.
        -- intros _. split; [reflexivity|discriminate].
      * cbn [fst snd] in *. rewrite pulls_pull, pulls_app, Hes, Hb in Hall. cbn [List.length] in Hall.
        destruct ins; [|simpl in Hall; lia]. simpl. rewrite Hbw. cbn [fst snd].
        split; [rewrite pulls_pull, Hb; reflexivity|].
        split; [reflexivity|]. split.
        -- intros name Hm. pose proof (Hm v s) as Hm0. rewrite Hturn in Hm0.
           cbn [turn_events] in Hm0.
           now rewrite !calls_on_pull, calls_on_app, Hm0.
        -- intros _. split; [reflexivity|discriminate].
    + cbn [fst snd] in *. rewrite pulls_pull, Hes in Hall. cbn [List.length] in Hall.
      destruct ins; [|simpl in Hall; lia]. simpl.
      split; [reflexivity|]. split; [reflexivity|]. split.
      * intros name Hm. pose proof (Hm v s) as Hm0. rewrite Hturn in Hm0.
        cbn [turn_events] in Hm0. exact Hm0.
      * congruence.
Qed.

Lemma turn_body_quiet (K L : Type) (turn : V -> K -> Turn V K) (b : Body V L) :
  (forall v s, pulls (turn_events (turn v s)) = 0%nat) -> quiet b ->
  quiet (turn_body turn b).
Proof.
  intros Ht Hq v [s l]. unfold turn_body. specialize (Ht v s).
  destruct (turn v s) as [s' es | w s' es | s' es]; cbn [turn_events] in Ht;
    try exact Ht.
  pose proof (Hq w l) as Hb. destruct (b w l) as [[c l1] es1].
  cbn [snd] in *. now rewrite pulls_app, Ht, Hb.
Qed.

Lemma turn_body_mute (K L : Type) (turn : V -> K -> Turn V K) (b : Body V L)
    (name : nat) :
  (forall v s, calls_on name (turn_events (turn v s)) = []) -> mute name b ->
  mute name (turn_body turn b).
Proof.
  intros Ht Hm v [s l]. unfold turn_body. specialize (Ht v s).
  destruct (turn v s) as [s' es | w s' es | s' es]; cbn [turn_events] in Ht;
    try exact Ht.
  pose proof (Hm w l) as Hb. destruct (b w l) as [[c l1] es1].
  cbn [snd] in *. now rewrite calls_on_app, Ht, Hb.
Qed.

Lemma turn_body_asks (K L : Type) (turn : V -> K -> Turn V K) (b : Body V L)
    (name : nat) (k : K -> Z) :
  (forall v s, calls_on name (turn_events (turn v s)) = [(v, k s)] /\
               k (turn_state (turn v s)) = k s + 1) ->
  mute name b ->
  asks name (fun x => k (fst x)) (turn_body turn b).
Proof.
  intros Ht Hm v [s l]. unfold turn_body. specialize (Ht v s).
  destruct (turn v s) as [s' es | w s' es | s' es];
    cbn [turn_events turn_state] in Ht; try exact Ht.
  pose proof (Hm w l) as Hb. destruct (b w l) as [[c l1] es1].
  cbn [fst snd] in *. rewrite calls_on_app, Hb, app_nil_r. exact Ht.
Qed.

(** The six loops are their turns. *)

Lemma map_body_turn (L : Type) (b : Body V L) (f : Callback V V) v s l :
  map_body f b v (s, l) = turn_body (map_turn f) b v (s, l).
Proof.
  unfold map_body, turn_body, map_turn.
  now destruct (b (cb_fun f v s) l) as [[c l1] es1].
Qed.

Lemma filter_body_turn (L : Type) (b : Body V L) (p : Callback V bool) v s l :
  filter_body p b v (s, l) = turn_body (filter_turn p) b v (s, l).
Proof.
  unfold filter_body, turn_body, filter_turn.
  destruct (cb_fun p v s); [|reflexivity].
  now destruct (b v l) as [[c l1] es1].
Qed.

Lemma take_body_turn (L : Type) (b : Body V L) (n : Z) v s l :
  take_body n b v (s, l) = turn_body (take_turn n) b v (s, l).
Proof.
  destruct s as [t br]. unfold take_body, turn_body, take_turn.
  destruct (t <? n); [|reflexivity].
  now destruct (b v l) as [[c l1] es1].
Qed.

Lemma drop_body_turn (L : Type) (b : Body V L) (n : Z) v s l :
  drop_body n b v (s, l) = turn_body (drop_turn n) b v (s, l).
Proof.
  unfold drop_body, turn_body, drop_turn.
  destruct (s >=? n); [|reflexivity].
  now destruct (b v l) as [[c l1] es1].
Qed.

Lemma dropWhile_body_turn (L : Type) (b : Body V L) (p : Callback V bool) v s l :
  dropWhile_body p b v (s, l) = turn_body (dropWhile_turn p) b v (s, l).
Proof.
  destruct s as [y i]. unfold dropWhile_body, turn_body, dropWhile_turn.
  destruct (if negb (cb_fun p v i) then true else y); [|reflexivity].
  now destruct (b v l) as [[c l1] es1].
Qed.

Lemma takeWhile_body_turn (L : Type) (b : Body V L) (p : Callback V bool) v s l :
  takeWhile_body p b v (s, l) = turn_body (takeWhile_turn p) b v (s, l).
Proof.
  destruct s as [i br]. unfold takeWhile_body, turn_body, takeWhile_turn.
  destruct (cb_fun p v i); simpl; [|reflexivity].
  now destruct (b v l) as [[c l1] es1].
Qed.

(** What the turns hand on is what the operations yield. *)

Lemma handed_map (f : Callback V V) (ins : list V) (i : Z) :
  handed (map_turn f) i ins = List.map (at_index (cb_fun f)) (indexed_from i ins).
Proof.
  revert i; induction ins as [|v ins IH]; intros i; simpl; [reflexivity|].
  now rewrite IH.
Qed.

Lemma handed_filter (p : Callback V bool) (ins : list V) (i : Z) :
  handed (filter_turn p) i ins =
  List.map fst (List.filter (at_index (cb_fun p)) (indexed_from i ins)).
Proof.
  revert i; induction ins as [|v ins IH]; intros i; simpl; [reflexivity|].
  unfold filter_turn at 1. destruct (cb_fun p v i); simpl; now rewrite IH.
Qed.

Lemma handed_take (n : Z) (ins : list V) (t : Z) (br : bool) :
  0 <= t -> handed (take_turn n) (t, br) ins = firstn (Z.to_nat (n - t)) ins.
Proof.
  revert t; induction ins as [|v ins IH]; intros t Ht; simpl;
    [now rewrite firstn_nil|].
  destruct (Z.ltb_spec t n).
  - rewrite IH by lia.
    replace (Z.to_nat (n - t)) with (S (Z.to_nat (n - (t + 1)))) by lia.
    reflexivity.
  - now replace (Z.to_nat (n - t)) with 0%nat by lia.
Qed.

Lemma handed_drop (n : Z) (ins : list V) (d : Z) :
  0 <= d -> handed (drop_turn n) d ins = skipn (Z.to_nat (n - d)) ins.
Proof.
  revert d; induction ins as [|v ins IH]; intros d Hd; simpl;
    [now rewrite skipn_nil|].
  unfold drop_turn at 1. destruct (Z.geb_spec d n).
  - rewrite IH by lia.
    replace (Z.to_nat (n - d)) with 0%nat by lia.
    now replace (Z.to_nat (n - (d + 1))) with 0%nat by lia.
  - rewrite IH by lia.
    replace (Z.to_nat (n - d)) with (S (Z.to_nat (n - (d + 1)))) by lia.
    reflexivity.
Qed.

Lemma handed_dropWhile (p : Callback V bool) (ins : list V) (y : bool) (i : Z) :
  handed (dropWhile_turn p) (y, i) ins =
  if y then ins else dropWhile_spec (cb_fun p) i ins.
Proof.
  revert y i; induction ins as [|v ins IH]; intros y i; simpl;
    [now destruct y|].
  destruct (cb_fun p v i), y; simpl; rewrite IH; reflexivity.
Qed.

Lemma handed_takeWhile (p : Callback V bool) (ins : list V) (i : Z) (br : bool) :
  handed (takeWhile_turn p) (i, br) ins = takeWhile_spec (cb_fun p) i ins.
Proof.
  revert i; induction ins as [|v ins IH]; intros i; simpl; [reflexivity|].
  destruct (cb_fun p v i); [now rewrite IH|reflexivity].
Qed.

Lemma calls_on_one (name own : nat) (v : V) (i : Z) :
  calls_on name [ECall own v i] = if Nat.eqb own name then [(v, i)] else [].
Proof. unfold calls_on. simpl. now rewrite app_nil_r. Qed.

Ltac own_call :=
  rewrite ?calls_on_one;
  repeat match goal with
         | H : ?a <> ?b |- context [Nat.eqb ?b ?a] =>
             replace (Nat.eqb b a) with false
               by (symmetry; apply Nat.eqb_neq; congruence)
         | |- context [Nat.eqb ?a ?a] => rewrite Nat.eqb_refl
         end;
  auto.

Lemma map_implements (f : Callback V V) :
  implements (OpMap f) (map_turn f) 0 (fun i => i).
Proof.
  split; [reflexivity|]. split; [intros ins; apply handed_map|]. split.
  - intros name Hn v s. simpl in Hn. assert (name <> cb_name f) by (intros ->; apply Hn; now left).
    unfold map_turn; simpl. own_call.
  - intros name [<- | []]. split; [reflexivity|]. intros v s.
    unfold map_turn; simpl. own_call.
Qed.

Lemma filter_implements (p : Callback V bool) :
  implements (OpFilter p) (filter_turn p) 0 (fun i => i).
Proof.
  split; [intros v s; unfold filter_turn; now destruct (cb_fun p v s)|].
  split; [intros ins; apply handed_filter|]. split.
  - intros name Hn v s. simpl in Hn. assert (name <> cb_name p) by (intros ->; apply Hn; now left).
    unfold filter_turn; destruct (cb_fun p v s); simpl; own_call.
  - intros name [<- | []]. split; [reflexivity|]. intros v s.
    unfold filter_turn; destruct (cb_fun p v s); simpl; own_call.
Qed.

Lemma take_implements (n : Z) :
  implements (@OpTake V n) (take_turn n) (0, false) fst.
Proof.
  split; [intros v [t br]; unfold take_turn; now destruct (t <? n)|].
  split; [intros ins; rewrite handed_take by lia; now rewrite Z.sub_0_r|].
  split.
  - intros name _ v [t br]. unfold take_turn; now destruct (t <? n).
  - intros name [].
Qed.

Lemma drop_implements (n : Z) :
  implements (@OpDrop V n) (drop_turn n) 0 (fun d => d).
Proof.
  split; [intros v d; unfold drop_turn; now destruct (d >=? n)|].
  split; [intros ins; rewrite handed_drop by lia; now rewrite Z.sub_0_r|].
  split.
  - intros name _ v d. unfold drop_turn; now destruct (d >=? n).
  - intros name [].
Qed.

Lemma dropWhile_implements (p : Callback V bool) :
  implements (OpDropWhile p) (dropWhile_turn p) (false, 0) snd.
Proof.
  split.
  { intros v [y i]. unfold dropWhile_turn.
    now destruct (if negb (cb_fun p v i) then true else y). }
  split; [intros ins; now rewrite handed_dropWhile|]. split.
  - intros name Hn v [y i]. simpl in Hn. assert (name <> cb_name p) by (intros ->; apply Hn; now left).
    unfold dropWhile_turn.
    destruct (if negb (cb_fun p v i) then true else y); simpl; own_call.
  - intros name [<- | []]. split; [reflexivity|]. intros v [y i].
    unfold dropWhile_turn.
    destruct (if negb (cb_fun p v i) then true else y); simpl; own_call.
Qed.

Lemma takeWhile_implements (p : Callback V bool) :
  implements (OpTakeWhile p) (takeWhile_turn p) (0, false) fst.
Proof.
  split; [intros v [i br]; unfold takeWhile_turn; now destruct (cb_fun p v i)|].
  split; [intros ins; apply handed_takeWhile|]. split.
  - intros name Hn v [i br]. simpl in Hn. assert (name <> cb_name p) by (intros ->; apply Hn; now left).
    unfold takeWhile_turn; destruct (cb_fun p v i); simpl; own_call.
  - intros name [<- | []]. split; [reflexivity|]. intros v [i br].
    unfold takeWhile_turn; destruct (cb_fun p v i); simpl; own_call.
Qed.

Lemma NoDup_app_disjoint (A : Type) (a b : list A) (x : A) :
  NoDup (a ++ b) -> In x a -> In x b -> False.
Proof.
  induction a as [|y a IH]; simpl; [tauto|].
  intros Hnd [-> | Hin] Hb; inversion Hnd; subst.
  - apply H1. apply in_app_iff. now right.
  - now apply IH.
Qed.

Lemma reaching_snoc (ops : list (Op V)) (op : Op V) (vs : list V) :
  reaching (ops ++ [op]) vs = stage_values op (reaching ops vs).
Proof. unfold reaching. now rewrite fold_left_app. Qed.

(** One more operation at the end of the chain: its loop is the consumer of
    the chain before it. *)
Lemma traced_snoc (K L : Type) (xs : list V) (ops : list (Op V)) (op : Op V)
    (turn : V -> K -> Turn V K) (s0 : K) (k : K -> Z) (b : Body V L)
    (W : Body V (K * L)) (l : L) (lend : K * L) (es : list (Event V)) :
  implements op turn s0 k ->
  (forall v s m, W v (s, m) = turn_body turn b v (s, m)) ->
  quiet b ->
  traced xs ops W (s0, l) lend es ->
  traced xs (ops ++ [op]) b l (snd lend) es.
Proof.
  intros (Hq & Hh & Hm & Ha) Hw Hb (T0 & T1 & T2 & T3 & T4).
  unfold traced. cbv zeta in *.
  set (pre := firstn (pulls es) xs) in *.
  set (outs' := reaching ops pre) in *.
  assert (Hext : forall ins, each ins W (s0, l) =
                             each ins (turn_body turn b) (s0, l)).
  { intros ins. apply each_ext. intros v [s m]. apply Hw. }
  rewrite Hext in T0, T1, T2, T4.
  destruct (@each_turn K L turn b Hq Hb outs' s0 l T0) as (E1 & E2 & E3 & E4).
  rewrite reaching_snoc. fold outs'. rewrite <- (Hh outs').
  split; [exact E1|]. split; [now rewrite T1, E2|]. split; [|split].
  - intros name Hn. rewrite flat_map_app, in_app_iff in Hn.
    rewrite T2 by tauto. apply E3. apply Hm.
    intros Hin. apply Hn. right. simpl. now rewrite app_nil_r.
  - intros Hnd i o name Hnth Hin Hmute.
    rewrite flat_map_app in Hnd. simpl in Hnd. rewrite app_nil_r in Hnd.
    destruct (Nat.lt_ge_cases i (List.length ops)) as [Hlt | Hge].
    + rewrite nth_error_app1 in Hnth by exact Hlt.
      assert (Hops : In name (flat_map (@op_names V) ops)).
      { apply in_flat_map. exists o. split; [|exact Hin].
        eapply nth_error_In; exact Hnth. }
      assert (Hop : ~ In name (op_names op)).
      { intros Hin'. exact (@NoDup_app_disjoint _ _ _ name Hnd Hops Hin'). }
      rewrite firstn_app.
      replace (i - List.length ops)%nat with 0%nat by lia.
      simpl. rewrite app_nil_r.
      apply (T3 (NoDup_app_remove_r _ _ Hnd) i o name Hnth Hin).
      intros v [s m]. rewrite Hw.
      apply (@turn_body_mute K L turn b name (Hm name Hop) Hmute).
    + rewrite nth_error_app2 in Hnth by exact Hge.
      destruct (i - List.length ops)%nat as [|j] eqn:Hi;
        [|destruct j; discriminate].
      simpl in Hnth. inversion Hnth; subst o.
      assert (Hops : ~ In name (flat_map (@op_names V) ops)).
      { intros Hin'. exact (@NoDup_app_disjoint _ _ _ name Hnd Hin' Hin). }
      rewrite firstn_app, Hi. simpl. rewrite app_nil_r.
      rewrite firstn_all2 by lia. fold outs'.
      rewrite (T2 name Hops).
      destruct (Ha name Hin) as [Hk0 Hstep].
      pose proof (@turn_body_asks K L turn b name k Hstep Hmute) as Hasks.
      rewrite (@each_asks (K * L) name (fun x => k (fst x)) (turn_body turn b)
                 Hasks (@turn_body_quiet K L turn b Hq Hb) outs' (s0, l) T0).
      cbn [fst]. now rewrite Hk0.
  - intros Hstop. destruct (E4 Hstop) as [E5 E6].
    rewrite reaching_snoc, (T4 E6), <- (Hh (removelast outs')).
    exact E5.
Qed.

Ltac trace_step IH W Himpl Hturn Hquiet Hq :=
  match goal with
  | |- context [foreach ?fuel ?s1 (W ?b) ?l0 ?st] =>
      let H := fresh "H" in
      pose proof (IH _ (W b) l0 st Hquiet) as H;
      destruct (foreach fuel s1 (W b) l0 st) as [[[? ?] ?] ?];
      repeat match goal with x : (_ * _)%type |- _ => destruct x end;
      cbn [fst snd] in *;
      exact (traced_snoc Himpl (fun v s m => Hturn v s m) Hq H)
  end.

(** The trace of a traversal of a chain over an array. *)
Lemma chain_trace (fuel : nat) (xs : list V) (sz : Z) (ops : list (Op V)) :
  forall (L : Type) (b : Body V L) l st,
    quiet b ->
    traced xs ops b l
      (snd (fst (fst (foreach fuel (chain (BaseSequence xs sz) ops) b l st))))
      (snd (foreach fuel (chain (BaseSequence xs sz) ops) b l st)).
Proof.
  induction ops as [|op ops IH] using rev_ind; intros L b l st Hq.
  - unfold chain; simpl.
    pose proof (each_consumed xs l Hq) as Hsame.
    pose proof (each_pulls_le xs l Hq) as Hle.
    destruct (each xs b l) as [[c m] e]. cbn [fst snd] in *.
    unfold traced, reaching. simpl. rewrite Hsame. cbn [fst snd].
    split; [now rewrite length_firstn, Nat.min_l|].
    split; [reflexivity|]. split; [reflexivity|]. split; [|reflexivity].
    intros _ [|i] op name Hnth; discriminate.
  - rewrite chain_snoc.
    set (s1 := chain (BaseSequence xs sz) ops) in *.
    destruct op; cbn [apply_op fst];
      try rewrite foreach_drop;
      unfold map, new_MapSequence, filter, take, new_TakeSequence,
             dropWhile, takeWhile;
      cbn [foreach].
    + trace_step IH (map_body (L:=L) transform) (map_implements transform)
        (@map_body_turn L b transform) (@map_body_pulls L b transform Hq) Hq.
    + trace_step IH (filter_body (L:=L) predicate) (filter_implements predicate)
        (@filter_body_turn L b predicate)
        (@filter_body_pulls L b predicate Hq) Hq.
    + trace_step IH (take_body (V:=V) (L:=L) n) (take_implements n)
        (@take_body_turn L b n) (@take_body_pulls L b n Hq) Hq.
    + trace_step IH (drop_body (V:=V) (L:=L) n) (drop_implements n)
        (@drop_body_turn L b n) (@drop_body_pulls L b n Hq) Hq.
    + trace_step IH (dropWhile_body (L:=L) predicate)
        (dropWhile_implements predicate) (@dropWhile_body_turn L b predicate)
        (@dropWhile_body_pulls L b predicate Hq) Hq.
    + trace_step IH (takeWhile_body (L:=L) predicate)
        (takeWhile_implements predicate) (@takeWhile_body_turn L b predicate)
        (@takeWhile_body_pulls L b predicate Hq) Hq.
Qed.

Lemma each_find_match (q : Callback V bool) (outs : list V) (i : Z) (v : V) :
  pulls (snd (each outs (find_body q) (i, None))) = List.length outs ->
  snd (snd (fst (each outs (find_body q) (i, None)))) = Some v ->
  fst (fst (each outs (find_body q) (i, None))) = Stop /\
  exists front,
    outs = front ++ [v] /\
    cb_fun q v (i + Z.of_nat (List.length front)) = true /\
    forall j w, nth_error front j = Some w -> cb_fun q w (i + Z.of_nat j) = false.
Proof.
  revert i; induction outs as [|x outs IH]; intros i Hall Hres;
    [discriminate|].
  cbn [each] in *.
  assert (Hstep : find_body q x (i, None) =
                  if cb_fun q x i
                  then (Stop, (i + 1, Some x), [ECall (cb_name q) x i])
                  else (Next, (i + 1, None), [ECall (cb_name q) x i]))
    by reflexivity.
  rewrite Hstep in *. clear Hstep.
  destruct (cb_fun q x i) eqn:Hq.
  - cbn [fst snd] in *. rewrite pulls_pull in Hall.
    destruct outs; [|simpl in Hall; discriminate].
    inversion Hres; subst x. split; [reflexivity|].
    exists []. simpl. rewrite Z.add_0_r. split; [reflexivity|].
    split; [exact Hq|]. intros [|j] w; discriminate.
  - specialize (IH (i + 1)).
    destruct (each outs (find_body q) (i + 1, None)) as [[c m] e].
    cbn [fst snd] in *. rewrite pulls_pull in Hall.
    change (pulls ([ECall (cb_name q) x i] ++ e)) with (pulls e) in Hall.
    destruct (IH ltac:(simpl in Hall; lia) Hres) as (Hc & front & -> & Hv & Hfront).
    split; [exact Hc|]. exists (x :: front). split; [reflexivity|]. split.
    + rewrite <- Hv. f_equal. simpl List.length. lia.
    + intros [|j] w Hn; simpl in Hn.
      * inversion Hn; subst w. now rewrite Z.add_0_r.
      * rewrite <- (Hfront j w Hn). f_equal. lia.
Qed.

Lemma find_body_asks (q : Callback V bool) :
  asks (cb_name q) fst (find_body q).
Proof.
  intros v [i r]. unfold find_body.
  destruct (cb_fun q v i); cbn [fst snd]; rewrite calls_on_one, Nat.eqb_refl;
    auto.
Qed.

Lemma find_body_mute (q : Callback V bool) (name : nat) :
  name <> cb_name q -> mute name (find_body q).
Proof.
  intros Hn v [i r]. unfold find_body.
  destruct (cb_fun q v i); cbn [snd]; rewrite calls_on_one;
    destruct (Nat.eqb_spec (cb_name q) name); congruence.
Qed.

(** C6. Building a chain of [map], [filter], [take], [drop], [dropWhile] and
    [takeWhile] over an array invokes no callback. When [find] on the chain
    over [xs] returns a match, the values [ys] that may follow [xs] in the
    array change neither its result nor its trace: nothing after the matching
    value is pulled or handed to a callback. In that trace every callback of
    the chain, and the predicate of [find], is invoked with the indexes 0, 1,
    2, ... in turn, at most once per value pulled, and no more values are
    pulled than [xs] holds. The values inspected are the values pulled. The
    match is the last value that the chain yields over them, and it comes
    with the last of them: without it the chain yields only the values before
    the match, all of which fail the predicate. The predicate of [find] is
    invoked exactly once on each value that the chain yields over the values
    inspected, in order and with its position; the callback of every stage is
    invoked exactly once on each value that the stages before it yield over
    the values inspected, in order and with its position. *)
Theorem find_is_lazy (fuel : nat) (ops : list (Op V)) (q : Callback V bool)
    (xs ys : list V) (st st' : Store V) (v : V) (es : list (Event V)) :
  NoDup (chain_names ops q) ->
  find fuel (chain (of_ xs) ops) q st = (Return (Some v), st', es) ->
  snd (build (of_ (xs ++ ys)) ops) = [] /\
  find fuel (chain (of_ (xs ++ ys)) ops) q st = (Return (Some v), st', es) /\
  (forall name, In name (chain_names ops q) -> counted name 0 es (List.length xs)) /\
  (let inspected := firstn (pulls es) xs in
   exists front,
     reaching ops inspected = front ++ [v] /\
     reaching ops (removelast inspected) = front /\
     cb_fun q v (Z.of_nat (List.length front)) = true /\
     (forall j w, nth_error front j = Some w -> cb_fun q w (Z.of_nat j) = false) /\
     calls_on (cb_name q) es = indexed (front ++ [v]) /\
     (forall i op name,
        nth_error ops i = Some op -> In name (op_names op) ->
        calls_on name es = indexed (reaching (firstn i ops) inspected))).
Proof.
  intros Hnd H. split; [apply build_no_events|].
  destruct (@find_matched_stops fuel _ q st st' v es H) as [i Hrun]. split.
  - unfold find, of_ in *.
    now rewrite (@chain_prefix fuel ops xs ys _ (Z.of_nat (List.length (xs ++ ys)))
                   _ _ _ _ _ _ _ Hrun).
  - unfold chain_names in *.
    apply NoDup_remove in Hnd. rewrite app_nil_r in Hnd. destruct Hnd as [Hnd Hni].
    unfold of_ in Hrun. split.
    + intros name Hin. apply in_app_iff in Hin.
      destruct Hin as [Hin|[<-|[]]].
      * assert (Hn : name <> cb_name q) by (intros ->; tauto).
        pose proof (@chain_stage fuel xs (Z.of_nat (List.length xs)) ops _
                      (find_body q) (0, None) st name Hin Hnd
                      (@find_body_silent q name Hn) (find_body_pulls q)) as Hc.
        now rewrite Hrun in Hc.
      * pose proof (proj1 (@chain_counts fuel xs (Z.of_nat (List.length xs)) ops _
                      (find_body q) fst (0, None) st (cb_name q)
                      (find_body_counts q) (find_body_pulls q) Hni)) as Hc.
        now rewrite Hrun in Hc.
    + pose proof (@chain_trace fuel xs (Z.of_nat (List.length xs)) ops _
                    (find_body q) (0, None) st (find_body_pulls q)) as Ht.
      rewrite Hrun in Ht. cbn [fst snd] in Ht.
      destruct Ht as (T0 & T1 & T2 & T3 & T4). cbv zeta in *.
      set (inspected := firstn (pulls es) xs) in *.
      set (outs := reaching ops inspected) in *.
      assert (Hres : snd (snd (fst (each outs (find_body q) (0, None)))) = Some v)
        by now rewrite <- T1.
      destruct (each_find_match q outs 0 T0 Hres)
        as (Hstop & front & Houts & Hv & Hfront).
      exists front. split; [exact Houts|]. split.
      { rewrite T4 by (rewrite Hstop; discriminate).
        rewrite Houts. apply removelast_last. }
      split; [exact Hv|]. split; [exact Hfront|]. split.
      { rewrite (T2 _ Hni).
        rewrite (each_asks (find_body_asks q) (find_body_pulls q) outs (0, None) T0).
        now rewrite <- Houts. }
      intros j op name Hnth Hin.
      apply (T3 Hnd j op name Hnth Hin). apply find_body_mute.
      intros ->. apply Hni. apply in_flat_map. exists op.
      split; [eapply nth_error_In; exact Hnth|exact Hin].
Qed.

End Laziness.

Lemma find_is_lazy_witness :
  let small := mkCallback 1%nat (fun (x : Z) (_ : Z) => x <? 2) in
  let inc := mkCallback 2%nat (fun (x : Z) (_ : Z) => x + 1) in
  let even := mkCallback 3%nat (fun (x : Z) (_ : Z) => Z.even x) in
  let big := mkCallback 4%nat (fun (x : Z) (_ : Z) => 3 <? x) in
  let ops := [OpDropWhile small; OpMap inc; OpFilter even] in
  let es := [EPull 1; ECall 1 1 0;
             EPull 2; ECall 1 2 1; ECall 2 2 0; ECall 3 3 0;
             EPull 3; ECall 1 3 2; ECall 2 3 1; ECall 3 4 1; ECall 4 4 0] in
  NoDup (chain_names ops big) /\
  find 0 (chain (of_ [1; 2; 3; 4; 5]) ops) big initial_store =
    (Return (Some 4), initial_store, es) /\
  find 0 (chain (of_ ([1; 2; 3; 4; 5] ++ [6; 7])) ops) big initial_store =
    (Return (Some 4), initial_store, es) /\
  counted 1 0 es 5 /\ counted 4 0 es 5 /\
  firstn (pulls es) [1; 2; 3; 4; 5] = [1; 2; 3] /\
  reaching ops [1; 2; 3] = [4] /\
  reaching ops [1; 2] = [] /\
  calls_on 1 es = [(1, 0); (2, 1); (3, 2)] /\
  calls_on 2 es = [(2, 0); (3, 1)] /\
  calls_on 3 es = [(3, 0); (4, 1)] /\
  calls_on 4 es = [(4, 0)].
Proof.
  intros small inc even big ops es.
  assert (Hnd : NoDup (chain_names ops big)).
  { repeat constructor; simpl; intuition discriminate. }
  assert (H : find 0 (chain (of_ [1; 2; 3; 4; 5]) ops) big initial_store =
              (Return (Some 4), initial_store, es)) by reflexivity.
  destruct (@find_is_lazy Z 0 ops big [1; 2; 3; 4; 5] [6; 7] _ _ _ _ Hnd H)
    as (_ & Hfull & Hcount & front & Hlast & Hbefore & _ & _ & Hq & Hstage).
  split; [exact Hnd|]. split; [exact H|]. split; [exact Hfull|].
  split; [apply Hcount; simpl; auto|]. split; [apply Hcount; simpl; auto|].
  split; [reflexivity|]. split; [reflexivity|]. split; [reflexivity|].
  split; [exact (Hstage 0%nat (OpDropWhile small) 1%nat eq_refl (or_introl eq_refl))|].
  split; [exact (Hstage 1%nat (OpMap inc) 2%nat eq_refl (or_introl eq_refl))|].
  split; [exact (Hstage 2%nat (OpFilter even) 3%nat eq_refl (or_introl eq_refl))|].
  rewrite <- Hlast in Hq. exact Hq.
Defined.

(** ** Terminal operations see the values of the sequence *)

Section Terminal.

Variable V : Type.

Local Abbreviation push := (fold_body (@push_operation V)).

Lemma each_snoc (L : Type) (b : Body V L) (xs : list V) (v : V) (l : L) :
  each (xs ++ [v]) b l =
  match each xs b l with
  | (Next, l1, es1) =>
      let '(c, l2, es2) := b v l1 in (c, l2, es1 ++ EPull v :: es2)
  | r => r
  end.
Proof.
  revert l; induction xs as [|x xs IH]; intros l; simpl.
  - destruct (b v l) as [[c l2] es2]. destruct c; now rewrite ?app_nil_r.
  - destruct (b x l) as [[c l1] es1]. destruct c; try reflexivity.
    rewrite IH. destruct (each xs b l1) as [[c2 l2] es2].
    destruct c2; try reflexivity.
    destruct (b v l2) as [[c3 l3] es3]. simpl. now rewrite app_assoc.
Qed.

(** The loop of a terminal operation over a sequence ends with the local
    variables it would end with over the array of the values of the
    sequence, whether it runs to the end or stops on its way. *)
Lemma foreach_on_values (fuel : nat) (s : Sequence V) (L A : Type)
    (b : Body V L) (result : L -> A) (l0 : L) (st st1 : Store V)
    (vs : list V) (es : list (Event V)) :
  (forall v l, fst (fst (b v l)) = Next \/ fst (fst (b v l)) = Stop) ->
  toArray fuel s st = (Return vs, st1, es) ->
  result_of (complete result (foreach fuel s b l0 st)) =
  Return (result (snd (fst (each vs b l0)))).
Proof.
  intros Hb H. destruct (toArray_run _ _ _ H) as [k Hrun]. cbv zeta in Hrun.
  set (R := fun (lA : L) (y : Z * list V) =>
         fst (each (snd y) b l0) = (Next, lA)).
  set (D := fun (lA : L) (y : Z * list V) =>
         fst (fst (each (snd y) b l0)) <> Next /\
         snd (fst (each (snd y) b l0)) = lA).
  assert (Hba : body_ahead R (fun _ _ _ => False) D b push).
  { intros v lA [j all] HR. unfold R, D in *; simpl in *.
    unfold fold_body, push_operation; simpl.
    rewrite each_snoc. destruct (each all b l0) as [[c l1] es1].
    simpl in HR. inversion HR; subst c l1.
    destruct (Hb v lA) as [Hc | Hc];
      destruct (b v lA) as [[c l2] es2]; simpl in *; subst c; simpl.
    - split; reflexivity.
    - right. split; [reflexivity|]. split; [discriminate|reflexivity]. }
  assert (Hst : stable D push).
  { intros v lA [j all] [Hc Hl]. unfold D in *; simpl in *.
    unfold fold_body, push_operation; simpl.
    rewrite each_snoc. destruct (each all b l0) as [[c l1] es1].
    simpl in *. destruct c; try congruence; split; auto; discriminate. }
  assert (Hrun2 : run_ahead (fun _ => True) R (fun _ _ _ => False) D
                    (foreach fuel s b l0 st) (foreach fuel s push (0, []) st)).
  { eapply proj1, foreach_ahead_both; auto using all_self_True, store_agree_refl.
    reflexivity. }
  rewrite Hrun in Hrun2. unfold run_ahead, post_ahead, result_of, complete in *.
  destruct (foreach fuel s b l0 st) as [[[c lA] t] e]. simpl in *.
  unfold R, D in Hrun2; simpl in Hrun2.
  destruct c; simpl.
  - destruct Hrun2 as (_ & HR & _). now rewrite HR.
  - destruct Hrun2 as [(Hc & _) | (_ & Hl)]; [discriminate|]. now rewrite Hl.
  - destruct Hrun2 as [(Hc & _) | (_ & Hl)]; [discriminate|]. now rewrite Hl.
  - discriminate.
Qed.

Lemma indexed_from_app (i : Z) (xs ys : list V) :
  indexed_from i (xs ++ ys) =
  indexed_from i xs ++ indexed_from (i + Z.of_nat (List.length xs)) ys.
Proof.
  revert i; induction xs as [|x xs IH]; intros i; simpl.
  - now rewrite Z.add_0_r.
  - rewrite IH. do 3 f_equal. lia.
Qed.

Lemma indexed_from_values (i : Z) (xs : list V) :
  List.map fst (indexed_from i xs) = xs.
Proof. revert i; induction xs as [|x xs IH]; intros i; simpl; now rewrite ?IH. Qed.

Lemma indexed_from_bounds (i : Z) (xs : list V) (v : V) (j : Z) :
  In (v, j) (indexed_from i xs) ->
  i <= j < i + Z.of_nat (List.length xs) /\
  nth_error xs (Z.to_nat (j - i)) = Some v.
Proof.
  revert i; induction xs as [|x xs IH]; intros i; simpl; [tauto|].
  intros [Heq | Hin].
  - inversion Heq; subst. rewrite Z.sub_diag. simpl. split; [lia|reflexivity].
  - destruct (IH _ Hin) as [Hb Hn]. split; [lia|].
    replace (Z.to_nat (j - i)) with (S (Z.to_nat (j - (i + 1)))) by lia.
    exact Hn.
Qed.

(** What the loops that never stop compute over an array, from the right. *)

Lemma each_fold (R : Type) (op : Operation V R) (xs : list V) (i : Z) (acc : R) :
  fst (each xs (fold_body op) (i, acc)) =
  (Next, (i + Z.of_nat (List.length xs),
          fold_left (fun a x => op_fun op a (fst x) (snd x)) (indexed_from i xs) acc)).
Proof.
  revert i acc; induction xs as [|x xs IH]; intros i acc; simpl.
  - now rewrite Z.add_0_r.
  - specialize (IH (i + 1) (op_fun op acc x i)).
    destruct (each xs (fold_body op) (i + 1, op_fun op acc x i)) as [[c l] e].
    simpl in *. rewrite IH. f_equal; f_equal; lia.
Qed.

Lemma each_count (p : option (Callback V bool)) (xs : list V) (i n : Z) :
  fst (each xs (count_body p) (i, n)) =
  (Next, (i + Z.of_nat (List.length xs),
          n + Z.of_nat (List.length
                (List.filter (at_index (default_true p)) (indexed_from i xs))))).
Proof.
  revert i n; induction xs as [|x xs IH]; intros i n; simpl.
  - now rewrite !Z.add_0_r.
  - specialize (IH (i + 1) (if default_true p x i then n + 1 else n)).
    destruct (each xs (count_body p) _) as [[c l] e].
    simpl in *. rewrite IH. destruct (default_true p x i); simpl;
      f_equal; f_equal; lia.
Qed.

Lemma each_findLast (p : Callback V bool) (xs : list V) (i : Z) (r : option V) :
  fst (each xs (findLast_body p) (i, r)) =
  (Next, (i + Z.of_nat (List.length xs),
          match List.find (at_index (cb_fun p)) (rev (indexed_from i xs)) with
          | Some x => Some (fst x)
          | None => r
          end)).
Proof.
  revert i r; induction xs as [|x xs IH] using rev_ind; intros i r; simpl.
  - now rewrite Z.add_0_r.
  - rewrite each_snoc. specialize (IH i r).
    destruct (each xs (findLast_body p) (i, r)) as [[c [j q]] e].
    simpl in IH. inversion IH; subst c j q. simpl.
    rewrite indexed_from_app, rev_app_distr, length_app. simpl.
    destruct (cb_fun p x (i + Z.of_nat (List.length xs))); simpl;
      f_equal; f_equal; lia.
Qed.

Lemma each_findLastIndex (name : nat) (q : V -> bool) (xs : list V) (i r : Z) :
  fst (each xs (findLastIndex_body name q) (r, i)) =
  (Next, (match List.find (fun x => q (fst x)) (rev (indexed_from i xs)) with
          | Some x => snd x
          | None => r
          end, i + Z.of_nat (List.length xs))).
Proof.
  revert i r; induction xs as [|x xs IH] using rev_ind; intros i r; simpl.
  - now rewrite Z.add_0_r.
  - rewrite each_snoc. specialize (IH i r).
    destruct (each xs (findLastIndex_body name q) (r, i)) as [[c [k j]] e].
    simpl in IH. inversion IH; subst c j k. simpl.
    rewrite indexed_from_app, rev_app_distr, length_app. simpl.
    destruct (q x); simpl; f_equal; f_equal; lia.
Qed.

Lemma each_last (xs : list V) (r : option V) :
  fst (each xs (@last_body V) r) =
  (Next, match rev xs with x :: _ => Some x | [] => r end).
Proof.
  revert r; induction xs as [|x xs IH] using rev_ind; intros r; simpl.
  - reflexivity.
  - rewrite each_snoc. specialize (IH r).
    destruct (each xs (@last_body V) r) as [[c q] e].
    simpl in IH. inversion IH; subst c. simpl.
    now rewrite rev_app_distr.
Qed.

(** What the short-circuiting loops compute over an array. *)

Lemma each_find (p : Callback V bool) (xs : list V) (i : Z) (r : option V) :
  snd (snd (fst (each xs (find_body p) (i, r)))) =
  match List.find (at_index (cb_fun p)) (indexed_from i xs) with
  | Some x => Some (fst x)
  | None => r
  end.
Proof.
  revert i r; induction xs as [|x xs IH]; intros i r; simpl; [reflexivity|].
  destruct (cb_fun p x i); simpl; [reflexivity|].
  specialize (IH (i + 1) r).
  destruct (each xs (find_body p) (i + 1, r)) as [[c l] e]. exact IH.
Qed.

Lemma each_findIndex (name : nat) (q : V -> bool) (xs : list V) (i r : Z) :
  snd (snd (fst (each xs (findIndex_body name q) (i, r)))) =
  match List.find (fun x => q (fst x)) (indexed_from i xs) with
  | Some x => snd x
  | None => r
  end.
Proof.
  revert i r; induction xs as [|x xs IH]; intros i r; simpl; [reflexivity|].
  destruct (q x); simpl; [reflexivity|].
  specialize (IH (i + 1) r).
  destruct (each xs (findIndex_body name q) (i + 1, r)) as [[c l] e]. exact IH.
Qed.

Lemma each_every (p : Callback V bool) (xs : list V) (i : Z) (r : bool) :
  snd (snd (fst (each xs (every_body p) (i, r)))) =
  if forallb (at_index (cb_fun p)) (indexed_from i xs) then r else false.
Proof.
  revert i r; induction xs as [|x xs IH]; intros i r; simpl; [reflexivity|].
  destruct (cb_fun p x i); simpl; [|reflexivity].
  specialize (IH (i + 1) r).
  destruct (each xs (every_body p) (i + 1, r)) as [[c l] e]. exact IH.
Qed.

Lemma each_some (p : option (Callback V bool)) (xs : list V) (i : Z) (r : bool) :
  snd (snd (fst (each xs (some_body p) (i, r)))) =
  if existsb (at_index (default_true p)) (indexed_from i xs) then true else r.
Proof.
  revert i r; induction xs as [|x xs IH]; intros i r; simpl; [reflexivity|].
  destruct (default_true p x i); simpl; [reflexivity|].
  specialize (IH (i + 1) r).
  destruct (each xs (some_body p) (i + 1, r)) as [[c l] e]. exact IH.
Qed.

Lemma each_elementAt (index : Z) (xs : list V) (n : Z) (r : option V) :
  n <= index ->
  snd (snd (fst (each xs (elementAt_body index) (n, r)))) =
  match nth_error xs (Z.to_nat (index - n)) with
  | Some x => Some x
  | None => r
  end.
Proof.
  revert n r; induction xs as [|x xs IH]; intros n r Hn; simpl.
  - now destruct (Z.to_nat (index - n)).
  - destruct (Z.eqb_spec index n) as [-> | Hne]; simpl.
    + now rewrite Z.sub_diag.
    + replace (Z.to_nat (index - n)) with (S (Z.to_nat (index - (n + 1)))) by lia.
      simpl. specialize (IH (n + 1) r).
      destruct (each xs (elementAt_body index) (n + 1, r)) as [[c l] e].
      apply IH. lia.
Qed.

Lemma each_indexOf (same : V -> V -> bool) (value : V) (xs : list V) (i r : Z) :
  snd (snd (fst (each xs (indexOf_body same value) (i, r)))) =
  match List.find (fun x => same (fst x) value) (indexed_from i xs) with
  | Some x => snd x
  | None => r
  end.
Proof.
  revert i r; induction xs as [|x xs IH]; intros i r; simpl; [reflexivity|].
  destruct (same x value); simpl; [reflexivity|].
  specialize (IH (i + 1) r).
  destruct (each xs (indexOf_body same value) (i + 1, r)) as [[c l] e]. exact IH.
Qed.

Lemma each_lastIndexOf (same : V -> V -> bool) (value : V) (xs : list V) (i r : Z) :
  fst (each xs (lastIndexOf_body same value) (r, i)) =
  (Next, (match List.find (fun x => same (fst x) value) (rev (indexed_from i xs)) with
          | Some x => snd x
          | None => r
          end, i + Z.of_nat (List.length xs))).
Proof.
  revert i r; induction xs as [|x xs IH] using rev_ind; intros i r; simpl.
  - now rewrite Z.add_0_r.
  - rewrite each_snoc. specialize (IH i r).
    destruct (each xs (lastIndexOf_body same value) (r, i)) as [[c [k j]] e].
    simpl in IH. inversion IH; subst c j k. simpl.
    rewrite indexed_from_app, rev_app_distr, length_app. simpl.
    destruct (same x value); simpl; f_equal; f_equal; lia.
Qed.

Lemma each_contains (same : V -> V -> bool) (value : V) (xs : list V) (r : bool) :
  snd (fst (each xs (contains_body same value) r)) =
  if existsb (fun x => same x value) xs then true else r.
Proof.
  revert r; induction xs as [|x xs IH]; intros r; simpl; [reflexivity|].
  unfold contains_body at 1. destruct (same x value); simpl; [reflexivity|].
  specialize (IH r).
  destruct (each xs (contains_body same value) r) as [[c l] e]. exact IH.
Qed.

(** X1. [fold] over any sequence is the left fold of its values, taken in
    order, each with its position; over a sequence without values it gives
    back [initial]. *)
Theorem fold_is_left_fold (fuel : nat) (s : Sequence V) (R : Type) (initial : R)
    (operation : Operation V R) (st st1 : Store V) (vs : list V)
    (es : list (Event V)) :
  toArray fuel s st = (Return vs, st1, es) ->
  result_of (fold fuel s initial operation st) =
  Return (fold_left (fun acc x => op_fun operation acc (fst x) (snd x))
            (indexed vs) initial).
Proof.
  intros H. unfold fold.
  rewrite (foreach_on_values fuel s (fold_body operation) snd (0, initial) st
             ltac:(intros v [i a]; left; reflexivity) H).
  now rewrite each_fold.
Qed.

(** X2. [count(predicate)] is the number of values of the sequence that
    satisfy the predicate at their position, and [count()] is the number of
    values of the sequence. *)
Theorem count_is_number_of_matches (fuel : nat) (s : Sequence V)
    (predicate : Callback V bool) (st st1 : Store V) (vs : list V)
    (es : list (Event V)) :
  toArray fuel s st = (Return vs, st1, es) ->
  result_of (count fuel s (Some predicate) st) =
    Return (Z.of_nat (List.length
              (List.filter (at_index (cb_fun predicate)) (indexed vs)))) /\
  result_of (count fuel s None st) = Return (Z.of_nat (List.length vs)).
Proof.
  intros H. unfold count. split.
  - rewrite (foreach_on_values fuel s (count_body (Some predicate)) snd (0, 0) st
               ltac:(intros v [i a]; left; reflexivity) H).
    now rewrite each_count.
  - rewrite (foreach_on_values fuel s (count_body None) snd (0, 0) st
               ltac:(intros v [i a]; left; reflexivity) H).
    rewrite each_count. simpl. do 2 f_equal.
    rewrite <- (indexed_from_values 0 vs) at 2. rewrite length_map.
    f_equal. induction (indexed_from 0 vs) as [|[x j] l IH]; simpl; congruence.
Qed.

(** X3. [every(predicate)] holds when every value satisfies the predicate at
    its position (so it holds of a sequence without values),
    [some(predicate)] when one of them does, and [some()] when the sequence
    has a value. *)
Theorem every_some_quantify (fuel : nat) (s : Sequence V)
    (predicate : Callback V bool) (st st1 : Store V) (vs : list V)
    (es : list (Event V)) :
  toArray fuel s st = (Return vs, st1, es) ->
  result_of (every fuel s predicate st) =
    Return (forallb (at_index (cb_fun predicate)) (indexed vs)) /\
  result_of (some fuel s (Some predicate) st) =
    Return (existsb (at_index (cb_fun predicate)) (indexed vs)) /\
  result_of (some fuel s None st) =
    Return (match vs with [] => false | _ :: _ => true end).
Proof.
  intros H. unfold every, some. split; [|split].
  - rewrite (foreach_on_values fuel s (every_body predicate) snd (0, true) st
               ltac:(intros v [i a]; unfold every_body;
                     destruct (cb_fun predicate v i); auto) H).
    rewrite each_every. now destruct forallb.
  - rewrite (foreach_on_values fuel s (some_body (Some predicate)) snd (0, false) st
               ltac:(intros v [i a]; unfold some_body;
                     destruct (default_true (Some predicate) v i); auto) H).
    rewrite each_some. now destruct existsb.
  - rewrite (foreach_on_values fuel s (some_body None) snd (0, false) st
               ltac:(intros v [i a]; right; reflexivity) H).
    rewrite each_some. now destruct vs.
Qed.

(** X4. [find(predicate)] gives the first value of the sequence that
    satisfies the predicate at its position, [undefined] when there is none;
    [findIndex(predicate)] gives the position of the first value that
    satisfies the predicate, -1 when there is none. *)
Theorem find_is_first_match (fuel : nat) (s : Sequence V)
    (predicate : Callback V bool) (name : nat) (q : V -> bool)
    (st st1 : Store V) (vs : list V) (es : list (Event V)) :
  toArray fuel s st = (Return vs, st1, es) ->
  result_of (find fuel s predicate st) =
    Return (option_map fst
              (List.find (at_index (cb_fun predicate)) (indexed vs))) /\
  result_of (findIndex fuel s name q st) =
    Return (match List.find (fun x => q (fst x)) (indexed vs) with
            | Some x => snd x
            | None => -1
            end).
Proof.
  intros H. unfold find, findIndex. split.
  - rewrite (foreach_on_values fuel s (find_body predicate) snd (0, None) st
               ltac:(intros v [i a]; unfold find_body;
                     destruct (cb_fun predicate v i); auto) H).
    rewrite each_find. now destruct List.find.
  - rewrite (foreach_on_values fuel s (findIndex_body name q) snd (0, -1) st
               ltac:(intros v [i a]; unfold findIndex_body;
                     destruct (q v); auto) H).
    now rewrite each_findIndex.
Qed.

Lemma find_indexed_first (P : V * Z -> bool) (i : Z) (xs : list V) (x y : V * Z) :
  List.find P (indexed_from i xs) = Some x ->
  In y (indexed_from i xs) -> P y = true -> snd x <= snd y.
Proof.
  revert i; induction xs as [|a xs IH]; intros i; simpl; [discriminate|].
  destruct (P (a, i)) eqn:Ha.
  - intros Hx [<- | Hy] _; inversion Hx; subst; simpl; [lia|].
    destruct y as [v j]. apply indexed_from_bounds in Hy. simpl. lia.
  - intros Hx [<- | Hy] Hp; [congruence|]. now apply (IH (i + 1)).
Qed.

Lemma find_rev_none (A : Type) (P : A -> bool) (l : list A) :
  List.find P l = None <-> List.find P (rev l) = None.
Proof.
  split; intros H.
  - destruct (List.find P (rev l)) as [x|] eqn:Hx; [|reflexivity].
    apply find_some in Hx. destruct Hx as [Hin Hp]. apply in_rev in Hin.
    now rewrite (find_none _ _ H _ Hin) in Hp.
  - destruct (List.find P l) as [x|] eqn:Hx; [|reflexivity].
    apply find_some in Hx. destruct Hx as [Hin Hp]. apply in_rev in Hin.
    now rewrite (find_none _ _ H _ Hin) in Hp.
Qed.

(** X5. [findLast(predicate)] gives the last value of the sequence that
    satisfies the predicate at its position, and [findLastIndex(predicate)]
    the position of the last value that satisfies the predicate; they give
    [undefined] and -1 when no value does. *)
Theorem findLast_is_last_match (fuel : nat) (s : Sequence V)
    (predicate : Callback V bool) (name : nat) (q : V -> bool)
    (st st1 : Store V) (vs : list V) (es : list (Event V)) :
  toArray fuel s st = (Return vs, st1, es) ->
  result_of (findLast fuel s predicate st) =
    Return (option_map fst
              (List.find (at_index (cb_fun predicate)) (rev (indexed vs)))) /\
  result_of (findLastIndex fuel s name q st) =
    Return (match List.find (fun x => q (fst x)) (rev (indexed vs)) with
            | Some x => snd x
            | None => -1
            end).
Proof.
  intros H. unfold findLast, findLastIndex. split.
  - rewrite (foreach_on_values fuel s (findLast_body predicate) snd (0, None) st
               ltac:(intros v [i a]; left; reflexivity) H).
    rewrite each_findLast. simpl. now destruct List.find.
  - rewrite (foreach_on_values fuel s (findLastIndex_body name q) fst (-1, 0) st
               ltac:(intros v [i a]; left; reflexivity) H).
    now rewrite each_findLastIndex.
Qed.

(** X6. [elementAt(index)] gives the value at that position of the
    sequence, counted from 0, and [undefined] when the index is negative or
    not below the number of values. *)
Theorem elementAt_is_nth (fuel : nat) (s : Sequence V) (index : Z)
    (st st1 : Store V) (vs : list V) (es : list (Event V)) :
  toArray fuel s st = (Return vs, st1, es) ->
  result_of (elementAt fuel s index st) =
  Return (if index <? 0 then None else nth_error vs (Z.to_nat index)).
Proof.
  intros H. unfold elementAt. destruct (Z.ltb_spec index 0); [reflexivity|].
  rewrite (foreach_on_values fuel s (elementAt_body index) snd (0, None) st
             ltac:(intros v [i a]; unfold elementAt_body;
                   destruct (index =? i); auto) H).
  rewrite each_elementAt by lia. rewrite Z.sub_0_r. now destruct nth_error.
Qed.

(** X7. When [findIndex(predicate)] gives -1, [find] with the same predicate
    gives [undefined]; otherwise the index is a position of the sequence,
    and [elementAt] on it gives the value that [find] gives, which satisfies
    the predicate. *)
Theorem findIndex_locates_find (fuel : nat) (s : Sequence V) (name : nat)
    (q : V -> bool) (i : Z) (st st1 st2 : Store V) (vs : list V)
    (es es2 : list (Event V)) :
  toArray fuel s st = (Return vs, st1, es) ->
  findIndex fuel s name q st = (Return i, st2, es2) ->
  let found := result_of (find fuel s (mkCallback name (fun v _ => q v)) st) in
  (i = -1 /\ found = Return None) \/
  (0 <= i < Z.of_nat (List.length vs) /\
   exists v, q v = true /\ found = Return (Some v) /\
             result_of (elementAt fuel s i st) = Return (Some v)).
Proof.
  intros H Hi found.
  assert (Hi' : result_of (findIndex fuel s name q st) = Return i)
    by now rewrite Hi.
  clear Hi. unfold findIndex in Hi'.
  rewrite (foreach_on_values fuel s (findIndex_body name q) snd (0, -1) st
             ltac:(intros v [j a]; unfold findIndex_body;
                   destruct (q v); auto) H) in Hi'.
  rewrite each_findIndex in Hi'.
  assert (Hf : found =
               Return (option_map fst (List.find (fun x => q (fst x))
                                         (indexed_from 0 vs)))).
  { unfold found, find.
    rewrite (foreach_on_values fuel s
               (find_body (mkCallback name (fun v _ => q v))) snd (0, None) st
               ltac:(intros v [j a]; unfold find_body; simpl;
                     destruct (q v); auto) H).
    rewrite each_find. simpl. f_equal.
    replace (List.find (at_index (fun v (_ : Z) => q v)) (indexed_from 0 vs))
      with (List.find (fun x => q (fst x)) (indexed_from 0 vs)).
    - now destruct List.find.
    - generalize (indexed_from 0 vs) as l. clear.
      induction l as [|[x j] l IH]; simpl; [reflexivity|]. now rewrite IH. }
  destruct (List.find (fun x => q (fst x)) (indexed_from 0 vs)) as [[v j]|] eqn:Hfind.
  - right. simpl in Hi'. inversion Hi'; subst i.
    destruct (find_some _ _ Hfind) as [Hin Hq].
    destruct (indexed_from_bounds _ _ _ _ Hin) as [Hb Hn].
    rewrite Z.sub_0_r in Hn. simpl in Hq. split; [lia|].
    exists v. split; [exact Hq|]. split; [exact Hf|].
    unfold elementAt. destruct (Z.ltb_spec j 0); [lia|].
    rewrite (foreach_on_values fuel s (elementAt_body j) snd (0, None) st
               ltac:(intros w [k a]; unfold elementAt_body;
                     destruct (j =? k); auto) H).
    rewrite each_elementAt by lia. rewrite Z.sub_0_r. now rewrite Hn.
  - left. inversion Hi'. split; [reflexivity|exact Hf].
Qed.

Lemma find_indexed_last (P : V * Z -> bool) (xs : list V) (i : Z) (x y : V * Z) :
  List.find P (rev (indexed_from i xs)) = Some x ->
  In y (indexed_from i xs) -> P y = true -> snd y <= snd x.
Proof.
  revert x y; induction xs as [|a xs IH] using rev_ind; intros x y;
    [discriminate|].
  rewrite indexed_from_app, rev_app_distr. simpl.
  destruct (P (a, i + Z.of_nat (List.length xs))) eqn:Ha.
  - intros Hx Hy _. inversion Hx; subst x. simpl.
    apply in_app_iff in Hy. destruct Hy as [Hy | [<- | []]]; [|simpl; lia].
    destruct y as [v j]. apply indexed_from_bounds in Hy. simpl. lia.
  - intros Hx Hy Hp. apply in_app_iff in Hy.
    destruct Hy as [Hy | [<- | []]]; [now apply IH|congruence].
Qed.

Lemma indexed_from_nth (xs : list V) (i : Z) (k : nat) (x : V) :
  nth_error xs k = Some x -> In (x, i + Z.of_nat k) (indexed_from i xs).
Proof.
  revert i k; induction xs as [|a xs IH]; intros i k; destruct k as [|k];
    simpl; try discriminate.
  - intros H. inversion H; subst. left. f_equal. lia.
  - intros H. right. replace (i + Z.pos (Pos.of_succ_nat k))
      with (i + 1 + Z.of_nat k) by lia. now apply IH.
Qed.

(** X8. [indexOf(value)] and [lastIndexOf(value)] give the first and the last
    position of the sequence that holds a value identical to [value], and
    [contains(value)] says whether there is one: when there is none both
    indexes are -1; otherwise both are positions that hold such a value, and
    every position that holds such a value lies between them, so that no
    such value comes before the first or after the last. *)
Theorem indexOf_lastIndexOf_contains (same : V -> V -> bool) (fuel : nat)
    (s : Sequence V) (value : V) (st st1 : Store V) (vs : list V)
    (es : list (Event V)) :
  toArray fuel s st = (Return vs, st1, es) ->
  exists i j,
    result_of (indexOf same fuel s value st) = Return i /\
    result_of (lastIndexOf same fuel s value st) = Return j /\
    result_of (contains same fuel s value st) = Return (0 <=? i) /\
    ((i = -1 /\ j = -1 /\ forall x, In x vs -> same x value = false) \/
     (0 <= i <= j /\ j < Z.of_nat (List.length vs) /\
      (exists v w, nth_error vs (Z.to_nat i) = Some v /\ same v value = true /\
                   nth_error vs (Z.to_nat j) = Some w /\ same w value = true) /\
      (forall k x, nth_error vs k = Some x -> same x value = true ->
                   i <= Z.of_nat k <= j))).
Proof.
  intros H. unfold indexOf, lastIndexOf, contains.
  rewrite (foreach_on_values fuel s (indexOf_body same value) snd (0, -1) st
             ltac:(intros v [k a]; unfold indexOf_body;
                   destruct (same v value); auto) H).
  rewrite (foreach_on_values fuel s (lastIndexOf_body same value) fst (-1, 0) st
             ltac:(intros v [k a]; left; reflexivity) H).
  rewrite (foreach_on_values fuel s (contains_body same value) (fun l => l)
             false st
             ltac:(intros v a; unfold contains_body;
                   destruct (same v value); auto) H).
  rewrite each_indexOf, each_lastIndexOf, each_contains. simpl.
  set (P := fun x : V * Z => same (fst x) value).
  destruct (List.find P (indexed_from 0 vs)) as [[v i]|] eqn:Hfirst.
  - destruct (List.find P (rev (indexed_from 0 vs))) as [[w j]|] eqn:Hlast.
    + destruct (find_some _ _ Hfirst) as [Hin Hv].
      destruct (find_some _ _ Hlast) as [Hin' Hw]. apply in_rev in Hin'.
      pose proof (find_indexed_first _ _ _ _ Hfirst Hin' Hw) as Hle.
      destruct (indexed_from_bounds _ _ _ _ Hin) as [Hb Hn].
      destruct (indexed_from_bounds _ _ _ _ Hin') as [Hb' Hn'].
      rewrite Z.sub_0_r in Hn, Hn'. simpl in *.
      exists i, j. split; [reflexivity|]. split; [reflexivity|]. split.
      * replace (0 <=? i) with true by (symmetry; apply Z.leb_le; lia).
        replace (existsb (fun x => same x value) vs) with true; [reflexivity|].
        symmetry. apply existsb_exists. exists v.
        split; [eapply nth_error_In; exact Hn|exact Hv].
      * right. split; [lia|]. split; [lia|]. split; [exists v, w; auto|].
        intros k x Hk Hs.
        pose proof (indexed_from_nth vs 0 k Hk) as Hink.
        pose proof (find_indexed_first _ _ _ _ Hfirst Hink Hs) as H1.
        pose proof (@find_indexed_last P vs 0 _ _ Hlast Hink Hs) as H2.
        simpl in H1, H2. lia.
    + apply find_rev_none in Hlast. congruence.
  - pose proof Hfirst as Hlast. apply find_rev_none in Hlast. rewrite Hlast.
    assert (Hno : forall x, In x vs -> same x value = false).
    { intros x Hx. rewrite <- (indexed_from_values 0 vs) in Hx.
      apply in_map_iff in Hx. destruct Hx as ([y k] & <- & Hy).
      exact (find_none _ _ Hfirst _ Hy). }
    exists (-1), (-1). split; [reflexivity|]. split; [reflexivity|]. split.
    + replace (existsb (fun x => same x value) vs) with false; [reflexivity|].
      symmetry. apply not_true_is_false. intros Hex.
      apply existsb_exists in Hex. destruct Hex as (x & Hx & Hs).
      now rewrite (Hno x Hx) in Hs.
    + left. auto.
Qed.

(** X9. [first()] gives the first value of the sequence and [last()] its
    last one, both [undefined] when the sequence has no value, and
    [isEmpty()] says whether it has none. *)
Theorem first_last_isEmpty (fuel : nat) (s : Sequence V) (st st1 : Store V)
    (vs : list V) (es : list (Event V)) :
  toArray fuel s st = (Return vs, st1, es) ->
  result_of (first fuel s st) = Return (hd_error vs) /\
  result_of (last fuel s st) = Return (hd_error (rev vs)) /\
  result_of (isEmpty fuel s st) =
    Return (match vs with [] => true | _ :: _ => false end).
Proof.
  intros H. unfold first, last, isEmpty. split; [|split].
  - rewrite (foreach_on_values fuel s (@first_body V) (fun l => l) None st
               ltac:(intros v a; right; reflexivity) H).
    now destruct vs.
  - rewrite (foreach_on_values fuel s (@last_body V) (fun l => l) None st
               ltac:(intros v a; left; reflexivity) H).
    rewrite each_last. simpl. now destruct (rev vs).
  - rewrite (foreach_on_values fuel s (@isEmpty_body V) (fun l => l) true st
               ltac:(intros v a; right; reflexivity) H).
    now destruct vs.
Qed.

(** What the generators of the intermediate operations hand to [toArray]
    over an array. *)

Lemma each_map_push (f : Callback V V) (xs : list V) (i k : Z) (acc : list V) :
  snd (snd (snd (fst (each xs (map_body f push) (i, (k, acc)))))) =
  acc ++ List.map (at_index (cb_fun f)) (indexed_from i xs).
Proof.
  revert i k acc; induction xs as [|x xs IH]; intros i k acc; simpl;
    [now rewrite app_nil_r|].
  specialize (IH (i + 1) (k + 1) (acc ++ [cb_fun f x i])).
  destruct (each xs (map_body f push) _) as [[c l] e]. simpl in *.
  rewrite IH. now rewrite <- app_assoc.
Qed.

Lemma each_filter_push (p : Callback V bool) (xs : list V) (i k : Z)
    (acc : list V) :
  snd (snd (snd (fst (each xs (filter_body p push) (i, (k, acc)))))) =
  acc ++ List.map fst (List.filter (at_index (cb_fun p)) (indexed_from i xs)).
Proof.
  revert i k acc; induction xs as [|x xs IH]; intros i k acc; simpl;
    [now rewrite app_nil_r|].
  destruct (cb_fun p x i); simpl.
  - specialize (IH (i + 1) (k + 1) (acc ++ [x])).
    destruct (each xs (filter_body p push) _) as [[c l] e]. simpl in *.
    rewrite IH. now rewrite <- app_assoc.
  - specialize (IH (i + 1) k acc).
    destruct (each xs (filter_body p push) _) as [[c l] e]. exact IH.
Qed.

Lemma each_drop_push (n : Z) (xs : list V) (d k : Z) (acc : list V) :
  0 <= d ->
  snd (snd (snd (fst (each xs (drop_body n push) (d, (k, acc)))))) =
  acc ++ skipn (Z.to_nat (n - d)) xs.
Proof.
  revert d k acc; induction xs as [|x xs IH]; intros d k acc Hd; simpl.
  - now rewrite skipn_nil, app_nil_r.
  - destruct (Z.geb_spec d n) as [Hge | Hlt]; simpl.
    + specialize (IH (d + 1) (k + 1) (acc ++ [x])).
      destruct (each xs (drop_body n push) _) as [[c l] e]. simpl in *.
      rewrite IH by lia.
      replace (Z.to_nat (n - d)) with 0%nat by lia.
      replace (Z.to_nat (n - (d + 1))) with 0%nat by lia.
      simpl. now rewrite <- app_assoc.
    + specialize (IH (d + 1) k acc).
      destruct (each xs (drop_body n push) _) as [[c l] e]. simpl in *.
      rewrite IH by lia.
      replace (Z.to_nat (n - d)) with (S (Z.to_nat (n - (d + 1)))) by lia.
      reflexivity.
Qed.

Lemma each_take_values (n : Z) (xs : list V) (t k : Z) (acc : list V) :
  0 <= t ->
  snd (snd (snd (fst (each xs (take_body n push) (t, false, (k, acc)))))) =
  acc ++ firstn (Z.to_nat (n - t)) xs.
Proof.
  revert t k acc; induction xs as [|x xs IH]; intros t k acc Ht; simpl.
  - now rewrite firstn_nil, app_nil_r.
  - destruct (Z.ltb_spec t n) as [Hlt | Hge]; simpl.
    + specialize (IH (t + 1) (k + 1) (acc ++ [x])).
      destruct (each xs (take_body n push) _) as [[c l] e]. simpl in *.
      rewrite IH by lia.
      replace (Z.to_nat (n - t)) with (S (Z.to_nat (n - (t + 1)))) by lia.
      simpl. now rewrite <- app_assoc.
    + replace (Z.to_nat (n - t)) with 0%nat by lia. simpl.
      now rewrite app_nil_r.
Qed.

Lemma toArray_map (fuel : nat) (s : Sequence V) (f : Callback V V)
    (st st1 : Store V) (vs : list V) (es : list (Event V)) :
  toArray fuel s st = (Return vs, st1, es) ->
  result_of (toArray fuel (map s f) st) =
  Return (List.map (at_index (cb_fun f)) (indexed vs)).
Proof.
  intros H.
  pose proof (foreach_on_values fuel s (map_body f push)
                (fun l => snd (snd l)) (0, (0, [])) st
                ltac:(intros v [i [k a]]; left; reflexivity) H) as Hv.
  cbv beta in Hv. rewrite each_map_push in Hv. simpl in Hv.
  unfold toArray, fold, map, new_MapSequence, indexed. cbn [foreach].
  destruct (foreach fuel s (map_body f push) (0, (0, [])) st)
    as [[[c [i [k a]]] t] e].
  destruct c; exact Hv.
Qed.

Lemma toArray_filter (fuel : nat) (s : Sequence V) (p : Callback V bool)
    (st st1 : Store V) (vs : list V) (es : list (Event V)) :
  toArray fuel s st = (Return vs, st1, es) ->
  result_of (toArray fuel (filter s p) st) =
  Return (List.map fst (List.filter (at_index (cb_fun p)) (indexed vs))).
Proof.
  intros H.
  pose proof (foreach_on_values fuel s (filter_body p push)
                (fun l => snd (snd l)) (0, (0, [])) st
                ltac:(intros v [i [k a]]; unfold filter_body;
                      destruct (cb_fun p v i); left; reflexivity) H) as Hv.
  cbv beta in Hv. rewrite each_filter_push in Hv. simpl in Hv.
  unfold toArray, fold, filter, indexed. cbn [foreach].
  destruct (foreach fuel s (filter_body p push) (0, (0, [])) st)
    as [[[c [i [k a]]] t] e].
  destruct c; exact Hv.
Qed.

Lemma toArray_take (fuel : nat) (s : Sequence V) (n : Z)
    (st st1 : Store V) (vs : list V) (es : list (Event V)) :
  toArray fuel s st = (Return vs, st1, es) ->
  result_of (toArray fuel (take s n) st) = Return (firstn (Z.to_nat n) vs).
Proof.
  intros H.
  pose proof (foreach_on_values fuel s (take_body n push)
                (fun l => snd (snd l)) (0, false, (0, [])) st
                ltac:(intros v [[i y] [k a]]; unfold take_body;
                      destruct (i <? n); auto) H) as Hv.
  cbv beta in Hv. rewrite each_take_values in Hv by lia. rewrite Z.sub_0_r in Hv.
  simpl in Hv.
  unfold toArray, fold, take, new_TakeSequence. cbn [foreach].
  destruct (foreach fuel s (take_body n push) (0, false, (0, [])) st)
    as [[[c [[i y] [k a]]] t] e].
  destruct c; try exact Hv. destruct y; exact Hv.
Qed.

Lemma toArray_drop (fuel : nat) (s : Sequence V) (n : Z)
    (st st1 : Store V) (vs : list V) (es : list (Event V)) :
  toArray fuel s st = (Return vs, st1, es) ->
  result_of (toArray fuel (drop s n) st) = Return (skipn (Z.to_nat n) vs).
Proof.
  intros H.
  pose proof (foreach_on_values fuel s (drop_body n push)
                (fun l => snd (snd l)) (0, (0, [])) st
                ltac:(intros v [i [k a]]; unfold drop_body;
                      destruct (i >=? n); left; reflexivity) H) as Hv.
  cbv beta in Hv. rewrite each_drop_push in Hv by lia. rewrite Z.sub_0_r in Hv.
  simpl in Hv.
  unfold toArray, fold, drop, new_DropSequence. cbn [foreach].
  destruct (size s <? 0); cbn [foreach];
    destruct (foreach fuel s (drop_body n push) (0, (0, [])) st)
      as [[[c [i [k a]]] t] e];
    destruct c; exact Hv.
Qed.

(** X10. [map(transform)] over any sequence yields the transform of each of
    its values, called with the value and its position, in order; the size
    it announces is the one of the sequence it maps. *)
Theorem map_values (fuel : nat) (s : Sequence V) (f : Callback V V)
    (st st1 : Store V) (vs : list V) (es : list (Event V)) :
  toArray fuel s st = (Return vs, st1, es) ->
  result_of (toArray fuel (map s f) st) =
    Return (List.map (at_index (cb_fun f)) (indexed vs)) /\
  size (map s f) = size s.
Proof.
  intros H. split; [eapply toArray_map; eassumption|reflexivity].
Qed.

(** X11. [filter(predicate)] over any sequence yields, in order, the values
    that satisfy the predicate; the index the predicate receives is the
    position of the value in the sequence that is filtered. The sequence it
    makes announces no size. *)
Theorem filter_values (fuel : nat) (s : Sequence V) (p : Callback V bool)
    (st st1 : Store V) (vs : list V) (es : list (Event V)) :
  toArray fuel s st = (Return vs, st1, es) ->
  result_of (toArray fuel (filter s p) st) =
    Return (List.map fst (List.filter (at_index (cb_fun p)) (indexed vs))) /\
  size (filter s p) = -1.
Proof.
  intros H. split; [eapply toArray_filter; eassumption|reflexivity].
Qed.

(** X12. [take(n)] over any sequence yields its first [n] values, all of
    them when it has fewer, and none when [n] is zero or negative. When the
    sequence announces the number of its values and [n] is not negative, so
    does the sequence that [take] makes. *)
Theorem take_values_of (fuel : nat) (s : Sequence V) (n : Z)
    (st st1 : Store V) (vs : list V) (es : list (Event V)) :
  toArray fuel s st = (Return vs, st1, es) ->
  result_of (toArray fuel (take s n) st) = Return (firstn (Z.to_nat n) vs) /\
  (size s = Z.of_nat (List.length vs) -> 0 <= n ->
   size (take s n) = Z.of_nat (List.length (firstn (Z.to_nat n) vs))).
Proof.
  intros H. split; [eapply toArray_take; eassumption|].
  intros Hsize Hn. unfold take, new_TakeSequence. cbn [size].
  rewrite Hsize, length_firstn.
  destruct (Z.ltb_spec (Z.of_nat (List.length vs)) 0); [lia|].
  destruct (Z.gtb_spec n (Z.of_nat (List.length vs))); lia.
Qed.

(** X13. [drop(n)] over any sequence yields its values but the first [n],
    none when it has no more than [n], and all of them when [n] is zero or
    negative. When the sequence announces the number of its values and [n]
    is not negative, so does the sequence that [drop] makes. *)
Theorem drop_values_of (fuel : nat) (s : Sequence V) (n : Z)
    (st st1 : Store V) (vs : list V) (es : list (Event V)) :
  toArray fuel s st = (Return vs, st1, es) ->
  result_of (toArray fuel (drop s n) st) = Return (skipn (Z.to_nat n) vs) /\
  (size s = Z.of_nat (List.length vs) -> 0 <= n ->
   size (drop s n) = Z.of_nat (List.length (skipn (Z.to_nat n) vs))).
Proof.
  intros H. split; [eapply toArray_drop; eassumption|].
  intros Hsize Hn. unfold drop, new_DropSequence.
  rewrite Hsize, length_skipn.
  destruct (Z.ltb_spec (Z.of_nat (List.length vs)) 0); [lia|]. cbn [size].
  destruct (Z.ltb_spec (Z.of_nat (List.length vs) - n) 0); lia.
Qed.

(** [join] *)

Lemma string_app_assoc (a b c : string) :
  ((a ++ b) ++ c)%string = (a ++ b ++ c)%string.
Proof. induction a as [|ch a IH]; simpl; [reflexivity|now rewrite IH]. Qed.

Lemma string_app_nil_r (a : string) : (a ++ EmptyString)%string = a.
Proof. induction a as [|ch a IH]; simpl; [reflexivity|now rewrite IH]. Qed.

Lemma concat_snoc (sep : string) (l : list string) (x : string) :
  String.concat sep (l ++ [x]) =
  match l with
  | [] => x
  | _ :: _ => (String.concat sep l ++ sep ++ x)%string
  end.
Proof.
  induction l as [|a l IH]; [reflexivity|].
  destruct l as [|b l]; [reflexivity|].
  change (String.concat sep ((a :: b :: l) ++ [x]))
    with (a ++ sep ++ String.concat sep ((b :: l) ++ [x]))%string.
  rewrite IH.
  change (String.concat sep (a :: b :: l))
    with (a ++ sep ++ String.concat sep (b :: l))%string.
  now rewrite !string_app_assoc.
Qed.

Ltac zbool :=
  rewrite ?Z.geb_leb, ?Z.gtb_ltb;
  rewrite ?orb_true_iff, ?orb_false_iff, ?andb_true_iff, ?andb_false_iff,
    ?Z.ltb_lt, ?Z.ltb_ge, ?Z.leb_le, ?Z.leb_gt.

Ltac zbool_in H :=
  rewrite ?Z.geb_leb, ?Z.gtb_ltb in H;
  rewrite ?orb_true_iff, ?orb_false_iff, ?andb_true_iff, ?andb_false_iff,
    ?Z.ltb_lt, ?Z.ltb_ge, ?Z.leb_le, ?Z.leb_gt in H.

Lemma each_join (show : V -> string) (sep pre trunc : string) (lim : Z)
    (tr : option (nat * (V -> string))) (xs : list V) (done : list string) :
  lim < 0 \/ Z.of_nat (List.length done) <= lim ->
  let render := match tr with Some (_, f) => f | None => show end in
  let l := snd (fst (each xs (join_body show sep lim tr)
                       ((pre ++ String.concat sep done)%string,
                        Z.of_nat (List.length done)))) in
  (if (lim >=? 0) && (snd l >? lim) then (fst l ++ trunc)%string else fst l) =
  String.append pre
    (String.concat sep
       (if (0 <=? lim) && (lim <? Z.of_nat (List.length done + List.length xs))
        then done ++ List.map render
                       (firstn (Z.to_nat lim - List.length done) xs) ++ [trunc]
        else done ++ List.map render xs)).
Proof.
  intros Hpre render. revert done Hpre.
  induction xs as [|x xs IH]; intros done Hpre l.
  - subst l. simpl.
    replace ((lim >=? 0) && (Z.of_nat (List.length done) >? lim)) with false
      by (symmetry; zbool; lia).
    replace ((0 <=? lim) && (lim <? Z.of_nat (List.length done + 0))) with false
      by (symmetry; zbool; lia).
    now rewrite app_nil_r.
  - subst l.
    set (count := Z.of_nat (List.length done) + 1).
    set (base := if count >? 1
                 then ((pre ++ String.concat sep done) ++ sep)%string
                 else (pre ++ String.concat sep done)%string).
    assert (Hbase : forall y, (base ++ y)%string =
                              (pre ++ String.concat sep (done ++ [y]))%string).
    { intros y. unfold base, count. rewrite concat_snoc.
      destruct done as [|d done]; simpl List.length.
      - simpl. now rewrite string_app_nil_r.
      - replace (Z.of_nat (S (List.length done)) + 1 >? 1) with true
          by (symmetry; zbool; lia).
        now rewrite !string_app_assoc. }
    assert (Hstep :
      join_body show sep lim tr x
        ((pre ++ String.concat sep done)%string, Z.of_nat (List.length done)) =
      if (lim <? 0) || (count <=? lim)
      then (Next, ((base ++ render x)%string, count),
            match tr with
            | Some (name, _) => [ECall name x (count - 1)]
            | None => []
            end)
      else (Stop, (base, count), [])).
    { unfold join_body, render. fold count. fold base.
      destruct ((lim <? 0) || (count <=? lim)); destruct tr as [[name f]|];
        reflexivity. }
    cbn [each]. rewrite Hstep. clear Hstep.
    destruct ((lim <? 0) || (count <=? lim)) eqn:Hok.
    + assert (Hnext : lim < 0 \/ Z.of_nat (List.length (done ++ [render x])) <= lim).
      { rewrite length_app. simpl. unfold count in Hok. zbool_in Hok. lia. }
      specialize (IH (done ++ [render x]) Hnext). cbv zeta in IH.
      rewrite <- Hbase in IH.
      replace (Z.of_nat (List.length (done ++ [render x]))) with count in IH
        by (rewrite length_app; simpl; unfold count; lia).
      assert (Hrhs :
        (if (0 <=? lim) &&
            (lim <? Z.of_nat (List.length (done ++ [render x]) + List.length xs))
         then (done ++ [render x]) ++
              List.map render
                (firstn (Z.to_nat lim - List.length (done ++ [render x])) xs) ++
              [trunc]
         else (done ++ [render x]) ++ List.map render xs) =
        (if (0 <=? lim) &&
            (lim <? Z.of_nat (List.length done + List.length (x :: xs)))
         then done ++ List.map render
                        (firstn (Z.to_nat lim - List.length done) (x :: xs)) ++
              [trunc]
         else done ++ List.map render (x :: xs))).
      { rewrite length_app. simpl List.length.
        replace (List.length done + 1 + List.length xs)%nat
          with (List.length done + S (List.length xs))%nat by lia.
        destruct ((0 <=? lim) &&
                  (lim <? Z.of_nat (List.length done + S (List.length xs))))
          eqn:Hc.
        - unfold count in Hok. zbool_in Hok. zbool_in Hc.
          replace (Z.to_nat lim - List.length done)%nat
            with (S (Z.to_nat lim - (List.length done + 1)))%nat by lia.
          simpl. now rewrite <- !app_assoc.
        - simpl. now rewrite <- app_assoc. }
      rewrite Hrhs in IH. rewrite <- IH.
      destruct (each xs (join_body show sep lim tr) ((base ++ render x)%string, count))
        as [[c [b k]] e].
      reflexivity.
    + unfold count in Hok. zbool_in Hok. simpl.
      replace ((lim >=? 0) && (count >? lim)) with true
        by (symmetry; unfold count; zbool; lia).
      replace ((0 <=? lim) &&
               (lim <? Z.of_nat (List.length done + S (List.length xs))))
        with true by (symmetry; zbool; lia).
      replace (Z.to_nat lim - List.length done)%nat with 0%nat by lia.
      simpl. apply Hbase.
Qed.

(** X14. [join(options)] gives the prefix, the texts of the values separated
    by the separator, and the postfix. With a limit that is not negative and
    below the number of values, only that many values are written and the
    truncation mark follows them as one more item: after a separator when
    the limit is positive, straight after the prefix when it is zero. *)
Theorem join_format (show : V -> string) (fuel : nat) (s : Sequence V)
    (options : JoinOptions V) (st st1 : Store V) (vs : list V)
    (es : list (Event V)) :
  toArray fuel s st = (Return vs, st1, es) ->
  let separator := or_else (join_separator options) ", "%string in
  let limit := or_else (join_limit options) (-1) in
  let render :=
    match join_transform options with Some (_, f) => f | None => show end in
  let items :=
    if (0 <=? limit) && (limit <? Z.of_nat (List.length vs))
    then List.map render (firstn (Z.to_nat limit) vs) ++
         [or_else (join_truncated options) "..."%string]
    else List.map render vs in
  result_of (join show fuel s options st) =
  Return (String.append (or_else (join_prefix options) EmptyString)
            (String.append (String.concat separator items)
               (or_else (join_postfix options) EmptyString))).
Proof.
  intros H. cbv zeta. unfold join. cbv zeta.
  set (separator := or_else (join_separator options) ", "%string).
  set (limit := or_else (join_limit options) (-1)).
  set (pre := or_else (join_prefix options) EmptyString).
  set (post := or_else (join_postfix options) EmptyString).
  set (trunc := or_else (join_truncated options) "..."%string).
  rewrite (foreach_on_values fuel s
             (join_body show separator limit (join_transform options))
             (fun '(base, count) =>
                ((if (limit >=? 0) && (count >? limit)
                  then (base ++ trunc)%string else base) ++ post)%string)
             (pre, 0) st
             ltac:(intros v [b k]; unfold join_body;
                   destruct ((limit <? 0) || (k + 1 <=? limit));
                   [destruct (join_transform options) as [[name f]|]|]; auto) H).
  assert (Hlim : limit < 0 \/ Z.of_nat (List.length (@nil string)) <= limit)
    by (simpl; lia).
  pose proof (@each_join show separator pre trunc limit
                (join_transform options) vs [] Hlim) as Hj.
  cbv zeta in Hj. simpl List.length in Hj. simpl String.concat in Hj.
  rewrite string_app_nil_r in Hj. simpl Z.of_nat in Hj.
  rewrite Nat.sub_0_r in Hj. simpl app in Hj.
  destruct (snd (fst (each vs
                        (join_body show separator limit (join_transform options))
                        (pre, 0)))) as [base count].
  simpl in Hj. f_equal. rewrite Hj. apply string_app_assoc.
Qed.

(** [generate] *)

Lemma generator_loop_push (nextValue : V -> option V) (rest : list V) :
  forall (fuel : nat) (current : V) (k : Z) (acc : list V),
    (forall i v, nth_error (current :: rest) i = Some v ->
                 nextValue v = nth_error (current :: rest) (S i)) ->
    (List.length rest < fuel)%nat ->
    generator_loop fuel nextValue current push (k, acc) =
    (Next, (k + Z.of_nat (List.length rest), acc ++ rest),
     List.map EGen (current :: rest)).
Proof.
  induction rest as [|v rest IH]; intros fuel current k acc Hchain Hfuel;
    (destruct fuel as [|fuel]; [simpl in Hfuel; lia|]); simpl.
  - rewrite (Hchain 0%nat current eq_refl). simpl.
    now rewrite Z.add_0_r, app_nil_r.
  - rewrite (Hchain 0%nat current eq_refl). simpl.
    rewrite (IH fuel v (k + 1) (acc ++ [v])).
    + simpl. rewrite <- app_assoc. simpl. do 3 f_equal. lia.
    + intros i w Hi. exact (Hchain (S i) w Hi).
    + simpl in Hfuel. lia.
Qed.

(** X15. [generate(seed, nextValue)] yields the seed and then what
    [nextValue] gives on the value yielded before, up to the first value on
    which it gives [null]; [nextValue] is called once on each value yielded,
    in order, and nothing else is done. *)
Theorem generate_values (fuel : nat) (seed : V) (nextValue : V -> option V)
    (rest : list V) (st : Store V) :
  (forall i v, nth_error (seed :: rest) i = Some v ->
               nextValue v = nth_error (seed :: rest) (S i)) ->
  (List.length rest < fuel)%nat ->
  toArray fuel (generate seed nextValue) st =
  (Return (seed :: rest), st, List.map EGen (seed :: rest)).
Proof.
  intros Hchain Hfuel. unfold toArray, fold, generate. cbn [foreach].
  change (fold_body push_operation seed (0, []))
    with (Next, (0 + 1, [seed]), @nil (Event V)).
  cbv iota beta.
  fold push.
  rewrite (@generator_loop_push nextValue rest fuel seed (0 + 1) [seed]
             Hchain Hfuel).
  reflexivity.
Qed.

Lemma generator_loop_take (g : V -> V) (n : Z) :
  forall (fuel : nat) (current : V) (t k : Z) (acc : list V),
    0 <= t <= n -> (Z.to_nat (n - t) < fuel)%nat ->
    generator_loop fuel (fun v => Some (g v)) current (take_body n push)
      (t, false, (k, acc)) =
    (Stop,
     (n + 1, true,
      (k + (n - t), acc ++ iterate g (Z.to_nat (n - t)) (g current))),
     List.map EGen (iterate g (S (Z.to_nat (n - t))) current)).
Proof.
  induction fuel as [|fuel IH]; intros current t k acc Ht Hfuel; [lia|].
  simpl. destruct (Z.ltb_spec t n) as [Hlt | Hge]; simpl.
  - rewrite IH by lia.
    replace (Z.to_nat (n - t)) with (S (Z.to_nat (n - (t + 1)))) by lia.
    simpl. rewrite <- app_assoc. simpl.
    replace (k + 1 + (n - (t + 1))) with (k + (n - t)) by lia. reflexivity.
  - replace (n - t) with 0 by lia. simpl.
    rewrite app_nil_r, Z.add_0_r. replace t with n by lia. reflexivity.
Qed.

(** X16. [take(n)] makes the endless sequence of [generate] finite: it
    yields the seed and its [n - 1] successors, and calls [nextValue] on each
    of the [n] values it yields, the last call computing a value that is
    never yielded. With [n] zero or negative it yields nothing and never
    calls [nextValue]. *)
Theorem take_of_endless_generate (fuel : nat) (seed : V) (g : V -> V) (n : Z)
    (st : Store V) :
  (Z.to_nat n <= fuel)%nat ->
  toArray fuel (take (generate seed (fun v => Some (g v))) n) st =
  (Return (iterate g (Z.to_nat n) seed), st,
   List.map EGen (iterate g (Z.to_nat n) seed)).
Proof.
  intros Hfuel. unfold toArray, fold, take, generate, new_TakeSequence.
  cbn [foreach size]. fold push. unfold take_body at 1.
  destruct (Z.ltb_spec 0 n) as [Hpos | Hneg].
  - change (push seed (0, [])) with (Next, (0 + 1, [seed]), @nil (Event V)).
    cbv iota beta.
    rewrite generator_loop_take by lia. simpl.
    replace (Z.to_nat n) with (S (Z.to_nat (n - (0 + 1)))) by lia.
    reflexivity.
  - replace (Z.to_nat n) with 0%nat by lia. reflexivity.
Qed.

(** What one intermediate operation yields, from what the sequence it is
    called on yields. *)
Lemma toArray_apply_op (fuel : nat) (op : Op V) (vs : list V) :
  exists ws, forall (s' : Sequence V) (st' st1' : Store V) (es' : list (Event V)),
    toArray fuel s' st' = (Return vs, st1', es') ->
    exists st2 es2,
      toArray fuel (fst (apply_op s' op)) st' = (Return ws, st2, es2).
Proof.
  assert (Hfull : forall (o : Outcome V (list V)) ws,
             result_of o = Return ws -> exists st2 es2, o = (Return ws, st2, es2)).
  { intros [[r t] e] ws Hr. unfold result_of in Hr. simpl in Hr. subst r. eauto. }
  destruct op as [f | p | n | n | p | p]; simpl.
  - eexists. intros s' st' st1' es' H'. apply Hfull. eapply toArray_map; eassumption.
  - eexists. intros s' st' st1' es' H'. apply Hfull. eapply toArray_filter; eassumption.
  - eexists. intros s' st' st1' es' H'. apply Hfull. eapply toArray_take; eassumption.
  - eexists. intros s' st' st1' es' H'. apply Hfull. eapply toArray_drop; eassumption.
  - eexists. intros s' st' st1' es' H'. apply Hfull. eapply dropWhile_values; eassumption.
  - eexists. intros s' st' st1' es' H'. apply Hfull. eapply takeWhile_values; eassumption.
Qed.

(** X19. A pipeline of [map], [filter], [take], [drop], [dropWhile] and
    [takeWhile] depends on the sequence it starts from only through the
    values of that sequence: it yields what the same pipeline yields over the
    array of these values. *)
Theorem pipeline_depends_on_values (fuel : nat) (ops : list (Op V)) :
  forall (s : Sequence V) (st st1 : Store V) (vs : list V) (es : list (Event V)),
    toArray fuel s st = (Return vs, st1, es) ->
    exists ws,
      result_of (toArray fuel (chain s ops) st) = Return ws /\
      forall st', result_of (toArray fuel (chain (of_ vs) ops) st') = Return ws.
Proof.
  induction ops as [|op ops IH]; intros s st st1 vs es H.
  - exists vs. unfold chain; simpl. split; [now rewrite H|].
    intros st'. now rewrite toArray_of.
  - destruct (toArray_apply_op fuel op vs) as [ws Hop].
    destruct (Hop s st st1 es H) as (st2 & es2 & Hs).
    destruct (IH _ _ _ _ _ Hs) as (out & Hout & Hfrom).
    exists out. split.
    + unfold chain in *. simpl. destruct (apply_op s op) as [s1 e1].
      simpl in *. destruct (build s1 ops) as [s3 e3]. exact Hout.
    + intros st'.
      destruct (Hop (of_ vs) st' st' (List.map EPull vs) (toArray_of fuel vs st'))
        as (st3 & es3 & Hof).
      destruct (IH _ _ _ _ _ Hof) as (out' & Hout' & Hfrom').
      assert (out' = out).
      { pose proof (Hfrom st') as H1. pose proof (Hfrom' st') as H2.
        congruence. }
      subst out'.
      unfold chain in *. simpl. destruct (apply_op (of_ vs) op) as [s1 e1].
      simpl in *. destruct (build s1 ops) as [s3 e3]. exact Hout'.
Qed.

Lemma iter_shift (g : V -> V) (k : nat) (x : V) :
  Nat.iter (S k) g x = Nat.iter k g (g x).
Proof. induction k as [|k IH]; [reflexivity|]. simpl in *. now rewrite IH. Qed.

Lemma generator_loop_elementAt (g : V -> V) (index : Z) :
  forall (fuel : nat) (current : V) (n : Z),
    1 <= n <= index -> (Z.to_nat (index - n) < fuel)%nat ->
    generator_loop fuel (fun v => Some (g v)) current (elementAt_body index)
      (n, None) =
    (Stop, (index + 1, Some (Nat.iter (S (Z.to_nat (index - n))) g current)),
     List.map EGen (iterate g (S (Z.to_nat (index - n))) current)).
Proof.
  induction fuel as [|fuel IH]; intros current n Hn Hfuel; [lia|].
  cbn [generator_loop]. unfold elementAt_body at 1.
  destruct (Z.eqb_spec index n) as [-> | Hne].
  - rewrite Z.sub_diag. reflexivity.
  - rewrite IH by lia.
    replace (Z.to_nat (index - n)) with (S (Z.to_nat (index - (n + 1)))) by lia.
    rewrite (iter_shift g (S (Z.to_nat (index - (n + 1))))). reflexivity.
Qed.

(** X23. [elementAt] does not hang on the endless sequence of [generate]:
    the index being not negative, it gives the seed after that many
    applications of [nextValue], and has called [nextValue] that many times
    and no more. *)
Theorem elementAt_of_endless_generate (fuel : nat) (seed : V) (g : V -> V)
    (index : Z) (st : Store V) :
  0 <= index -> (Z.to_nat index <= fuel)%nat ->
  elementAt fuel (generate seed (fun v => Some (g v))) index st =
  (Return (Some (Nat.iter (Z.to_nat index) g seed)), st,
   List.map EGen (iterate g (Z.to_nat index) seed)).
Proof.
  intros Hindex Hfuel. unfold elementAt, generate.
  destruct (Z.ltb_spec index 0); [lia|]. cbn [foreach].
  unfold elementAt_body at 1.
  destruct (Z.eqb_spec index 0) as [-> | Hne]; [reflexivity|].
  rewrite generator_loop_elementAt by lia.
  replace (S (Z.to_nat (index - (0 + 1)))) with (Z.to_nat index) by lia.
  reflexivity.
Qed.

(** X24. [concat] with a sequence made by [of] or [from] over an array
    yields the values of the first sequence and then those of the array;
    when the first sequence announces the number of its values, the
    concatenation announces the number of its own. *)
Theorem concat_with_array (fuel : nat) (a : Sequence V) (ys : list V)
    (st st1 : Store V) (va : list V) (es : list (Event V)) :
  toArray fuel a st = (Return va, st1, es) ->
  toArray fuel (concat a (of_ ys)) st =
    (Return (va ++ ys), st1, es ++ List.map EPull ys) /\
  toArray fuel (concat a (from_iterable ys)) st =
    (Return (va ++ ys), st1, es ++ List.map EPull ys) /\
  (size a = Z.of_nat (List.length va) ->
   size (concat a (of_ ys)) = Z.of_nat (List.length (va ++ ys))).
Proof.
  intros H. split; [|split].
  - unfold of_. now apply concat_plain_values.
  - unfold from_iterable. now apply concat_plain_values.
  - intros Hsize. unfold concat, new_ConcatSequence, of_. cbn [size].
    rewrite Hsize, length_app.
    destruct (Z.ltb_spec (Z.of_nat (List.length va)) 0); [lia|].
    destruct (Z.ltb_spec (Z.of_nat (List.length ys)) 0); [lia|].
    cbn [orb size]. lia.
Qed.

Lemma while_spec_split (p : V -> Z -> bool) (xs : list V) (k : Z) :
  takeWhile_spec p k xs ++ dropWhile_spec p k xs = xs.
Proof.
  revert k; induction xs as [|x xs IH]; intros k; simpl; [reflexivity|].
  destruct (p x k); simpl; [now rewrite IH|reflexivity].
Qed.

(** X26. [take(n)] and [drop(n)] split a sequence in two: what the one
    yields followed by what the other yields is what the sequence yields;
    so do [takeWhile(predicate)] and [dropWhile(predicate)]. *)
Theorem take_drop_split (fuel : nat) (s : Sequence V) (n : Z)
    (p : Callback V bool) (st st1 : Store V) (vs : list V)
    (es : list (Event V)) :
  toArray fuel s st = (Return vs, st1, es) ->
  exists front back front' back',
    result_of (toArray fuel (take s n) st) = Return front /\
    result_of (toArray fuel (drop s n) st) = Return back /\
    front ++ back = vs /\
    result_of (toArray fuel (takeWhile s p) st) = Return front' /\
    result_of (toArray fuel (dropWhile s p) st) = Return back' /\
    front' ++ back' = vs.
Proof.
  intros H.
  exists (firstn (Z.to_nat n) vs), (skipn (Z.to_nat n) vs),
         (takeWhile_spec (cb_fun p) 0 vs), (dropWhile_spec (cb_fun p) 0 vs).
  split; [eapply toArray_take; eassumption|].
  split; [eapply toArray_drop; eassumption|].
  split; [apply firstn_skipn|].
  split; [eapply takeWhile_values; eassumption|].
  split; [eapply dropWhile_values; eassumption|].
  apply while_spec_split.
Qed.

Lemma generator_loop_prefix (g : V -> V) (L : Type) (b : Body V L) (k : nat) :
  forall (fuel : nat) (current : V) (l l' : L) (es : list (Event V)),
    each (iterate g (S k) (g current)) b l = (Stop, l', es) ->
    (k < fuel)%nat ->
    exists es',
      generator_loop fuel (fun v => Some (g v)) current b l = (Stop, l', es').
Proof.
  induction k as [|k IH]; intros fuel current l l' es Heach Hfuel;
    (destruct fuel as [|fuel]; [lia|]); cbn [generator_loop];
    match type of Heach with
    | each (iterate g (S ?n) ?x) _ _ = _ =>
        change (iterate g (S n) x) with (x :: iterate g n (g x)) in Heach
    end;
    cbn [each] in Heach;
    destruct (b (g current) l) as [[c l1] e1]; destruct c;
    try (inversion Heach; subst; eauto; fail);
    try (simpl in Heach; discriminate).
  destruct (each (iterate g (S k) (g (g current))) b l1) as [[c2 l2] e2] eqn:Hrest.
  inversion Heach; subst c2 l2.
  destruct (IH fuel (g current) l1 l' e2 Hrest ltac:(lia)) as [es' Hloop].
  rewrite Hloop. eauto.
Qed.

(** X27. A consumer that stops within the first [k + 1] values of the
    endless sequence of [generate] ends there, with the local variables it
    would have over the array of these values: the short-circuiting
    operations do not hang on an endless sequence. *)
Theorem stopping_on_endless_generate (fuel : nat) (seed : V) (g : V -> V)
    (L : Type) (b : Body V L) (k : nat) (l l' : L) (es : list (Event V))
    (st : Store V) :
  each (iterate g (S k) seed) b l = (Stop, l', es) ->
  (k <= fuel)%nat ->
  exists es',
    foreach fuel (generate seed (fun v => Some (g v))) b l st =
    (Stop, l', st, es').
Proof.
  intros Heach Hfuel. unfold generate. cbn [foreach].
  change (iterate g (S k) seed) with (seed :: iterate g k (g seed)) in Heach.
  cbn [each] in Heach.
  destruct (b seed l) as [[c l1] e1]. destruct c;
    try (inversion Heach; subst; eauto; fail).
  destruct k as [|k]; [simpl in Heach; discriminate|].
  destruct (each (iterate g (S k) (g seed)) b l1) as [[c2 l2] e2] eqn:Hrest.
  inversion Heach; subst c2 l2.
  destruct (@generator_loop_prefix g L b k fuel seed l1 l' e2 Hrest ltac:(lia))
    as [es' Hloop].
  rewrite Hloop. eauto.
Qed.

Lemma generator_loop_endless (g : V -> V) (L : Type) (b : Body V L) :
  (forall v l, fst (fst (b v l)) = Next) ->
  forall (fuel : nat) (current : V) (l : L),
    fst (fst (generator_loop fuel (fun v => Some (g v)) current b l)) =
    Fail Diverged.
Proof.
  intros Hb. induction fuel as [|fuel IH]; intros current l; [reflexivity|].
  cbn [generator_loop]. specialize (Hb (g current) l).
  destruct (b (g current) l) as [[c l1] e1]. simpl in Hb. subst c.
  specialize (IH (g current) l1).
  destruct (generator_loop fuel (fun v => Some (g v)) (g current) b l1)
    as [[c2 l2] e2]. exact IH.
Qed.

(** X28. The operations that run to the end of the sequence never return on
    the endless sequence of [generate]: whatever the number of steps allowed,
    [fold], [toArray], [count], [last] and [forEach] are still running when
    the steps are used up. *)
Theorem running_on_endless_generate (fuel : nat) (seed : V) (g : V -> V)
    (R : Type) (initial : R) (operation : Operation V R)
    (predicate : option (Callback V bool)) (action : Callback V unit)
    (st : Store V) :
  let s := generate seed (fun v => Some (g v)) in
  result_of (fold fuel s initial operation st) = Throw Diverged /\
  result_of (toArray fuel s st) = Throw Diverged /\
  result_of (count fuel s predicate st) = Throw Diverged /\
  result_of (last fuel s st) = Throw Diverged /\
  result_of (forEach fuel s action st) = Throw Diverged.
Proof.
  assert (Hgen : forall (L A : Type) (b : Body V L) (f : L -> A) (l : L),
             (forall v m, fst (fst (b v m)) = Next) ->
             result_of (complete f
                          (foreach fuel (generate seed (fun v => Some (g v))) b l st)) =
             Throw Diverged).
  { intros L A b f l Hb. unfold generate. cbn [foreach].
    pose proof (Hb seed l) as H0.
    destruct (b seed l) as [[c l1] e1]. simpl in H0. subst c.
    pose proof (@generator_loop_endless g L b Hb fuel seed l1) as H1.
    destruct (generator_loop fuel (fun v => Some (g v)) seed b l1)
      as [[c2 l2] e2]. simpl in H1. subst c2. reflexivity. }
  intros s. unfold toArray, fold, count, last, forEach.
  split; [apply Hgen; intros v [i a]; reflexivity|].
  split; [apply Hgen; intros v [i a]; reflexivity|].
  split; [apply Hgen; intros v [i a]; reflexivity|].
  split; [apply Hgen; intros v a; reflexivity|].
  apply Hgen; intros v a; reflexivity.
Qed.

End Terminal.

(** ** Sequences without a constrained part *)

Section Pure.

Variable V : Type.

Ltac pure_wrapper IHs fuel s :=
  split; [|apply IHs; assumption];
  simpl;
  match goal with
  | |- context [foreach fuel s ?b ?l ?st] =>
      let H := fresh "H" in
      pose proof (proj1 (IHs ltac:(assumption) _ b l st)) as H;
      destruct (foreach fuel s b l st) as [[[? ?] ?] ?];
      repeat match goal with p : (_ * _)%type |- _ => destruct p end;
      exact H
  end.

(** A traversal of a sequence that has no constrained sequence inside leaves
    the store as it found it. *)
Lemma foreach_pure (fuel : nat) (s : Sequence V) :
  all_self (fun _ => False) s ->
  forall (L : Type) (b : Body V L) l st,
    snd (fst (foreach fuel s b l st)) = st /\
    snd (fst (foreach_field fuel s b l st)) = st.
Proof.
  induction s using Sequence_ind2 with (P0 := fun _ => True);
    try (intros Hall L b l st).
  - simpl. destruct (each _values b l) as [[c m] e]. auto.
  - split; [|reflexivity]. simpl.
    destruct (b initial l) as [[c m] e]. destruct c; auto.
    destruct (generator_loop fuel nextValue initial b m) as [[c2 m2] e2]. auto.
  - destruct Hall as [Ha1 Ha2].
    split; [|apply IHs1; exact Ha1].
    change (snd (fst
      (let '(c, m, st', es) := foreach fuel s1 b l st in
       match c with
       | Next => let '(c2, m2, st2, es2) := foreach_field fuel s2 b m st' in
                 (c2, m2, st2, es ++ es2)
       | _ => (c, m, st', es)
       end)) = st).
    pose proof (proj1 (IHs1 Ha1 _ b l st)) as H1.
    destruct (foreach fuel s1 b l st) as [[[c m] t] e]. simpl in H1. subst t.
    destruct c; auto.
    pose proof (proj2 (IHs2 Ha2 _ b m st)) as H2.
    destruct (foreach_field fuel s2 b m st) as [[[c2 m2] t2] e2]. exact H2.
  - destruct Hall as [[] _].
  - simpl in Hall. pure_wrapper IHs fuel s.
  - simpl in Hall. pure_wrapper IHs fuel s.
  - simpl in Hall. pure_wrapper IHs fuel s.
  - simpl in Hall. pure_wrapper IHs fuel s.
  - simpl in Hall. pure_wrapper IHs fuel s.
  - simpl in Hall. pure_wrapper IHs fuel s.
  - exact I.
  - exact I.
Qed.

Lemma terminal_pure (fuel : nat) (s : Sequence V) (L A : Type) (b : Body V L)
    (result : L -> A) (l0 : L) (st st1 : Store V) (vs : list V)
    (es : list (Event V)) :
  (forall v l, fst (fst (b v l)) = Next \/ fst (fst (b v l)) = Stop) ->
  toArray fuel s st = (Return vs, st1, es) ->
  all_self (fun _ => False) s ->
  exists es',
    complete result (foreach fuel s b l0 st) =
    (Return (result (snd (fst (each vs b l0)))), st, es').
Proof.
  intros Hb H Hpure.
  pose proof (foreach_on_values fuel s b result l0 st Hb H) as Hr.
  pose proof (proj1 (foreach_pure fuel s Hpure b l0 st)) as Hs.
  destruct (foreach fuel s b l0 st) as [[[c l] t] e]. simpl in Hs. subst t.
  unfold result_of in Hr. exists e.
  destruct c; simpl in *; congruence.
Qed.

Lemma fold_left_reduce_operation (operation : Operation V V)
    (l : list (V * Z)) (x : V) :
  fold_left (fun acc y => op_fun (reduce_operation operation) acc (fst y) (snd y))
    l (Some x) =
  Some (fold_left (fun acc y => op_fun operation acc (fst y) (snd y)) l x).
Proof.
  revert x; induction l as [|[y i] l IH]; intros x; simpl; [reflexivity|].
  apply IH.
Qed.

(** X17. On a sequence that has no constrained sequence inside, [reduce]
    gives [null] when there is no value, and otherwise the left fold of the
    values after the first one, starting from the first one; the index the
    operation receives is 0 on the second value of the sequence. *)
Theorem reduce_is_fold_from_first (fuel : nat) (s : Sequence V)
    (operation : Operation V V) (st st1 : Store V) (vs : list V)
    (es : list (Event V)) :
  toArray fuel s st = (Return vs, st1, es) ->
  all_self (fun _ => False) s ->
  result_of (reduce fuel s operation st) =
  Return (match vs with
          | [] => None
          | x :: rest =>
              Some (fold_left (fun acc y => op_fun operation acc (fst y) (snd y))
                      (indexed rest) x)
          end).
Proof.
  intros H Hpure. unfold reduce.
  destruct (terminal_pure fuel s (@isEmpty_body V) (fun l => l) true st
              ltac:(intros v a; right; reflexivity) H Hpure) as [e1 He].
  unfold isEmpty. rewrite He.
  destruct vs as [|x rest]; [reflexivity|]. simpl each.
  cbn [fst snd].
  destruct (terminal_pure fuel s (@first_body V) (fun l => l) None st
              ltac:(intros v a; right; reflexivity) H Hpure) as [e2 Hf].
  unfold first. rewrite Hf. simpl each. cbn [fst snd].
  assert (Hd : result_of (toArray fuel (drop s 1) st) =
               Return (skipn (Z.to_nat 1) (x :: rest)))
    by (eapply toArray_drop; eassumption).
  destruct (toArray fuel (drop s 1) st) as [[r t] e3] eqn:Hdrop.
  unfold result_of in Hd. simpl in Hd. subst r.
  pose proof (foreach_on_values fuel (drop s 1)
                (fold_body (reduce_operation operation)) snd (0, Some x) st
                ltac:(intros v [i a]; left; reflexivity) Hdrop) as Hfold.
  rewrite each_fold in Hfold. simpl in Hfold.
  unfold fold.
  destruct (complete snd
              (foreach fuel (drop s 1) (fold_body (reduce_operation operation))
                 (0, Some x) st)) as [[r t'] e4].
  unfold result_of in *. simpl in *. subst r. f_equal.
  exact (fold_left_reduce_operation operation (indexed_from 0 rest) x).
Qed.

(** X18. On a sequence that has no constrained sequence inside,
    [containsAll(values)] says whether every one of [values] is identical to
    some value of the sequence; it holds of no values at all. *)
Theorem containsAll_is_inclusion (same : V -> V -> bool) (fuel : nat)
    (s : Sequence V) (values : list V) (st st1 : Store V) (vs : list V)
    (es : list (Event V)) :
  toArray fuel s st = (Return vs, st1, es) ->
  all_self (fun _ => False) s ->
  result_of (containsAll same fuel s values st) =
  Return (forallb (fun value => existsb (fun x => same x value) vs) values).
Proof.
  intros H Hpure.
  induction values as [|value values IH]; [reflexivity|].
  cbn [containsAll forallb].
  destruct (terminal_pure fuel s (contains_body same value) (fun l => l)
              false st
              ltac:(intros v a; unfold contains_body;
                    destruct (same v value); auto) H Hpure) as [e1 Hc].
  unfold contains. rewrite Hc. rewrite each_contains.
  destruct (existsb (fun x => same x value) vs); [|reflexivity].
  destruct (containsAll same fuel s values st) as [[r t] e2].
  unfold result_of in *. simpl in *. exact IH.
Qed.

End Pure.

(** ** Constrained sequences and the operations that traverse more than once *)

Section Constrained.

Variable V : Type.

Lemma toArray_consumed (fuel : nat) (self : nat) (it : IteratorRef V) (sz : Z)
    (st : Store V) :
  is_iterated self st = true ->
  toArray fuel (ConstrainedSequence self it sz) st =
  (Throw IllegalStateError, st, []).
Proof.
  intros H. unfold toArray, fold. now rewrite constrained_consumed.
Qed.

Lemma complete_store (L A : Type) (result : L -> A)
    (r : Ctl * L * Store V * list (Event V)) :
  store_of (complete result r) = snd (fst r).
Proof. destruct r as [[[c l] t] e]. now destruct c. Qed.

(** X20. Looking at a constrained sequence uses it up: after [first()],
    [isEmpty()], [toString()] or [elementAt] with an index that is not
    negative, whatever they gave, a traversal throws [IllegalStateError].
    [elementAt] with a negative index leaves the sequence as it was. *)
Theorem peeking_consumes_constrained (fuel : nat) (self : nat)
    (it : IteratorRef V) (sz : Z) (index : Z) (st : Store V) :
  let c := ConstrainedSequence self it sz in
  let consumed := fun st' : Store V =>
    toArray fuel c st' = (Throw IllegalStateError, st', []) in
  consumed (store_of (first fuel c st)) /\
  consumed (store_of (isEmpty fuel c st)) /\
  consumed (store_of (toString fuel c st)) /\
  (if index <? 0 then elementAt fuel c index st = (Return None, st, [])
   else consumed (store_of (elementAt fuel c index st))).
Proof.
  intros c consumed. unfold consumed, c.
  assert (Hempty : is_iterated self (store_of (isEmpty fuel c st)) = true).
  { unfold isEmpty. rewrite complete_store. apply constrained_sets_flag. }
  split; [|split; [|split]].
  - apply toArray_consumed. unfold first. rewrite complete_store.
    apply constrained_sets_flag.
  - apply toArray_consumed. exact Hempty.
  - apply toArray_consumed. unfold toString. fold c.
    destruct (isEmpty fuel c st) as [[r t] e]. unfold store_of in *.
    simpl in Hempty. destruct r as [[|]|err]; exact Hempty.
  - unfold elementAt. destruct (index <? 0); [reflexivity|].
    apply toArray_consumed. rewrite complete_store.
    apply constrained_sets_flag.
Qed.

(** X21. The operations that traverse more than once fail on a constrained
    sequence: [reduce] throws [IllegalStateError] unless the sequence is
    empty, in which case it gives [null]; [containsAll] with two or more
    values throws it when the first of them is found, and otherwise gives
    what [contains] gives on the first. *)
Theorem second_traversal_throws (same : V -> V -> bool) (fuel : nat)
    (self : nat) (it : IteratorRef V) (sz : Z) (operation : Operation V V)
    (a b : V) (rest : list V) (st : Store V) :
  let c := ConstrainedSequence self it sz in
  result_of (reduce fuel c operation st) =
    match result_of (isEmpty fuel c st) with
    | Return true => Return None
    | Return false => Throw IllegalStateError
    | Throw e => Throw e
    end /\
  result_of (containsAll same fuel c (a :: b :: rest) st) =
    match result_of (contains same fuel c a st) with
    | Return true => Throw IllegalStateError
    | r => r
    end.
Proof.
  intros c. split.
  - unfold reduce.
    assert (Hflag : is_iterated self (store_of (isEmpty fuel c st)) = true).
    { unfold isEmpty. rewrite complete_store. apply constrained_sets_flag. }
    destruct (isEmpty fuel c st) as [[r t] e]. unfold store_of in Hflag.
    simpl in Hflag. unfold result_of at 2. simpl.
    destruct r as [[|]|err]; try reflexivity.
    unfold first, c. rewrite constrained_consumed by exact Hflag. reflexivity.
  - cbn [containsAll].
    assert (Hflag : is_iterated self (store_of (contains same fuel c a st)) = true).
    { unfold contains. rewrite complete_store. apply constrained_sets_flag. }
    destruct (contains same fuel c a st) as [[r t] e]. unfold store_of in Hflag.
    simpl in Hflag. unfold result_of at 2. simpl.
    destruct r as [[|]|err]; try reflexivity.
    unfold contains, c. rewrite constrained_consumed by exact Hflag. reflexivity.
Qed.

(** X22. [first()] and [isEmpty()] on the sequence that [from] makes around
    an iterator take two values off the iterator: the one they look at, and
    one more that nobody receives. *)
Theorem peeking_takes_two_from_iterator (fuel : nat) (address : nat)
    (st : Store V) (x y : V) (rest : list V) :
  is_iterated (fresh st) st = false ->
  cursors st address = x :: y :: rest ->
  let c := fst (from_iterator address st) in
  let st0 := snd (from_iterator address st) in
  result_of (first fuel c st0) = Return (Some x) /\
  cursors (store_of (first fuel c st0)) address = rest /\
  events_of (first fuel c st0) = [EPull x; EPull y] /\
  result_of (isEmpty fuel c st0) = Return false /\
  cursors (store_of (isEmpty fuel c st0)) address = rest /\
  events_of (isEmpty fuel c st0) = [EPull x; EPull y].
Proof.
  intros Hfresh Hcur c st0. unfold c, st0, from_iterator, first, isEmpty.
  cbn [fst snd foreach]. unfold is_iterated in *. cbn [iterated].
  rewrite Hfresh. cbn [set_iterated cursors]. rewrite Hcur.
  simpl. rewrite Nat.eqb_refl. repeat split; reflexivity.
Qed.

End Constrained.

(** ** [forEach] *)

Section ForEach.

Variable V : Type.

Lemma each_forEach (action : Callback V unit) (xs : list V) (index : Z) :
  fst (each xs
         (fun item index => (Next, index + 1, [ECall (cb_name action) item index]))
         index) =
  (Next, index + Z.of_nat (List.length xs)).
Proof.
  revert index; induction xs as [|x xs IH]; intros index; simpl.
  - now rewrite Z.add_0_r.
  - specialize (IH (index + 1)).
    destruct (each xs _ (index + 1)) as [[c l] e]. simpl in *.
    rewrite IH. f_equal. lia.
Qed.

(** X29. Over a pipeline on an array, [forEach(action)] calls the action
    once for every value the pipeline yields and no more, with the indexes
    0, 1, 2, ... in this order, and returns. *)
Theorem forEach_calls_once_per_value (fuel : nat) (xs : list V)
    (ops : list (Op V)) (action : Callback V unit) (st st1 : Store V)
    (vs : list V) (es : list (Event V)) :
  toArray fuel (chain (of_ xs) ops) st = (Return vs, st1, es) ->
  ~ In (cb_name action) (flat_map (@op_names V) ops) ->
  result_of (forEach fuel (chain (of_ xs) ops) action st) = Return tt /\
  indices_of (cb_name action)
    (events_of (forEach fuel (chain (of_ xs) ops) action st)) =
  zseq 0 (List.length vs).
Proof.
  intros H Hname. unfold forEach.
  set (body := fun (item : V) (index : Z) =>
                 (Next, index + 1, [ECall (cb_name action) item index])).
  assert (Hb : forall v l, fst (fst (body v l)) = Next \/ fst (fst (body v l)) = Stop)
    by (intros v l; left; reflexivity).
  pose proof (foreach_on_values fuel (chain (of_ xs) ops) body (fun l => l) 0 st
                Hb H) as Hlast.
  unfold body in Hlast at 2. rewrite each_forEach in Hlast. simpl in Hlast.
  assert (Hcounts : counts (cb_name action) (fun l : Z => l) body).
  { intros v l. right. unfold body. cbn [fst snd].
    rewrite indices_of_call, Nat.eqb_refl. auto. }
  assert (Hpulls : forall v m, pulls (snd (body v m)) = 0%nat)
    by (intros v m; reflexivity).
  destruct (@chain_counts V fuel xs (Z.of_nat (List.length xs)) ops Z body
              (fun l => l) 0 st (cb_name action) Hcounts Hpulls Hname)
    as [(Hidx & _) Hk].
  fold (of_ xs) in Hidx, Hk.
  destruct (foreach fuel (chain (of_ xs) ops) body 0 st) as [[[c l] t] e].
  unfold result_of, events_of in *. simpl in *.
  destruct c; simpl in *; try discriminate;
    (split; [reflexivity|]); inversion Hlast; subst l;
    rewrite Hidx; f_equal; lia.
Qed.

End ForEach.

Lemma forEach_calls_once_per_value_witness :
  let even := mkCallback 1%nat (fun (x : Z) (_ : Z) => Z.even x) in
  let double := mkCallback 2%nat (fun (x : Z) (_ : Z) => 2 * x) in
  let action := mkCallback 3%nat (fun (_ : Z) (_ : Z) => tt) in
  let ops := [OpFilter even; OpMap double; @OpTake Z 2] in
  let s := chain (of_ [1; 2; 3; 4; 5; 6]) ops in
  toArray 0 s initial_store =
    (Return [4; 8], initial_store, events_of (toArray 0 s initial_store)) /\
  ~ In (cb_name action) (flat_map (@op_names Z) ops) /\
  result_of (forEach 0 s action initial_store) = Return tt /\
  indices_of 3 (events_of (forEach 0 s action initial_store)) = [0; 1].
Proof.
  intros even double action ops s.
  assert (H : toArray 0 s initial_store =
              (Return [4; 8], initial_store,
               events_of (toArray 0 s initial_store))) by reflexivity.
  assert (Hname : ~ In (cb_name action) (flat_map (@op_names Z) ops)).
  { simpl. intuition discriminate. }
  split; [exact H|]. split; [exact Hname|].
  exact (@forEach_calls_once_per_value Z 0 [1; 2; 3; 4; 5; 6] ops action
           _ _ _ _ H Hname).
Defined.

(** ** The asynchronous sequence against the synchronous one *)

(** X25. On an array, the asynchronous [find], which awaits its predicate,
    and the asynchronous [contains] resolve to what the synchronous [find]
    and [contains] give on the same values with the awaited predicate. *)
Theorem async_find_contains_agree (V : Type) (same : V -> V -> bool)
    (name : nat) (predicate : V -> Z -> Async.Awaitable bool) (xs : list V)
    (value : V) (fuel : nat) (st : Store V) :
  result_of
    (find fuel (of_ xs)
       (mkCallback name (fun v i => Async.await (predicate v i))) st) =
    Return (Async.await (Async.find (Async.of_ xs) predicate)) /\
  result_of (contains same fuel (of_ xs) value st) =
    Return (Async.await (Async.contains same (Async.of_ xs) value)).
Proof.
  split.
  - set (cb := mkCallback name (fun v i => Async.await (predicate v i))).
    unfold find.
    rewrite (foreach_on_values fuel (of_ xs) (find_body cb) snd (0, None) st
               ltac:(intros v [i a]; unfold find_body;
                     destruct (cb_fun cb v i); auto)
               (toArray_of fuel xs st)).
    rewrite each_find. unfold Async.find, Async.of_. simpl. f_equal.
    generalize 0 as k.
    induction xs as [|x xs IH]; intros k; simpl; [reflexivity|].
    destruct (Async.await (predicate x k)); [reflexivity|apply IH].
  - unfold contains.
    rewrite (foreach_on_values fuel (of_ xs) (contains_body same value)
               (fun l => l) false st
               ltac:(intros v a; unfold contains_body;
                     destruct (same v value); auto)
               (toArray_of fuel xs st)).
    rewrite each_contains. unfold Async.contains, Async.of_. simpl. f_equal.
    induction xs as [|x xs IH]; simpl; [reflexivity|].
    destruct (same x value); [reflexivity|exact IH].
Qed.

(** ** Instances of the theorems above *)

Lemma fold_is_left_fold_witness :
  let even := mkCallback 1%nat (fun (x : Z) (_ : Z) => Z.even x) in
  let s := filter (of_ [1; 2; 3; 4; 5; 6]) even in
  let weighted := mkOperation (Some 2%nat) (fun acc v i => acc + v * i) in
  toArray 0 s initial_store =
    (Return [2; 4; 6], initial_store, events_of (toArray 0 s initial_store)) /\
  result_of (fold 0 s 100 weighted initial_store) = Return 116.
Proof.
  intros even s weighted.
  assert (H : toArray 0 s initial_store =
              (Return [2; 4; 6], initial_store,
               events_of (toArray 0 s initial_store))) by reflexivity.
  split; [exact H|].
  exact (@fold_is_left_fold Z 0 s Z 100 weighted _ _ _ _ H).
Defined.

Lemma count_is_number_of_matches_witness :
  let s := drop (of_ [1; 2; 3; 4; 5; 6]) 2 in
  let late := mkCallback 1%nat (fun (x : Z) (i : Z) => (4 <? x) && (1 <? i)) in
  toArray 0 s initial_store =
    (Return [3; 4; 5; 6], initial_store, events_of (toArray 0 s initial_store)) /\
  result_of (count 0 s (Some late) initial_store) = Return 2 /\
  result_of (count 0 s None initial_store) = Return 4.
Proof.
  intros s late.
  assert (H : toArray 0 s initial_store =
              (Return [3; 4; 5; 6], initial_store,
               events_of (toArray 0 s initial_store))) by reflexivity.
  split; [exact H|].
  exact (@count_is_number_of_matches Z 0 s late _ _ _ _ H).
Defined.

Lemma every_some_quantify_witness :
  let s := take (of_ [2; 4; 5; 6]) 2 in
  let even := mkCallback 1%nat (fun (x : Z) (_ : Z) => Z.even x) in
  toArray 0 s initial_store =
    (Return [2; 4], initial_store, events_of (toArray 0 s initial_store)) /\
  result_of (every 0 s even initial_store) = Return true /\
  result_of (some 0 s (Some even) initial_store) = Return true /\
  result_of (some 0 s None initial_store) = Return true.
Proof.
  intros s even.
  assert (H : toArray 0 s initial_store =
              (Return [2; 4], initial_store,
               events_of (toArray 0 s initial_store))) by reflexivity.
  split; [exact H|].
  exact (@every_some_quantify Z 0 s even _ _ _ _ H).
Defined.

Lemma find_is_first_match_witness :
  let double := mkCallback 1%nat (fun (x : Z) (_ : Z) => 2 * x) in
  let s := map (of_ [1; 2; 3; 4]) double in
  let big := mkCallback 2%nat (fun (x : Z) (i : Z) => (3 <? x) && (2 <=? i)) in
  toArray 0 s initial_store =
    (Return [2; 4; 6; 8], initial_store, events_of (toArray 0 s initial_store)) /\
  result_of (find 0 s big initial_store) = Return (Some 6) /\
  result_of (findIndex 0 s 3%nat (fun x => 3 <? x) initial_store) = Return 1.
Proof.
  intros double s big.
  assert (H : toArray 0 s initial_store =
              (Return [2; 4; 6; 8], initial_store,
               events_of (toArray 0 s initial_store))) by reflexivity.
  split; [exact H|].
  exact (@find_is_first_match Z 0 s big 3%nat (fun x => 3 <? x) _ _ _ _ H).
Defined.

Lemma findLast_is_last_match_witness :
  let s := drop (of_ [9; 1; 8; 2; 7]) 1 in
  let small := mkCallback 1%nat (fun (x : Z) (i : Z) => (x <? 5) && (i <? 3)) in
  toArray 0 s initial_store =
    (Return [1; 8; 2; 7], initial_store, events_of (toArray 0 s initial_store)) /\
  result_of (findLast 0 s small initial_store) = Return (Some 2) /\
  result_of (findLastIndex 0 s 2%nat (fun x => 5 <? x) initial_store) = Return 3.
Proof.
  intros s small.
  assert (H : toArray 0 s initial_store =
              (Return [1; 8; 2; 7], initial_store,
               events_of (toArray 0 s initial_store))) by reflexivity.
  split; [exact H|].
  exact (@findLast_is_last_match Z 0 s small 2%nat (fun x => 5 <? x) _ _ _ _ H).
Defined.

Lemma elementAt_is_nth_witness :
  let s := generate 1 (fun x => if x <? 4 then Some (x + 1) else None) in
  toArray 9 s initial_store =
    (Return [1; 2; 3; 4], initial_store, events_of (toArray 9 s initial_store)) /\
  result_of (elementAt 9 s 2 initial_store) = Return (Some 3) /\
  result_of (elementAt 9 s 4 initial_store) = Return None /\
  result_of (elementAt 9 s (-1) initial_store) = Return None.
Proof.
  intros s.
  assert (H : toArray 9 s initial_store =
              (Return [1; 2; 3; 4], initial_store,
               events_of (toArray 9 s initial_store))) by reflexivity.
  split; [exact H|].
  split; [exact (@elementAt_is_nth Z 9 s 2 _ _ _ _ H)|].
  split; [exact (@elementAt_is_nth Z 9 s 4 _ _ _ _ H)|].
  exact (@elementAt_is_nth Z 9 s (-1) _ _ _ _ H).
Defined.

Lemma findIndex_locates_find_witness :
  let double := mkCallback 1%nat (fun (x : Z) (_ : Z) => 2 * x) in
  let s := map (of_ [1; 2; 3; 4]) double in
  let q := fun x : Z => 5 <? x in
  let found := result_of (find 0 s (mkCallback 2%nat (fun v _ => q v)) initial_store) in
  toArray 0 s initial_store =
    (Return [2; 4; 6; 8], initial_store, events_of (toArray 0 s initial_store)) /\
  findIndex 0 s 2%nat q initial_store =
    (Return 2, initial_store, events_of (findIndex 0 s 2%nat q initial_store)) /\
  ((2 = -1 /\ found = Return None) \/
   (0 <= 2 < Z.of_nat (List.length [2; 4; 6; 8]) /\
    exists v, q v = true /\ found = Return (Some v) /\
              result_of (elementAt 0 s 2 initial_store) = Return (Some v))).
Proof.
  intros double s q found.
  assert (H : toArray 0 s initial_store =
              (Return [2; 4; 6; 8], initial_store,
               events_of (toArray 0 s initial_store))) by reflexivity.
  assert (Hi : findIndex 0 s 2%nat q initial_store =
               (Return 2, initial_store,
                events_of (findIndex 0 s 2%nat q initial_store))) by reflexivity.
  split; [exact H|]. split; [exact Hi|].
  exact (@findIndex_locates_find Z 0 s 2%nat q 2 _ _ _ _ _ _ H Hi).
Defined.

Lemma indexOf_lastIndexOf_contains_witness :
  let s := drop (of_ [7; 5; 7; 9; 7; 3]) 1 in
  toArray 0 s initial_store =
    (Return [5; 7; 9; 7; 3], initial_store, events_of (toArray 0 s initial_store)) /\
  exists i j,
    result_of (indexOf Z.eqb 0 s 7 initial_store) = Return i /\
    result_of (lastIndexOf Z.eqb 0 s 7 initial_store) = Return j /\
    result_of (contains Z.eqb 0 s 7 initial_store) = Return (0 <=? i) /\
    ((i = -1 /\ j = -1 /\ forall x, In x [5; 7; 9; 7; 3] -> Z.eqb x 7 = false) \/
     (0 <= i <= j /\ j < Z.of_nat (List.length [5; 7; 9; 7; 3]) /\
      (exists v w, nth_error [5; 7; 9; 7; 3] (Z.to_nat i) = Some v /\
                   Z.eqb v 7 = true /\
                   nth_error [5; 7; 9; 7; 3] (Z.to_nat j) = Some w /\
                   Z.eqb w 7 = true) /\
      (forall k x, nth_error [5; 7; 9; 7; 3] k = Some x -> Z.eqb x 7 = true ->
                   i <= Z.of_nat k <= j))).
Proof.
  intros s.
  assert (H : toArray 0 s initial_store =
              (Return [5; 7; 9; 7; 3], initial_store,
               events_of (toArray 0 s initial_store))) by reflexivity.
  split; [exact H|].
  exact (@indexOf_lastIndexOf_contains Z Z.eqb 0 s 7 _ _ _ _ H).
Defined.

Lemma first_last_isEmpty_witness :
  let odd := mkCallback 1%nat (fun (x : Z) (_ : Z) => Z.odd x) in
  let s := filter (of_ [2; 3; 4; 5; 6]) odd in
  toArray 0 s initial_store =
    (Return [3; 5], initial_store, events_of (toArray 0 s initial_store)) /\
  result_of (first 0 s initial_store) = Return (Some 3) /\
  result_of (last 0 s initial_store) = Return (Some 5) /\
  result_of (isEmpty 0 s initial_store) = Return false.
Proof.
  intros odd s.
  assert (H : toArray 0 s initial_store =
              (Return [3; 5], initial_store,
               events_of (toArray 0 s initial_store))) by reflexivity.
  split; [exact H|].
  exact (@first_last_isEmpty Z 0 s _ _ _ _ H).
Defined.

Lemma map_values_witness :
  let s := drop (of_ [1; 2; 3; 4]) 2 in
  let scale := mkCallback 1%nat (fun (x : Z) (i : Z) => 10 * x + i) in
  toArray 0 s initial_store =
    (Return [3; 4], initial_store, events_of (toArray 0 s initial_store)) /\
  result_of (toArray 0 (map s scale) initial_store) = Return [30; 41] /\
  size (map s scale) = size s.
Proof.
  intros s scale.
  assert (H : toArray 0 s initial_store =
              (Return [3; 4], initial_store,
               events_of (toArray 0 s initial_store))) by reflexivity.
  split; [exact H|].
  exact (@map_values Z 0 s scale _ _ _ _ H).
Defined.

Lemma filter_values_witness :
  let s := drop (of_ [1; 2; 3; 4; 5]) 1 in
  let pick := mkCallback 1%nat (fun (x : Z) (i : Z) => Z.even x || (i =? 3)) in
  toArray 0 s initial_store =
    (Return [2; 3; 4; 5], initial_store, events_of (toArray 0 s initial_store)) /\
  result_of (toArray 0 (filter s pick) initial_store) = Return [2; 4; 5] /\
  size (filter s pick) = -1.
Proof.
  intros s pick.
  assert (H : toArray 0 s initial_store =
              (Return [2; 3; 4; 5], initial_store,
               events_of (toArray 0 s initial_store))) by reflexivity.
  split; [exact H|].
  exact (@filter_values Z 0 s pick _ _ _ _ H).
Defined.

Lemma take_values_of_witness :
  let double := mkCallback 1%nat (fun (x : Z) (_ : Z) => 2 * x) in
  let s := map (of_ [1; 2; 3; 4]) double in
  toArray 0 s initial_store =
    (Return [2; 4; 6; 8], initial_store, events_of (toArray 0 s initial_store)) /\
  size s = Z.of_nat (List.length [2; 4; 6; 8]) /\ 0 <= 3 /\
  result_of (toArray 0 (take s 3) initial_store) = Return [2; 4; 6] /\
  size (take s 3) = 3.
Proof.
  intros double s.
  assert (H : toArray 0 s initial_store =
              (Return [2; 4; 6; 8], initial_store,
               events_of (toArray 0 s initial_store))) by reflexivity.
  assert (Hsize : size s = Z.of_nat (List.length [2; 4; 6; 8])) by reflexivity.
  assert (Hn : 0 <= 3) by lia.
  split; [exact H|]. split; [exact Hsize|]. split; [exact Hn|].
  split.
  - exact (proj1 (@take_values_of Z 0 s 3 _ _ _ _ H)).
  - exact (proj2 (@take_values_of Z 0 s 3 _ _ _ _ H) Hsize Hn).
Defined.

Lemma drop_values_of_witness :
  let double := mkCallback 1%nat (fun (x : Z) (_ : Z) => 2 * x) in
  let s := map (of_ [1; 2; 3; 4]) double in
  toArray 0 s initial_store =
    (Return [2; 4; 6; 8], initial_store, events_of (toArray 0 s initial_store)) /\
  size s = Z.of_nat (List.length [2; 4; 6; 8]) /\ 0 <= 3 /\
  result_of (toArray 0 (drop s 3) initial_store) = Return [8] /\
  size (drop s 3) = 1.
Proof.
  intros double s.
  assert (H : toArray 0 s initial_store =
              (Return [2; 4; 6; 8], initial_store,
               events_of (toArray 0 s initial_store))) by reflexivity.
  assert (Hsize : size s = Z.of_nat (List.length [2; 4; 6; 8])) by reflexivity.
  assert (Hn : 0 <= 3) by lia.
  split; [exact H|]. split; [exact Hsize|]. split; [exact Hn|].
  split.
  - exact (proj1 (@drop_values_of Z 0 s 3 _ _ _ _ H)).
  - exact (proj2 (@drop_values_of Z 0 s 3 _ _ _ _ H) Hsize Hn).
Defined.

Lemma join_format_witness :
  let s := take (generate 0 (fun x => Some (x + 1))) 20 in
  let options :=
    @mkJoinOptions Z None (Some "<"%string) (Some ">"%string) (Some 10) None None in
  toArray 30 s initial_store =
    (Return [0; 1; 2; 3; 4; 5; 6; 7; 8; 9; 10; 11; 12; 13; 14; 15; 16; 17; 18; 19],
     initial_store, events_of (toArray 30 s initial_store)) /\
  result_of (join number_toString 30 s options initial_store) =
    Return "<0, 1, 2, 3, 4, 5, 6, 7, 8, 9, ...>"%string.
Proof.
  intros s options.
  assert (H : toArray 30 s initial_store =
              (Return [0; 1; 2; 3; 4; 5; 6; 7; 8; 9; 10; 11; 12; 13; 14; 15; 16;
                       17; 18; 19],
               initial_store, events_of (toArray 30 s initial_store)))
    by reflexivity.
  split; [exact H|].
  exact (@join_format Z number_toString 30 s options _ _ _ _ H).
Defined.

Lemma generate_values_witness :
  let nextValue := fun x : Z => if x <? 8 then Some (2 * x) else None in
  (forall i v, nth_error [1; 2; 4; 8] i = Some v ->
               nextValue v = nth_error [1; 2; 4; 8] (S i)) /\
  (List.length [2; 4; 8] < 4)%nat /\
  toArray 4 (generate 1 nextValue) initial_store =
    (Return [1; 2; 4; 8], initial_store, [EGen 1; EGen 2; EGen 4; EGen 8]).
Proof.
  intros nextValue.
  assert (Hchain : forall i v, nth_error [1; 2; 4; 8] i = Some v ->
                               nextValue v = nth_error [1; 2; 4; 8] (S i)).
  { intros [|[|[|[|[|i]]]]] v Hv; simpl in Hv; inversion Hv; reflexivity. }
  assert (Hfuel : (List.length [2; 4; 8] < 4)%nat) by (simpl; lia).
  split; [exact Hchain|]. split; [exact Hfuel|].
  exact (@generate_values Z 4 1 nextValue [2; 4; 8] initial_store Hchain Hfuel).
Defined.

Lemma take_of_endless_generate_witness :
  (Z.to_nat 4 <= 4)%nat /\
  toArray 4 (take (generate 1 (fun v => Some (2 * v))) 4) initial_store =
    (Return [1; 2; 4; 8], initial_store, [EGen 1; EGen 2; EGen 4; EGen 8]).
Proof.
  assert (Hfuel : (Z.to_nat 4 <= 4)%nat) by (simpl; lia).
  split; [exact Hfuel|].
  exact (@take_of_endless_generate Z 4 1 (fun v => 2 * v) 4 initial_store Hfuel).
Defined.

Lemma reduce_is_fold_from_first_witness :
  let s := drop (of_ [9; 1; 2; 3]) 1 in
  let weighted := mkOperation (Some 1%nat) (fun acc v i => acc + v * (i + 10)) in
  toArray 0 s initial_store =
    (Return [1; 2; 3], initial_store, events_of (toArray 0 s initial_store)) /\
  all_self (fun _ => False) s /\
  result_of (reduce 0 s weighted initial_store) = Return (Some 54).
Proof.
  intros s weighted.
  assert (H : toArray 0 s initial_store =
              (Return [1; 2; 3], initial_store,
               events_of (toArray 0 s initial_store))) by reflexivity.
  assert (Hpure : all_self (fun _ => False) s) by exact I.
  split; [exact H|]. split; [exact Hpure|].
  exact (@reduce_is_fold_from_first Z 0 s weighted _ _ _ _ H Hpure).
Defined.

Lemma containsAll_is_inclusion_witness :
  let s := take (of_ [1; 2; 3; 4]) 3 in
  toArray 0 s initial_store =
    (Return [1; 2; 3], initial_store, events_of (toArray 0 s initial_store)) /\
  all_self (fun _ => False) s /\
  result_of (containsAll Z.eqb 0 s [3; 1] initial_store) = Return true /\
  result_of (containsAll Z.eqb 0 s [3; 4] initial_store) = Return false.
Proof.
  intros s.
  assert (H : toArray 0 s initial_store =
              (Return [1; 2; 3], initial_store,
               events_of (toArray 0 s initial_store))) by reflexivity.
  assert (Hpure : all_self (fun _ => False) s) by exact I.
  split; [exact H|]. split; [exact Hpure|].
  split.
  - exact (@containsAll_is_inclusion Z Z.eqb 0 s [3; 1] _ _ _ _ H Hpure).
  - exact (@containsAll_is_inclusion Z Z.eqb 0 s [3; 4] _ _ _ _ H Hpure).
Defined.

Lemma pipeline_depends_on_values_witness :
  let st := set_cursor 7 [1; 2; 3; 4; 5] (@initial_store Z) in
  let c := fst (from_iterator 7 st) in
  let st0 := snd (from_iterator 7 st) in
  let double := mkCallback 1%nat (fun (x : Z) (_ : Z) => 2 * x) in
  let ops := [@OpDrop Z 1; OpMap double; @OpTake Z 2] in
  toArray 0 c st0 =
    (Return [1; 2; 3; 4; 5], store_of (toArray 0 c st0),
     events_of (toArray 0 c st0)) /\
  exists ws,
    result_of (toArray 0 (chain c ops) st0) = Return ws /\
    forall st', result_of (toArray 0 (chain (of_ [1; 2; 3; 4; 5]) ops) st') =
                Return ws.
Proof.
  intros st c st0 double ops.
  assert (H : toArray 0 c st0 =
              (Return [1; 2; 3; 4; 5], store_of (toArray 0 c st0),
               events_of (toArray 0 c st0))) by reflexivity.
  split; [exact H|].
  exact (@pipeline_depends_on_values Z 0 ops c st0 _ _ _ H).
Defined.

Lemma peeking_takes_two_from_iterator_witness :
  let st := set_cursor 7 [10; 20; 30; 40] (@initial_store Z) in
  let c := fst (from_iterator 7 st) in
  let st0 := snd (from_iterator 7 st) in
  is_iterated (fresh st) st = false /\
  cursors st 7%nat = [10; 20; 30; 40] /\
  result_of (first 0 c st0) = Return (Some 10) /\
  cursors (store_of (first 0 c st0)) 7%nat = [30; 40] /\
  events_of (first 0 c st0) = [EPull 10; EPull 20] /\
  result_of (isEmpty 0 c st0) = Return false /\
  cursors (store_of (isEmpty 0 c st0)) 7%nat = [30; 40] /\
  events_of (isEmpty 0 c st0) = [EPull 10; EPull 20].
Proof.
  intros st c st0.
  assert (Hfresh : is_iterated (fresh st) st = false) by reflexivity.
  assert (Hcur : cursors st 7%nat = [10; 20; 30; 40]) by reflexivity.
  split; [exact Hfresh|]. split; [exact Hcur|].
  exact (@peeking_takes_two_from_iterator Z 0 7%nat st 10 20 [30; 40] Hfresh Hcur).
Defined.

Lemma elementAt_of_endless_generate_witness :
  0 <= 3 /\ (Z.to_nat 3 <= 3)%nat /\
  elementAt 3 (generate 1 (fun v => Some (2 * v))) 3 initial_store =
    (Return (Some 8), initial_store, [EGen 1; EGen 2; EGen 4]).
Proof.
  assert (Hindex : 0 <= 3) by lia.
  assert (Hfuel : (Z.to_nat 3 <= 3)%nat) by (simpl; lia).
  split; [exact Hindex|]. split; [exact Hfuel|].
  exact (@elementAt_of_endless_generate Z 3 1 (fun v => 2 * v) 3 initial_store
           Hindex Hfuel).
Defined.

Lemma concat_with_array_witness :
  let odd := mkCallback 1%nat (fun (x : Z) (_ : Z) => Z.odd x) in
  let a := take (of_ [1; 2; 3]) 2 in
  toArray 0 a initial_store =
    (Return [1; 2], initial_store, events_of (toArray 0 a initial_store)) /\
  size a = Z.of_nat (List.length [1; 2]) /\
  result_of (toArray 0 (concat a (of_ [7; 8; 9])) initial_store) =
    Return [1; 2; 7; 8; 9] /\
  result_of (toArray 0 (concat a (from_iterable [7; 8; 9])) initial_store) =
    Return [1; 2; 7; 8; 9] /\
  size (concat a (of_ [7; 8; 9])) = 5.
Proof.
  intros odd a.
  assert (H : toArray 0 a initial_store =
              (Return [1; 2], initial_store,
               events_of (toArray 0 a initial_store))) by reflexivity.
  assert (Hsize : size a = Z.of_nat (List.length [1; 2])) by reflexivity.
  destruct (@concat_with_array Z 0 a [7; 8; 9] _ _ _ _ H) as (H1 & H2 & H3).
  split; [exact H|]. split; [exact Hsize|].
  split; [now rewrite H1|]. split; [now rewrite H2|]. exact (H3 Hsize).
Defined.

Lemma take_drop_split_witness :
  let double := mkCallback 1%nat (fun (x : Z) (_ : Z) => 2 * x) in
  let small := mkCallback 2%nat (fun (x : Z) (_ : Z) => x <? 5) in
  let s := map (of_ [1; 2; 3; 4]) double in
  toArray 0 s initial_store =
    (Return [2; 4; 6; 8], initial_store, events_of (toArray 0 s initial_store)) /\
  exists front back front' back',
    result_of (toArray 0 (take s 3) initial_store) = Return front /\
    result_of (toArray 0 (drop s 3) initial_store) = Return back /\
    front ++ back = [2; 4; 6; 8] /\
    result_of (toArray 0 (takeWhile s small) initial_store) = Return front' /\
    result_of (toArray 0 (dropWhile s small) initial_store) = Return back' /\
    front' ++ back' = [2; 4; 6; 8].
Proof.
  intros double small s.
  assert (H : toArray 0 s initial_store =
              (Return [2; 4; 6; 8], initial_store,
               events_of (toArray 0 s initial_store))) by reflexivity.
  split; [exact H|].
  exact (@take_drop_split Z 0 s 3 small _ _ _ _ H).
Defined.

Lemma stopping_on_endless_generate_witness :
  let big := mkCallback 1%nat (fun (x : Z) (_ : Z) => 5 <? x) in
  let g := fun v : Z => 2 * v in
  let es := snd (each (iterate g 4 1) (find_body big) (0, None)) in
  each (iterate g 4 1) (find_body big) (0, None) = (Stop, (4, Some 8), es) /\
  (3 <= 3)%nat /\
  exists es',
    foreach 3 (generate 1 (fun v => Some (g v))) (find_body big) (0, None)
      initial_store =
    (Stop, (4, Some 8), initial_store, es').
Proof.
  intros big g es.
  assert (Heach : each (iterate g 4 1) (find_body big) (0, None) =
                  (Stop, (4, Some 8), es)) by reflexivity.
  assert (Hfuel : (3 <= 3)%nat) by lia.
  split; [exact Heach|]. split; [exact Hfuel|].
  exact (@stopping_on_endless_generate Z 3 1 g _ (find_body big) 3%nat
           (0, None) (4, Some 8) es initial_store Heach Hfuel).
Defined.

(** ** The scenarios of the test suite and of the readme *)

Module Scenarios.

(** [of(1, 2, 3, 4, 5).drop(2).first()] is 3. *)
Example drop_first :
  result_of (first 0 (drop (of_ [1; 2; 3; 4; 5]) 2) initial_store) = Return (Some 3).
Proof. reflexivity. Qed.

(** [of(1, 2, 3).concat(of(4, 5, 6))] starts with 1, ends with 6 and has size
    6; with a generated sequence the size is unknown. *)
Example concat_of :
  result_of (toArray 0 (concat (of_ [1; 2; 3]) (of_ [4; 5; 6])) initial_store) =
    Return [1; 2; 3; 4; 5; 6] /\
  size (concat (of_ [1; 2; 3]) (of_ [4; 5; 6])) = 6 /\
  size (concat (of_ [1; 2; 3]) (generate 4 (fun x => Some x))) < 0.
Proof. repeat split. Qed.

(** [take]: the values and the sizes of the test suite. *)
Example take_values :
  result_of (toArray 0 (take (of_ [1; 2; 3; 4; 5]) 2) initial_store) = Return [1; 2] /\
  result_of (toArray 0 (take (@empty Z) 2) initial_store) = Return [] /\
  result_of (toArray 6 (take (generate 0 (fun x => Some (x + 1))) 5) initial_store) =
    Return [0; 1; 2; 3; 4] /\
  size (take (of_ [1; 2; 3; 4; 5]) 2) = 2 /\
  size (take (@empty Z) 2) = 0 /\
  size (take (generate 0 (fun x => Some (x + 1))) 5) < 0.
Proof. repeat split. Qed.

(** [take(0)] and [drop(n)] beyond the length: no values, size 0. *)
Example take_drop_boundary :
  result_of (toArray 0 (take (of_ [1; 2; 3]) 0) initial_store) = Return [] /\
  size (take (of_ [1; 2; 3]) 0) = 0 /\
  result_of (toArray 0 (drop (of_ [1; 2; 3]) 7) initial_store) = Return [] /\
  size (drop (of_ [1; 2; 3]) 7) = 0.
Proof. repeat split. Qed.

(** [constrainOnce]: the fold gives 15, the [forEach] that follows throws. *)
Example constrainOnce_twice :
  let '(seq, st) := constrainOnce (of_ [1; 2; 3; 4; 5]) initial_store in
  let '(r1, st1, _) := fold 0 seq 0 (mkOperation (Some 9%nat) (fun acc curr _ => acc + curr)) st in
  r1 = Return 15 /\
  result_of (forEach 0 seq (mkCallback 8%nat (fun _ _ => tt)) st1) =
    Throw IllegalStateError.
Proof. repeat split. Qed.

(** [reduce]: 15 on [of(1, 2, 3, 4, 5)], [null] on the empty sequence. *)
Example reduce_values :
  let plus := mkOperation (Some 9%nat) (fun (acc curr : Z) (_ : Z) => acc + curr) in
  result_of (reduce 0 (of_ [1; 2; 3; 4; 5]) plus initial_store) = Return (Some 15) /\
  result_of (reduce 0 (@empty Z) plus initial_store) = Return None.
Proof. repeat split. Qed.

(** [toString] in its three forms. *)
Example toString_values :
  result_of (toString 0 (@empty Z) initial_store) = Return "Sequence (empty)"%string /\
  result_of (toString 0 (of_ [1; 2; 3]) initial_store) = Return "Sequence (3)"%string /\
  result_of (toString 0 (generate 0 (fun x => Some (x + 1))) initial_store) =
    Return "Sequence (unknown)"%string.
Proof. repeat split. Qed.

(** [generate(0, x => x >= 10 ? null : x + 1)] ends with 10. *)
Example generate_stops :
  result_of (toArray 11 (generate 0 (fun x => if x >=? 10 then None else Some (x + 1)))
               initial_store) =
  Return [0; 1; 2; 3; 4; 5; 6; 7; 8; 9; 10].
Proof. reflexivity. Qed.

End Scenarios.
